(** * Texture swizzling routines of the NV2A emulation (hw/xbox/nv2a/swizzle.c)

    A shallow embedding of the mask generator, of the table-driven bit
    scatter ("expand", Hacker's Delight 7-5) and of the box copy loops,
    together with the properties established about them.

    Conventions.
    - [uint32_t] and [unsigned int] values are integers of [Z] in
      [0, 2^32); every operation that can leave that range in C is wrapped
      by [u32] exactly where the C operation wraps.
    - The [do ... while] loop of the mask generator is run with fuel, since
      it is not a bounded loop; running out of fuel is the outcome
      [Timeout].
    - Buffers are finite lists of bytes.  A [memcpy] that reads or writes
      outside its buffer is undefined behaviour in C and is the outcome
      [Fault] here.
    - The software path of [expand] is the one modelled (the [#else] branch,
      taken when [__BMI2__] is not defined). *)

From Stdlib Require Import ZArith Lia List Bool PeanoNat.
From Stdlib.Init Require Import Byte.
Import ListNotations.

Local Open Scope Z_scope.

(** ** Outcomes of a run *)

Inductive result (A : Type) : Type :=
| Ret (a : A)      (* normal completion *)
| Abort            (* an [assert] failed *)
| Fault            (* out-of-bounds access to a buffer *)
| Timeout.         (* the loop was still running when the fuel ran out *)

Arguments Ret {A} a.
Arguments Abort {A}.
Arguments Fault {A}.
Arguments Timeout {A}.

Definition bind {A B : Type} (r : result A) (k : A -> result B) : result B :=
  match r with
  | Ret a => k a
  | Abort => Abort
  | Fault => Fault
  | Timeout => Timeout
  end.

Notation "x <- c ;; k" := (bind c (fun x => k))
  (at level 61, c at next level, right associativity).

(** ** 32-bit unsigned arithmetic *)

Definition u32 (a : Z) : Z := a mod 2 ^ 32.

(* [a << n] on uint32_t *)
Definition shl32 (a n : Z) : Z := u32 (Z.shiftl a n).

(* [~a] on uint32_t *)
Definition not32 (a : Z) : Z := u32 (Z.lnot a).

(** ** generate_swizzle_masks *)

(* One line of the loop body:
     if (cond) { a |= mask_bit; mask_bit <<= 1; done = false; } *)
Definition assign_bit (cond : bool) (a mask_bit : Z) (done : bool)
  : Z * Z * bool :=
  if cond then (Z.lor a mask_bit, shl32 mask_bit 1, false)
  else (a, mask_bit, done).

(* The variables of the loop. *)
Record masks_state : Type := mkMasksState {
  sx : Z; sy : Z; sz : Z;
  sbit : Z;
  smask_bit : Z
}.

(* uint32_t x = 0, y = 0, z = 0; uint32_t bit = 1; uint32_t mask_bit = 1; *)
Definition masks_init : masks_state := mkMasksState 0 0 0 1 1.

(* One round of the do-while body; the boolean is [done]. *)
Definition masks_body (width height depth : Z) (s : masks_state)
  : masks_state * bool :=
  let '(x1, mb1, done1) :=
    assign_bit (sbit s <? width) (sx s) (smask_bit s) true in
  let '(y1, mb2, done2) := assign_bit (sbit s <? height) (sy s) mb1 done1 in
  let '(z1, mb3, done3) := assign_bit (sbit s <? depth) (sz s) mb2 done2 in
  (mkMasksState x1 y1 z1 (shl32 (sbit s) 1) mb3, done3).

(* do { s = body(s) } while (!done); *)
Fixpoint do_while {St : Type} (fuel : nat) (body : St -> St * bool) (s : St)
  : result St :=
  match fuel with
  | O => Timeout
  | S fuel' =>
      let '(s', done) := body s in
      if done then Ret s' else do_while fuel' body s'
  end.

Definition masks_loop (fuel : nat) (width height depth : Z)
  : result masks_state :=
  do_while fuel (masks_body width height depth) masks_init.

(* assert((x ^ y ^ z) == (mask_bit - 1)) *)
Definition masks_assert (s : masks_state) : bool :=
  Z.lxor (Z.lxor (sx s) (sy s)) (sz s) =? u32 (smask_bit s - 1).

Definition generate_swizzle_masks (fuel : nat) (width height depth : Z)
  : result (Z * Z * Z) :=
  s <- masks_loop fuel width height depth ;;
  if masks_assert s then Ret (sx s, sy s, sz s) else Abort.

(** ** expand_mask, generate_expand_mask_moves, expand *)

Record expand_mask : Type := mkExpandMask {
  mask : Z;
  moves : list Z  (* uint32_t moves[5] *)
}.

(* The parallel suffix of the table construction. *)
Definition parallel_suffix (mk : Z) : Z :=
  let mp := Z.lxor mk (shl32 mk 1) in
  let mp := Z.lxor mp (shl32 mp 2) in
  let mp := Z.lxor mp (shl32 mp 4) in
  let mp := Z.lxor mp (shl32 mp 8) in
  Z.lxor mp (shl32 mp 16).

(* [n] iterations of the for loop, starting at stage [i]; the list holds
   moves[i], moves[i+1], ... *)
Fixpoint moves_loop (n : nat) (i : Z) (m mk : Z) : list Z :=
  match n with
  | O => []
  | S n' =>
      let mp := parallel_suffix mk in
      let mv := Z.land mp m in
      mv :: moves_loop n' (i + 1)
              (Z.lor (Z.lxor m mv) (Z.shiftr mv (Z.shiftl 1 i)))
              (Z.land mk (not32 mp))
  end.

Definition generate_expand_mask_moves (m : Z) : expand_mask :=
  mkExpandMask m (moves_loop 5 0 m (shl32 (not32 m) 1)).

(* Stages [n-1], [n-2], ..., 0 of the loop of [expand]. *)
Fixpoint expand_loop (n : nat) (x : Z) (mvs : list Z) : Z :=
  match n with
  | O => x
  | S i =>
      let mv := nth i mvs 0 in
      let t := shl32 x (Z.shiftl 1 (Z.of_nat i)) in
      expand_loop i (Z.lor (Z.land x (not32 mv)) (Z.land t mv)) mvs
  end.

Definition expand (x : Z) (em : expand_mask) : Z :=
  Z.land (expand_loop 5 x (moves em)) (mask em).

(** ** get_swizzled_offset *)

Definition get_swizzled_offset (x y z : Z) (mask_x mask_y mask_z : expand_mask)
           (bytes_per_pixel : Z) : Z :=
  u32 (bytes_per_pixel *
       Z.lor (Z.lor (expand x mask_x) (expand y mask_y)) (expand z mask_z)).

(** ** Buffers and memcpy *)

Definition buffer : Type := list byte.

Definition buf_len (b : buffer) : Z := Z.of_nat (length b).

(* memcpy(dst + d, src + s, n) for two buffers that do not overlap; [d] and
   [s] are offsets from the start of the buffers. *)
Definition memcpy (dst : buffer) (d : Z) (src : buffer) (s : Z) (n : Z)
  : result buffer :=
  if (0 <=? n) && (0 <=? d) && (d + n <=? buf_len dst)
     && (0 <=? s) && (s + n <=? buf_len src)
  then Ret (firstn (Z.to_nat d) dst
            ++ firstn (Z.to_nat n) (skipn (Z.to_nat s) src)
            ++ skipn (Z.to_nat (d + n)) dst)
  else Fault.

(** ** Counted loops

    [for (i = i0; i < i0 + n; i++) body(i)] over a state; the counters of
    the box loops are [int] compared against [unsigned int] bounds, so with
    the wrapping integer semantics the emulator is built with they run
    through 0, 1, ..., bound - 1. *)

Fixpoint for_loop {St : Type} (n : nat) (i : Z)
         (body : Z -> St -> result St) (s : St) : result St :=
  match n with
  | O => Ret s
  | S n' => s' <- body i s ;; for_loop n' (i + 1) body s'
  end.

(** ** swizzle_box, unswizzle_box and the 2D wrappers *)

Definition swizzle_box (fuel : nat) (src_buf : buffer)
           (width height depth : Z) (dst_buf : buffer)
           (row_pitch slice_pitch bytes_per_pixel : Z) : result buffer :=
  m <- generate_swizzle_masks fuel width height depth ;;
  let '(mx, my, mz) := m in
  let mask_x := generate_expand_mask_moves mx in
  let mask_y := generate_expand_mask_moves my in
  let mask_z := generate_expand_mask_moves mz in
  (* the state of the z loop: the destination buffer and the offset of the
     moving pointer src_buf from the start of the source buffer *)
  r <- for_loop (Z.to_nat depth) 0
         (fun z (st : buffer * Z) =>
            let '(dst0, src_off) := st in
            dst1 <- for_loop (Z.to_nat height) 0
                      (fun y dst =>
                         for_loop (Z.to_nat width) 0
                           (fun x dst =>
                              let src := src_off + u32 (y * row_pitch)
                                         + u32 (x * bytes_per_pixel) in
                              let d := get_swizzled_offset x y z
                                         mask_x mask_y mask_z
                                         bytes_per_pixel in
                              memcpy dst d src_buf src bytes_per_pixel)
                           dst)
                      dst0 ;;
            Ret (dst1, src_off + slice_pitch))
         (dst_buf, 0) ;;
  Ret (fst r).

Definition unswizzle_box (fuel : nat) (src_buf : buffer)
           (width height depth : Z) (dst_buf : buffer)
           (row_pitch slice_pitch bytes_per_pixel : Z) : result buffer :=
  m <- generate_swizzle_masks fuel width height depth ;;
  let '(mx, my, mz) := m in
  let mask_x := generate_expand_mask_moves mx in
  let mask_y := generate_expand_mask_moves my in
  let mask_z := generate_expand_mask_moves mz in
  (* the state of the z loop: the destination buffer and the offset of the
     moving pointer dst_buf from the start of the destination buffer *)
  r <- for_loop (Z.to_nat depth) 0
         (fun z (st : buffer * Z) =>
            let '(dst0, dst_off) := st in
            dst1 <- for_loop (Z.to_nat height) 0
                      (fun y dst =>
                         for_loop (Z.to_nat width) 0
                           (fun x dst =>
                              let s := get_swizzled_offset x y z
                                         mask_x mask_y mask_z
                                         bytes_per_pixel in
                              let d := dst_off + u32 (y * row_pitch)
                                       + u32 (x * bytes_per_pixel) in
                              memcpy dst d src_buf s bytes_per_pixel)
                           dst)
                      dst0 ;;
            Ret (dst1, dst_off + slice_pitch))
         (dst_buf, 0) ;;
  Ret (fst r).

Definition unswizzle_rect (fuel : nat) (src_buf : buffer) (width height : Z)
           (dst_buf : buffer) (pitch bytes_per_pixel : Z) : result buffer :=
  unswizzle_box fuel src_buf width height 1 dst_buf pitch 0 bytes_per_pixel.

Definition swizzle_rect (fuel : nat) (src_buf : buffer) (width height : Z)
           (dst_buf : buffer) (pitch bytes_per_pixel : Z) : result buffer :=
  swizzle_box fuel src_buf width height 1 dst_buf pitch 0 bytes_per_pixel.

(** ** Vocabulary of the specification and of the proofs *)

(* Number of set bits of [m] at the positions 0 .. n-1. *)
Fixpoint ones_upto (m : Z) (n : nat) : Z :=
  match n with
  | O => 0
  | S n' => ones_upto m n' + Z.b2z (Z.testbit m (Z.of_nat n'))
  end.

(* Number of set bits of [m] strictly below position [p]. *)
Definition rank (m p : Z) : Z := ones_upto m (Z.to_nat p).

Definition popcount (m : Z) : Z := rank m 32.

(* Number of clear bits of [m] strictly below position [p]. *)
Definition zc (m p : Z) : Z := p - rank m p.

(* Position of the [i]-th lowest set bit of [m] (counting from 0) among the
   [n] positions p, p+1, ... *)
Fixpoint nth_set_bit_from (n : nat) (p : Z) (m : Z) (i : nat) : option Z :=
  match n with
  | O => None
  | S n' =>
      if Z.testbit m p then
        match i with
        | O => Some p
        | S i' => nth_set_bit_from n' (p + 1) m i'
        end
      else nth_set_bit_from n' (p + 1) m i
  end.

Definition nth_set_bit (m : Z) (i : nat) : option Z :=
  nth_set_bit_from 32 0 m i.

(* XOR of the bits 0 .. n-1 of [mk]. *)
Fixpoint pxor (mk : Z) (n : nat) : bool :=
  match n with
  | O => false
  | S n' => xorb (pxor mk n') (Z.testbit mk (Z.of_nat n'))
  end.

(* XOR of the [len] bits of [mk] that end at position [p] (those at
   negative positions count as 0). *)
Fixpoint wxor (mk : Z) (p len : nat) : bool :=
  match len with
  | O => false
  | S l => xorb (wxor mk p l)
             (if (l <=? p)%nat then Z.testbit mk (Z.of_nat (p - l)) else false)
  end.

(* Where the bit that ends at position [j] of the mask [m] sits after the
   first [i] compression stages of the table construction. *)
Definition stage_pos (m i j : Z) : Z := j - zc m j mod 2 ^ i.

(* Invariant of [mk] at the start of stage [i] of the table construction for
   the mask [m0]: it marks every second, fourth, ... clear bit. *)
Definition mk_inv (m0 i mk : Z) : Prop :=
  forall q, 0 <= q < 32 ->
    Z.testbit mk q
    = (0 <? q) && negb (Z.testbit m0 (q - 1)) && (zc m0 q mod 2 ^ i =? 0).

(* Invariant of the working mask at the start of stage [i]. *)
Definition mask_inv (m0 i m : Z) : Prop :=
  forall j, 0 <= j < 32 -> Z.testbit m0 j = true ->
    Z.testbit m (stage_pos m0 i j) = true.

(* What [expand] needs of a move table for the mask [m0]. *)
Definition table_ok (m0 : Z) (mvs : list Z) : Prop :=
  forall k, (k < 5)%nat ->
  forall j, 0 <= j < 32 -> Z.testbit m0 j = true ->
    Z.testbit (nth k mvs 0) (stage_pos m0 (Z.of_nat k) j)
    = Z.testbit (zc m0 j) (Z.of_nat k).

(* The three masks after [k] bits have been handed out: [mask_bit] is the
   next bit (0 once all 32 are used), the masks are pairwise disjoint and
   cover the [k] low bits. *)
Definition bits_inv (k x y z mask_bit : Z) : Prop :=
  0 <= k <= 32
  /\ mask_bit = u32 (2 ^ k)
  /\ Z.lor (Z.lor x y) z = 2 ^ k - 1
  /\ Z.land x y = 0 /\ Z.land y z = 0 /\ Z.land x z = 0.

(* Invariant of the generator loop after [R] rounds, for any dimensions. *)
Definition masks_inv (width height depth : Z) (s : masks_state) : Prop :=
  exists R k,
    0 <= R /\ (R <= k \/ k = 32)
    /\ sbit s = u32 (2 ^ R)
    /\ bits_inv k (sx s) (sy s) (sz s) (smask_bit s)
    /\ (width = 1 -> sx s = 0)
    /\ (height = 1 -> sy s = 0)
    /\ (depth = 1 -> sz s = 0).

(* What holds of the masks at loop exit. *)
Definition masks_post (width height depth : Z) (s : masks_state) : Prop :=
  Z.lxor (Z.lxor (sx s) (sy s)) (sz s) = u32 (smask_bit s - 1)
  /\ Z.land (sx s) (sy s) = 0
  /\ Z.land (sy s) (sz s) = 0
  /\ Z.land (sx s) (sz s) = 0
  /\ (exists k, 0 <= k <= 32 /\ Z.lor (Z.lor (sx s) (sy s)) (sz s) = 2 ^ k - 1)
  /\ (width = 1 -> sx s = 0)
  /\ (height = 1 -> sy s = 0)
  /\ (depth = 1 -> sz s = 0).

(* Invariant of the generator loop after [R] rounds when the masks fit in 32
   bits: every axis has taken one bit per round until its dimension was
   reached. *)
Definition count_inv (width height depth : Z) (s : masks_state) : Prop :=
  exists R,
    0 <= R <= 31
    /\ sbit s = 2 ^ R
    /\ popcount (sx s) = Z.min R (Z.log2_up width)
    /\ popcount (sy s) = Z.min R (Z.log2_up height)
    /\ popcount (sz s) = Z.min R (Z.log2_up depth)
    /\ bits_inv (Z.min R (Z.log2_up width) + Z.min R (Z.log2_up height)
                 + Z.min R (Z.log2_up depth))
                (sx s) (sy s) (sz s) (smask_bit s).

(* The masks of a box whose address bits fit in 32 bits. *)
Definition count_post (width height depth : Z) (s : masks_state) : Prop :=
  popcount (sx s) = Z.log2_up width
  /\ popcount (sy s) = Z.log2_up height
  /\ popcount (sz s) = Z.log2_up depth
  /\ bits_inv (Z.log2_up width + Z.log2_up height + Z.log2_up depth)
              (sx s) (sy s) (sz s) (smask_bit s).

(* The pixel offset of a coordinate in the swizzled layout: what
   [get_swizzled_offset] multiplies by [bytes_per_pixel]. *)
Definition interleave (mx my mz x y z : Z) : Z :=
  Z.lor (Z.lor (expand x (generate_expand_mask_moves mx))
               (expand y (generate_expand_mask_moves my)))
        (expand z (generate_expand_mask_moves mz)).

Definition in_box (width height depth x y z : Z) : Prop :=
  0 <= x < width /\ 0 <= y < height /\ 0 <= z < depth.

(* The offset map is injective on the box and its image is exactly
   [0, width * height * depth). *)
Definition offset_bijection (width height depth mx my mz : Z) : Prop :=
  (forall x y z x' y' z',
     in_box width height depth x y z -> in_box width height depth x' y' z' ->
     interleave mx my mz x y z = interleave mx my mz x' y' z' ->
     x = x' /\ y = y' /\ z = z')
  /\ (forall o,
        (exists x y z,
           in_box width height depth x y z /\ interleave mx my mz x y z = o)
        <-> 0 <= o < width * height * depth).

(* 0, 1, ..., n-1: the values a loop counter takes below the bound [n]. *)
Definition zrange (n : Z) : list Z := map Z.of_nat (seq 0 (Z.to_nat n)).

(* The coordinates (x, y, z) of a box in the order of the loop nest:
   z outermost, x innermost. *)
Definition box_coords (width height depth : Z) : list (Z * Z * Z) :=
  flat_map (fun z =>
    flat_map (fun y =>
      map (fun x => (x, y, z)) (zrange width))
      (zrange height))
    (zrange depth).

(* Running a step for each element of a list, in order. *)
Fixpoint fold_result {A St : Type} (f : A -> St -> result St)
         (l : list A) (s : St) : result St :=
  match l with
  | [] => Ret s
  | a :: t => s' <- f a s ;; fold_result f t s'
  end.

(* The two addresses of a pixel, as offsets from the starts of the buffers.
   The products are taken in unsigned 32-bit arithmetic, as in the C
   expressions; the slice base is a pointer that has been advanced [z]
   times by [slice_pitch]. *)
Definition linear_offset (row_pitch slice_pitch bytes_per_pixel x y z : Z)
  : Z :=
  z * slice_pitch + u32 (y * row_pitch) + u32 (x * bytes_per_pixel).

Definition swizzled_offset (mx my mz bytes_per_pixel x y z : Z) : Z :=
  u32 (bytes_per_pixel * interleave mx my mz x y z).

(* The copy of one pixel from the linear to the swizzled side, and back. *)
Definition copy_in (src : buffer) (mx my mz row_pitch slice_pitch bpp : Z)
           (c : Z * Z * Z) (dst : buffer) : result buffer :=
  let '(x, y, z) := c in
  memcpy dst (swizzled_offset mx my mz bpp x y z)
         src (linear_offset row_pitch slice_pitch bpp x y z) bpp.

Definition copy_out (src : buffer) (mx my mz row_pitch slice_pitch bpp : Z)
           (c : Z * Z * Z) (dst : buffer) : result buffer :=
  let '(x, y, z) := c in
  memcpy dst (linear_offset row_pitch slice_pitch bpp x y z)
         src (swizzled_offset mx my mz bpp x y z) bpp.

(* The byte at offset [i] of a buffer. *)
Definition byte_at (b : buffer) (i : Z) : byte := nth (Z.to_nat i) b x00.

(* The round trip through [swizzle_box] and [unswizzle_box] with tightly
   packed pitches: [B] is the linear source, [S0] the buffer that receives
   the swizzled image and [L0] the buffer that receives the linear image. *)
Definition round_trip (width height depth bytes_per_pixel : Z)
           (B S0 L0 : buffer) : Prop :=
  exists fuel S1,
    swizzle_box fuel B width height depth S0
                (width * bytes_per_pixel)
                (height * (width * bytes_per_pixel)) bytes_per_pixel
    = Ret S1
    /\ unswizzle_box fuel S1 width height depth L0
                     (width * bytes_per_pixel)
                     (height * (width * bytes_per_pixel)) bytes_per_pixel
       = Ret B.

(* The index of a pixel in the tightly packed linear layout. *)
Definition pixel_index (width height : Z) (c : Z * Z * Z) : Z :=
  let '(x, y, z) := c in (z * height + y) * width + x.

(* The two offsets as functions of the coordinate triple. *)
Definition lin_of (row_pitch slice_pitch bpp : Z) (c : Z * Z * Z) : Z :=
  let '(x, y, z) := c in linear_offset row_pitch slice_pitch bpp x y z.

Definition swz_of (mx my mz bpp : Z) (c : Z * Z * Z) : Z :=
  let '(x, y, z) := c in swizzled_offset mx my mz bpp x y z.

(* The address bit that carries bit [r] of x, of y and of z, for axes that
   take [lw], [lh] and [ld] bits: in round [r] the axes that still need a
   bit take the next free address bits in the order x, y, z. *)
Definition bit_pos_x (lh ld r : Z) : Z := r + Z.min r lh + Z.min r ld.

Definition bit_pos_y (lw ld r : Z) : Z := Z.min (r + 1) lw + r + Z.min r ld.

Definition bit_pos_z (lw lh r : Z) : Z :=
  Z.min (r + 1) lw + Z.min (r + 1) lh + r.

(* The mask [m] has its [n] lowest set bits at pos 0, pos 1, ... *)
Definition axis_layout (m : Z) (pos : Z -> Z) (n : Z) : Prop :=
  forall r, 0 <= r < n -> Z.testbit m (pos r) = true /\ rank m (pos r) = r.

(* Where the bits of the three masks sit after [R] rounds of the generator,
   when the masks fit in 32 bits. *)
Definition layout_inv (width height depth : Z) (s : masks_state) : Prop :=
  exists R,
    0 <= R <= 31
    /\ sbit s = 2 ^ R
    /\ axis_layout (sx s) (bit_pos_x (Z.log2_up height) (Z.log2_up depth))
                   (Z.min R (Z.log2_up width))
    /\ axis_layout (sy s) (bit_pos_y (Z.log2_up width) (Z.log2_up depth))
                   (Z.min R (Z.log2_up height))
    /\ axis_layout (sz s) (bit_pos_z (Z.log2_up width) (Z.log2_up height))
                   (Z.min R (Z.log2_up depth)).

Definition layout_post (width height depth : Z) (s : masks_state) : Prop :=
  axis_layout (sx s) (bit_pos_x (Z.log2_up height) (Z.log2_up depth))
              (Z.log2_up width)
  /\ axis_layout (sy s) (bit_pos_y (Z.log2_up width) (Z.log2_up depth))
                 (Z.log2_up height)
  /\ axis_layout (sz s) (bit_pos_z (Z.log2_up width) (Z.log2_up height))
                 (Z.log2_up depth).

(** * Properties *)

Example masks_4_4_1 : generate_swizzle_masks 8 4 4 1 = Ret (5, 10, 0).
Proof. reflexivity. Qed.

Example expand_doc :
  expand 0xD (generate_expand_mask_moves 0x9A) = 0x92.
Proof. reflexivity. Qed.

(** ** Bits of the 32-bit operations *)

Section Bits32.

Lemma u32_small (a : Z) : 0 <= a < 2 ^ 32 -> u32 a = a.
Proof. intros H. unfold u32. apply Z.mod_small. exact H. Qed.

Lemma testbit_u32 (a p : Z) :
  Z.testbit (u32 a) p = (p <? 32) && Z.testbit a p.
Proof.
  unfold u32. destruct (Z.ltb_spec p 32) as [Hlt | Hge]; cbn [andb].
  - destruct (Z.neg_nonneg_cases p) as [Hneg | Hpos].
    + now rewrite !Z.testbit_neg_r.
    + apply Z.mod_pow2_bits_low. lia.
  - apply Z.mod_pow2_bits_high. lia.
Qed.

Lemma testbit_shl32 (a n p : Z) :
  0 <= p < 32 -> Z.testbit (shl32 a n) p = Z.testbit a (p - n).
Proof.
  intros Hp. unfold shl32. rewrite testbit_u32.
  replace (p <? 32) with true by (symmetry; apply Z.ltb_lt; lia).
  cbn [andb]. apply Z.shiftl_spec. lia.
Qed.

Lemma testbit_not32 (a p : Z) :
  0 <= p < 32 -> Z.testbit (not32 a) p = negb (Z.testbit a p).
Proof.
  intros Hp. unfold not32. rewrite testbit_u32.
  replace (p <? 32) with true by (symmetry; apply Z.ltb_lt; lia).
  cbn [andb]. apply Z.lnot_spec. lia.
Qed.

Lemma testbit_high (a p : Z) :
  0 <= a < 2 ^ 32 -> 32 <= p -> Z.testbit a p = false.
Proof.
  intros Ha Hp. rewrite <- (u32_small a Ha), testbit_u32.
  replace (p <? 32) with false by (symmetry; apply Z.ltb_ge; lia).
  reflexivity.
Qed.

Lemma shiftl_1 (i : Z) : 0 <= i -> Z.shiftl 1 i = 2 ^ i.
Proof. intros Hi. rewrite Z.shiftl_mul_pow2 by lia. lia. Qed.

End Bits32.

(** ** Counting bits *)

Section Counting.

Variable m : Z.

Lemma rank_0 : rank m 0 = 0.
Proof. reflexivity. Qed.

Lemma rank_succ (p : Z) :
  0 <= p -> rank m (p + 1) = rank m p + Z.b2z (Z.testbit m p).
Proof.
  intros Hp. unfold rank.
  replace (Z.to_nat (p + 1)) with (S (Z.to_nat p)) by lia.
  cbn [ones_upto]. now rewrite Z2Nat.id.
Qed.

Lemma zc_0 : zc m 0 = 0.
Proof. reflexivity. Qed.

Lemma zc_succ (p : Z) :
  0 <= p -> zc m (p + 1) = zc m p + Z.b2z (negb (Z.testbit m p)).
Proof.
  intros Hp. unfold zc. rewrite rank_succ by exact Hp.
  destruct (Z.testbit m p); cbn [Z.b2z negb]; lia.
Qed.

Lemma rank_bounds (p : Z) : 0 <= p -> 0 <= rank m p <= p.
Proof.
  intros Hp. pattern p. apply natlike_ind; [rewrite rank_0; lia | | exact Hp].
  intros q Hq IH. unfold Z.succ. rewrite rank_succ by exact Hq.
  destruct (Z.testbit m q); cbn [Z.b2z]; lia.
Qed.

Lemma zc_bounds (p : Z) : 0 <= p -> 0 <= zc m p <= p.
Proof. intros Hp. pose proof (rank_bounds p Hp). unfold zc. lia. Qed.

(* [zc] grows by at most one per position. *)
Lemma zc_step (p d : Z) :
  0 <= p -> 0 <= d -> zc m p <= zc m (p + d) <= zc m p + d.
Proof.
  intros Hp Hd. pattern d. apply natlike_ind; [ | | exact Hd].
  - rewrite Z.add_0_r. lia.
  - intros e He IH. replace (p + Z.succ e) with ((p + e) + 1) by lia.
    rewrite zc_succ by lia.
    destruct (Z.testbit m (p + e)); cbn [Z.b2z negb]; lia.
Qed.

Lemma rank_step (p d : Z) :
  0 <= p -> 0 <= d -> rank m p <= rank m (p + d) <= rank m p + d.
Proof.
  intros Hp Hd. pattern d. apply natlike_ind; [ | | exact Hd].
  - rewrite Z.add_0_r. lia.
  - intros e He IH. replace (p + Z.succ e) with ((p + e) + 1) by lia.
    rewrite rank_succ by lia.
    destruct (Z.testbit m (p + e)); cbn [Z.b2z]; lia.
Qed.

(* A set bit separates the ranks of the positions on its two sides. *)
Lemma rank_lt (p q : Z) :
  0 <= p < q -> Z.testbit m p = true -> rank m p < rank m q.
Proof.
  intros Hpq Hbit.
  pose proof (rank_succ p (proj1 Hpq)) as Hs. rewrite Hbit in Hs.
  pose proof (rank_step (p + 1) (q - p - 1) ltac:(lia) ltac:(lia)) as Hm.
  replace (p + 1 + (q - p - 1)) with q in Hm by lia.
  cbn [Z.b2z] in Hs. lia.
Qed.

End Counting.

(** ** Arithmetic of single bits *)

Section BitArith.

Lemma div_pow2_testbit (a i : Z) :
  0 <= i -> Z.testbit a i = Z.odd (a / 2 ^ i).
Proof.
  intros Hi. rewrite Z.testbit_odd, Z.shiftr_div_pow2 by lia. reflexivity.
Qed.

Lemma mod_pow2_succ (a i : Z) :
  0 <= i ->
  a mod 2 ^ (i + 1) = a mod 2 ^ i + 2 ^ i * Z.b2z (Z.testbit a i).
Proof.
  intros Hi. rewrite Z.pow_add_r by lia. change (2 ^ 1) with 2.
  assert (0 < 2 ^ i) by (apply Z.pow_pos_nonneg; lia).
  rewrite Z.rem_mul_r by lia.
  rewrite div_pow2_testbit by lia.
  rewrite Zmod_odd. destruct (Z.odd (a / 2 ^ i)); cbn [Z.b2z]; lia.
Qed.

Lemma divides_pow2_succ (a i : Z) :
  0 <= i ->
  (a mod 2 ^ (i + 1) =? 0) = (a mod 2 ^ i =? 0) && negb (Z.testbit a i).
Proof.
  intros Hi. rewrite mod_pow2_succ by lia.
  assert (0 < 2 ^ i) by (apply Z.pow_pos_nonneg; lia).
  pose proof (Z.mod_pos_bound a (2 ^ i) ltac:(lia)).
  destruct (Z.testbit a i); cbn [Z.b2z negb].
  - rewrite andb_false_r. apply Z.eqb_neq. lia.
  - rewrite andb_true_r. f_equal. lia.
Qed.

(* Adding one flips bit [i] exactly when the sum is a multiple of 2^i. *)
Lemma testbit_succ (n i : Z) :
  0 <= i ->
  Z.testbit (n + 1) i = xorb (Z.testbit n i) ((n + 1) mod 2 ^ i =? 0).
Proof.
  intros Hi.
  assert (Hpos : 0 < 2 ^ i) by (apply Z.pow_pos_nonneg; lia).
  rewrite !div_pow2_testbit by lia.
  pose proof (Z.div_mod n (2 ^ i) ltac:(lia)) as Hn.
  pose proof (Z.mod_pos_bound n (2 ^ i) Hpos) as Hr.
  destruct (Z.eq_dec (n mod 2 ^ i) (2 ^ i - 1)) as [Hfull | Hpart].
  - assert (Hq : n + 1 = (n / 2 ^ i + 1) * 2 ^ i) by lia.
    rewrite Hq at 2. rewrite Z.mod_mul by lia. rewrite Z.eqb_refl.
    rewrite Hq. rewrite Z.div_mul by lia.
    rewrite Z.odd_add. cbn. now destruct (Z.odd (n / 2 ^ i)).
  - assert (Hdiv : (n + 1) / 2 ^ i = n / 2 ^ i).
    { symmetry. apply (Z.div_unique (n + 1) (2 ^ i) _ (n mod 2 ^ i + 1)); lia. }
    assert (Hmod : (n + 1) mod 2 ^ i = n mod 2 ^ i + 1).
    { symmetry. apply (Z.mod_unique (n + 1) (2 ^ i) (n / 2 ^ i)); lia. }
    rewrite Hdiv, Hmod.
    replace (n mod 2 ^ i + 1 =? 0) with false by (symmetry; apply Z.eqb_neq; lia).
    now rewrite xorb_false_r.
Qed.

(* Two numbers that lie in the same block of length 2^i agree on bit [i]. *)
Lemma testbit_same_block (a b i : Z) :
  0 <= i -> a - a mod 2 ^ i <= b <= a -> Z.testbit b i = Z.testbit a i.
Proof.
  intros Hi Hb.
  assert (Hpos : 0 < 2 ^ i) by (apply Z.pow_pos_nonneg; lia).
  rewrite !div_pow2_testbit by lia. f_equal.
  pose proof (Z.div_mod a (2 ^ i) ltac:(lia)) as Ha.
  pose proof (Z.mod_pos_bound a (2 ^ i) Hpos) as Hr.
  symmetry. apply (Z.div_unique b (2 ^ i) _ (b - 2 ^ i * (a / 2 ^ i))); lia.
Qed.

End BitArith.

(** ** The parallel suffix computes prefix parities *)

Section ParallelSuffix.

Variable mk : Z.

Lemma wxor_add (p a b : nat) :
  wxor mk p (a + b) =
  xorb (wxor mk p a) (if (a <=? p)%nat then wxor mk (p - a) b else false).
Proof.
  induction b as [ | b IH].
  - rewrite Nat.add_0_r. cbn [wxor]. destruct (a <=? p)%nat; now rewrite xorb_false_r.
  - rewrite Nat.add_succ_r. cbn [wxor]. rewrite IH.
    destruct (Nat.leb_spec a p) as [Hle | Hgt].
    + rewrite xorb_assoc. f_equal. f_equal.
      destruct (Nat.leb_spec (a + b) p) as [Hle' | Hgt'].
      * replace (b <=? p - a)%nat with true by (symmetry; apply Nat.leb_le; lia).
        do 2 f_equal. lia.
      * replace (b <=? p - a)%nat with false by (symmetry; apply Nat.leb_gt; lia).
        reflexivity.
    + replace (a + b <=? p)%nat with false by (symmetry; apply Nat.leb_gt; lia).
      now rewrite !xorb_false_r.
Qed.

Lemma wxor_one (p : nat) : wxor mk p 1 = Z.testbit mk (Z.of_nat p).
Proof. cbn [wxor]. cbn [Nat.leb]. now rewrite Nat.sub_0_r. Qed.

(* A window that reaches below position 0 is the whole prefix. *)
Lemma wxor_prefix (p len : nat) :
  (p < len)%nat -> wxor mk p len = pxor mk (S p).
Proof.
  revert len. induction p as [ | p IH]; intros len Hlen.
  - destruct len as [ | l]; [lia | ].
    change (S l) with (1 + l)%nat. rewrite wxor_add, wxor_one. cbn.
    now rewrite xorb_false_r.
  - destruct len as [ | l]; [lia | ].
    change (S l) with (1 + l)%nat. rewrite wxor_add, wxor_one.
    replace (1 <=? S p)%nat with true by reflexivity.
    replace (S p - 1)%nat with p by lia.
    rewrite (IH l) by lia.
    change (pxor mk (S (S p))) with
      (xorb (pxor mk (S p)) (Z.testbit mk (Z.of_nat (S p)))).
    apply xorb_comm.
Qed.

(* One doubling step: mp ^ (mp << len). *)
Lemma suffix_step (a : Z) (len : nat) :
  (forall p, (p < 32)%nat -> Z.testbit a (Z.of_nat p) = wxor mk p len) ->
  forall p, (p < 32)%nat ->
    Z.testbit (Z.lxor a (shl32 a (Z.of_nat len))) (Z.of_nat p)
    = wxor mk p (len + len).
Proof.
  intros Ha p Hp. rewrite Z.lxor_spec, testbit_shl32 by lia.
  rewrite wxor_add, Ha by exact Hp. f_equal.
  destruct (Nat.leb_spec len p) as [Hle | Hgt].
  - replace (Z.of_nat p - Z.of_nat len) with (Z.of_nat (p - len)) by lia.
    apply Ha. lia.
  - apply Z.testbit_neg_r. lia.
Qed.

Lemma parallel_suffix_spec (p : nat) :
  (p < 32)%nat ->
  Z.testbit (parallel_suffix mk) (Z.of_nat p) = pxor mk (S p).
Proof.
  intros Hp. unfold parallel_suffix.
  rewrite <- (wxor_prefix p 32 Hp).
  revert p Hp.
  change 32%nat with (16 + 16)%nat. change 16 with (Z.of_nat 16).
  apply suffix_step.
  change 16%nat with (8 + 8)%nat. change 8 with (Z.of_nat 8).
  apply suffix_step.
  change 8%nat with (4 + 4)%nat. change 4 with (Z.of_nat 4).
  apply suffix_step.
  change 4%nat with (2 + 2)%nat. change 2 with (Z.of_nat 2).
  apply suffix_step.
  change 2%nat with (1 + 1)%nat. change 1 with (Z.of_nat 1).
  apply suffix_step.
  intros p Hp. now rewrite wxor_one.
Qed.

End ParallelSuffix.

(** ** The table construction *)

Section Table.

Variable m0 : Z.

Lemma prefix_parity (i mk : Z) :
  0 <= i -> mk_inv m0 i mk ->
  forall n, (n < 32)%nat ->
    pxor mk (S n) = Z.testbit (zc m0 (Z.of_nat n)) i.
Proof.
  intros Hi Hinv n. induction n as [ | n IH]; intros Hn.
  - cbn [pxor Z.of_nat]. rewrite (Hinv 0) by lia. cbn [Z.ltb Z.compare andb xorb].
    rewrite zc_0. now rewrite Z.testbit_0_l.
  - change (pxor mk (S (S n))) with
      (xorb (pxor mk (S n)) (Z.testbit mk (Z.of_nat (S n)))).
    rewrite IH by lia. rewrite (Hinv (Z.of_nat (S n))) by lia.
    replace (0 <? Z.of_nat (S n)) with true by (symmetry; apply Z.ltb_lt; lia).
    replace (Z.of_nat (S n) - 1) with (Z.of_nat n) by lia.
    replace (Z.of_nat (S n)) with (Z.of_nat n + 1) by lia.
    rewrite zc_succ by lia.
    destruct (Z.testbit m0 (Z.of_nat n)); cbn [negb andb Z.b2z].
    + rewrite Z.add_0_r. apply xorb_false_r.
    + symmetry. apply testbit_succ. exact Hi.
Qed.

Lemma mp_spec (i mk p : Z) :
  0 <= i -> mk_inv m0 i mk -> 0 <= p < 32 ->
  Z.testbit (parallel_suffix mk) p = Z.testbit (zc m0 p) i.
Proof.
  intros Hi Hinv Hp.
  rewrite <- (Z2Nat.id p) by lia.
  rewrite parallel_suffix_spec by lia.
  apply prefix_parity; [exact Hi | exact Hinv | lia].
Qed.

Lemma mk_inv_init : mk_inv m0 0 (shl32 (not32 m0) 1).
Proof.
  intros q Hq. rewrite testbit_shl32 by exact Hq.
  rewrite Z.pow_0_r, Z.mod_1_r. cbn [Z.eqb]. rewrite andb_true_r.
  destruct (Z.ltb_spec 0 q) as [Hpos | Hzero]; cbn [andb].
  - apply testbit_not32. lia.
  - apply Z.testbit_neg_r. lia.
Qed.

Lemma mk_inv_step (i mk : Z) :
  0 <= i -> mk_inv m0 i mk ->
  mk_inv m0 (i + 1) (Z.land mk (not32 (parallel_suffix mk))).
Proof.
  intros Hi Hinv q Hq.
  rewrite Z.land_spec, testbit_not32, (mp_spec i) by assumption.
  rewrite (Hinv q Hq), divides_pow2_succ by exact Hi.
  now rewrite !andb_assoc.
Qed.

Lemma stage_pos_0 (j : Z) : stage_pos m0 0 j = j.
Proof. unfold stage_pos. rewrite Z.pow_0_r, Z.mod_1_r. lia. Qed.

Lemma stage_pos_bounds (i j : Z) :
  0 <= i -> 0 <= j -> 0 <= stage_pos m0 i j <= j.
Proof.
  intros Hi Hj. unfold stage_pos.
  pose proof (zc_bounds m0 j Hj).
  assert (0 < 2 ^ i) by (apply Z.pow_pos_nonneg; lia).
  pose proof (Z.mod_pos_bound (zc m0 j) (2 ^ i) ltac:(lia)).
  pose proof (Z.mod_le (zc m0 j) (2 ^ i) ltac:(lia) ltac:(lia)).
  lia.
Qed.

Lemma stage_pos_succ (i j : Z) :
  0 <= i ->
  stage_pos m0 (i + 1) j
  = stage_pos m0 i j - 2 ^ i * Z.b2z (Z.testbit (zc m0 j) i).
Proof. intros Hi. unfold stage_pos. rewrite mod_pow2_succ by exact Hi. lia. Qed.

(* After five stages every bit of the mask has reached its rank. *)
Lemma stage_pos_5 (j : Z) : 0 <= j < 32 -> stage_pos m0 5 j = rank m0 j.
Proof.
  intros Hj. unfold stage_pos. pose proof (zc_bounds m0 j ltac:(lia)).
  rewrite Z.mod_small by (change (2 ^ 5) with 32; lia).
  unfold zc. lia.
Qed.

(* A bit that has moved down part of its way still sees the same stage bit
   of its distance. *)
Lemma zc_stage_pos (i j : Z) :
  0 <= i -> 0 <= j ->
  Z.testbit (zc m0 (stage_pos m0 i j)) i = Z.testbit (zc m0 j) i.
Proof.
  intros Hi Hj. apply testbit_same_block; [exact Hi | ].
  pose proof (stage_pos_bounds i j Hi Hj) as Hb.
  assert (0 < 2 ^ i) by (apply Z.pow_pos_nonneg; lia).
  pose proof (Z.mod_pos_bound (zc m0 j) (2 ^ i) ltac:(lia)) as Hr.
  pose proof (zc_step m0 (stage_pos m0 i j) (zc m0 j mod 2 ^ i)
                ltac:(lia) ltac:(lia)) as Hs.
  replace (stage_pos m0 i j + zc m0 j mod 2 ^ i) with j in Hs
    by (unfold stage_pos; lia).
  lia.
Qed.

Lemma mv_spec (i m mk j : Z) :
  0 <= i -> mk_inv m0 i mk -> mask_inv m0 i m ->
  0 <= j < 32 -> Z.testbit m0 j = true ->
  Z.testbit (Z.land (parallel_suffix mk) m) (stage_pos m0 i j)
  = Z.testbit (zc m0 j) i.
Proof.
  intros Hi Hmk Hm Hj Hbit.
  pose proof (stage_pos_bounds i j Hi ltac:(lia)).
  rewrite Z.land_spec, (mp_spec i), (Hm j Hj Hbit), andb_true_r
    by (assumption || lia).
  apply zc_stage_pos; lia.
Qed.

Lemma mask_inv_init : mask_inv m0 0 m0.
Proof. intros j Hj Hbit. now rewrite stage_pos_0. Qed.

Lemma mask_inv_step (i m mk : Z) :
  0 <= i -> mk_inv m0 i mk -> mask_inv m0 i m ->
  let mv := Z.land (parallel_suffix mk) m in
  mask_inv m0 (i + 1) (Z.lor (Z.lxor m mv) (Z.shiftr mv (Z.shiftl 1 i))).
Proof.
  intros Hi Hmk Hm mv j Hj Hbit.
  pose proof (stage_pos_bounds (i + 1) j ltac:(lia) ltac:(lia)) as Hb.
  pose proof (mv_spec i m mk j Hi Hmk Hm Hj Hbit) as Hmv. fold mv in Hmv.
  rewrite stage_pos_succ in Hb |- * by exact Hi.
  rewrite Z.lor_spec, Z.lxor_spec, Z.shiftr_spec, shiftl_1 by lia.
  destruct (Z.testbit (zc m0 j) i); cbn [Z.b2z] in Hb |- *.
  - replace (stage_pos m0 i j - 2 ^ i * 1 + 2 ^ i) with (stage_pos m0 i j) by lia.
    rewrite Hmv. apply orb_true_r.
  - rewrite Z.mul_0_r, Z.sub_0_r. rewrite Hmv, (Hm j Hj Hbit). reflexivity.
Qed.

Lemma moves_loop_spec (n : nat) :
  forall i m mk,
    0 <= i -> mk_inv m0 i mk -> mask_inv m0 i m ->
    forall k, (k < n)%nat ->
    forall j, 0 <= j < 32 -> Z.testbit m0 j = true ->
      Z.testbit (nth k (moves_loop n i m mk) 0)
                (stage_pos m0 (i + Z.of_nat k) j)
      = Z.testbit (zc m0 j) (i + Z.of_nat k).
Proof.
  induction n as [ | n IH]; intros i m mk Hi Hmk Hm k Hk j Hj Hbit; [lia | ].
  cbn [moves_loop]. destruct k as [ | k].
  - cbn [nth]. rewrite Z.add_0_r. now apply mv_spec.
  - cbn [nth]. replace (i + Z.of_nat (S k)) with (i + 1 + Z.of_nat k) by lia.
    apply IH; try lia; try assumption.
    + now apply mk_inv_step.
    + now apply mask_inv_step.
Qed.

Lemma generate_expand_mask_moves_ok :
  table_ok m0 (moves (generate_expand_mask_moves m0)).
Proof.
  intros k Hk j Hj Hbit. cbn [generate_expand_mask_moves moves].
  apply (moves_loop_spec 5 0 m0 (shl32 (not32 m0) 1));
    auto using mk_inv_init, mask_inv_init with zarith.
Qed.

(* One stage of [expand] moves the selected bits up by 2^i. *)
Lemma expand_stage_bit (x mv i p : Z) :
  0 <= i -> 0 <= p < 32 ->
  Z.testbit (Z.lor (Z.land x (not32 mv)) (Z.land (shl32 x (Z.shiftl 1 i)) mv)) p
  = if Z.testbit mv p then Z.testbit x (p - 2 ^ i) else Z.testbit x p.
Proof.
  intros Hi Hp.
  rewrite Z.lor_spec, !Z.land_spec, testbit_not32, testbit_shl32, shiftl_1
    by lia.
  destruct (Z.testbit mv p); cbn [negb].
  - now rewrite andb_false_r, andb_true_r.
  - now rewrite andb_true_r, andb_false_r, orb_false_r.
Qed.

Lemma expand_loop_spec (mvs : list Z) :
  table_ok m0 mvs ->
  forall n, (n <= 5)%nat ->
  forall x j, 0 <= j < 32 -> Z.testbit m0 j = true ->
    Z.testbit (expand_loop n x mvs) j
    = Z.testbit x (stage_pos m0 (Z.of_nat n) j).
Proof.
  intros Htab n. induction n as [ | i IH]; intros Hn x j Hj Hbit.
  - cbn [expand_loop]. now rewrite stage_pos_0.
  - cbn [expand_loop]. rewrite IH by (lia || assumption).
    pose proof (stage_pos_bounds (Z.of_nat i) j ltac:(lia) ltac:(lia)).
    rewrite expand_stage_bit by lia.
    rewrite (Htab i ltac:(lia) j Hj Hbit).
    replace (Z.of_nat (S i)) with (Z.of_nat i + 1) by lia.
    rewrite stage_pos_succ by lia.
    destruct (Z.testbit (zc m0 j) (Z.of_nat i)); cbn [Z.b2z]; f_equal; lia.
Qed.

End Table.

(** Bit [p] of [expand v] is bit [rank m p] of [v] when [p] is in the
    mask, and 0 otherwise. *)
Lemma expand_bits (m v p : Z) :
  0 <= m < 2 ^ 32 -> 0 <= p ->
  Z.testbit (expand v (generate_expand_mask_moves m)) p
  = Z.testbit m p && Z.testbit v (rank m p).
Proof.
  intros Hm Hp. unfold expand. rewrite Z.land_spec.
  change (mask (generate_expand_mask_moves m)) with m.
  destruct (Z.testbit m p) eqn:Hbit; [ | apply andb_false_r].
  rewrite andb_true_r, andb_true_l.
  assert (Hp32 : p < 32).
  { destruct (Z.lt_ge_cases p 32) as [Hlt | Hge]; [exact Hlt | ].
    rewrite (testbit_high m p Hm Hge) in Hbit. discriminate. }
  rewrite (expand_loop_spec m _ (generate_expand_mask_moves_ok m) 5)
    by (lia || assumption).
  change (Z.of_nat 5) with 5. now rewrite stage_pos_5 by lia.
Qed.

(** ** The i-th lowest set bit *)

Section NthSetBit.

Variable m : Z.

Lemma popcount_rank : popcount m = rank m 32.
Proof. reflexivity. Qed.

Lemma nth_set_bit_from_sound (n : nat) :
  forall p i q,
    0 <= p -> nth_set_bit_from n p m i = Some q ->
    p <= q < p + Z.of_nat n /\ Z.testbit m q = true
    /\ rank m q = rank m p + Z.of_nat i.
Proof.
  induction n as [ | n IH]; intros p i q Hp Hsel; [discriminate | ].
  cbn [nth_set_bit_from] in Hsel.
  pose proof (rank_succ m p Hp) as Hr.
  destruct (Z.testbit m p) eqn:Hbit; cbn [Z.b2z] in Hr.
  - destruct i as [ | i].
    + injection Hsel as <-. repeat split; try lia. exact Hbit.
    + destruct (IH (p + 1) i q ltac:(lia) Hsel) as (Hq & Hm & Hrk).
      repeat split; try lia. exact Hm.
  - destruct (IH (p + 1) i q ltac:(lia) Hsel) as (Hq & Hm & Hrk).
    repeat split; try lia. exact Hm.
Qed.

Lemma nth_set_bit_from_complete (n : nat) :
  forall p i,
    0 <= p -> Z.of_nat i < rank m (p + Z.of_nat n) - rank m p ->
    exists q, nth_set_bit_from n p m i = Some q.
Proof.
  induction n as [ | n IH]; intros p i Hp Hi.
  - cbn [Z.of_nat] in Hi. rewrite Z.add_0_r in Hi. lia.
  - cbn [nth_set_bit_from].
    replace (p + Z.of_nat (S n)) with (p + 1 + Z.of_nat n) in Hi by lia.
    pose proof (rank_succ m p Hp) as Hr.
    destruct (Z.testbit m p); cbn [Z.b2z] in Hr.
    + destruct i as [ | i]; [now exists p | ]. apply IH; lia.
    + apply IH; lia.
Qed.

Lemma nth_set_bit_sound (i : nat) (q : Z) :
  nth_set_bit m i = Some q ->
  0 <= q < 32 /\ Z.testbit m q = true /\ rank m q = Z.of_nat i.
Proof.
  unfold nth_set_bit. intros Hsel.
  apply nth_set_bit_from_sound in Hsel; [ | lia].
  destruct Hsel as (Hq & Hm & Hrk).
  rewrite rank_0 in Hrk. replace (Z.of_nat 32) with 32 in Hq by reflexivity.
  repeat split; try lia. exact Hm.
Qed.

Lemma nth_set_bit_complete (i : nat) :
  Z.of_nat i < popcount m -> exists q, nth_set_bit m i = Some q.
Proof.
  intros Hi. unfold nth_set_bit. apply nth_set_bit_from_complete; [lia | ].
  rewrite rank_0, Z.sub_0_r, Z.add_0_l.
  replace (Z.of_nat 32) with 32 by reflexivity.
  rewrite <- popcount_rank. exact Hi.
Qed.

Lemma rank_lt_popcount (p : Z) :
  0 <= p < 32 -> Z.testbit m p = true -> 0 <= rank m p < popcount m.
Proof.
  intros Hp Hbit. split; [apply rank_bounds; lia | ].
  rewrite popcount_rank. apply rank_lt; [lia | exact Hbit].
Qed.

End NthSetBit.

(** ** The scatter semantics of [expand] *)

(** C3. For every 32-bit mask [m] and every value [v], [expand] with the
    table built from [m] puts bit [i] of [v] at the position of the [i]-th
    lowest set bit of [m] (which exists for every [i] below the number of
    set bits of [m]), and every bit of the result outside [m] is 0. *)
Theorem expand_scatter (m v : Z) :
  0 <= m < 2 ^ 32 ->
  (forall i, Z.of_nat i < popcount m -> exists p, nth_set_bit m i = Some p)
  /\ (forall i p, nth_set_bit m i = Some p ->
        Z.testbit (expand v (generate_expand_mask_moves m)) p
        = Z.testbit v (Z.of_nat i))
  /\ (forall p, Z.testbit m p = false ->
        Z.testbit (expand v (generate_expand_mask_moves m)) p = false).
Proof.
  intros Hm. split; [ | split].
  - intros i Hi. now apply nth_set_bit_complete.
  - intros i p Hsel.
    destruct (nth_set_bit_sound m i p Hsel) as (Hp & Hbit & Hrk).
    rewrite expand_bits by lia. now rewrite Hbit, Hrk.
  - intros p Hbit. unfold expand. rewrite Z.land_spec.
    change (mask (generate_expand_mask_moves m)) with m.
    rewrite Hbit. apply andb_false_r.
Qed.

Lemma expand_scatter_witness :
  (forall i, Z.of_nat i < popcount 0x9A -> exists p, nth_set_bit 0x9A i = Some p)
  /\ (forall i p, nth_set_bit 0x9A i = Some p ->
        Z.testbit (expand 0xD (generate_expand_mask_moves 0x9A)) p
        = Z.testbit 0xD (Z.of_nat i))
  /\ (forall p, Z.testbit 0x9A p = false ->
        Z.testbit (expand 0xD (generate_expand_mask_moves 0x9A)) p = false).
Proof. apply (expand_scatter 0x9A 0xD). split; [lia | reflexivity]. Defined.

(** C9. [expand] is defined on every 32-bit value, also on those at or above
    2^popcount(mask): every bit of the result outside the mask is 0, and the
    result depends only on the low popcount(mask) bits of the value. *)
Theorem expand_total (m v : Z) :
  0 <= m < 2 ^ 32 -> 0 <= v < 2 ^ 32 ->
  (forall p, Z.testbit m p = false ->
     Z.testbit (expand v (generate_expand_mask_moves m)) p = false)
  /\ expand v (generate_expand_mask_moves m)
     = expand (v mod 2 ^ popcount m) (generate_expand_mask_moves m).
Proof.
  intros Hm Hv. split.
  - intros p Hbit. unfold expand. rewrite Z.land_spec.
    change (mask (generate_expand_mask_moves m)) with m.
    rewrite Hbit. apply andb_false_r.
  - apply Z.bits_inj'. intros p Hp. rewrite !expand_bits by assumption.
    destruct (Z.testbit m p) eqn:Hbit; [ | reflexivity]. cbn [andb].
    assert (Hp32 : p < 32).
    { destruct (Z.lt_ge_cases p 32) as [Hlt | Hge]; [exact Hlt | ].
      rewrite (testbit_high m p Hm Hge) in Hbit. discriminate. }
    pose proof (rank_lt_popcount m p ltac:(lia) Hbit).
    symmetry. apply Z.mod_pow2_bits_low. lia.
Qed.

Lemma expand_total_witness :
  (forall p, Z.testbit 0x9A p = false ->
     Z.testbit (expand 0xFFFFFFFD (generate_expand_mask_moves 0x9A)) p = false)
  /\ expand 0xFFFFFFFD (generate_expand_mask_moves 0x9A)
     = expand (0xFFFFFFFD mod 2 ^ popcount 0x9A) (generate_expand_mask_moves 0x9A).
Proof.
  apply (expand_total 0x9A 0xFFFFFFFD); split; (lia || reflexivity).
Defined.

(** ** Handing out mask bits *)

Section MaskBits.

Lemma u32_pow2_low (k : Z) : 0 <= k < 32 -> u32 (2 ^ k) = 2 ^ k.
Proof.
  intros Hk. apply u32_small. split; [apply Z.pow_nonneg; lia | ].
  apply Z.pow_lt_mono_r; lia.
Qed.

Lemma u32_pow2_high (k : Z) : 32 <= k -> u32 (2 ^ k) = 0.
Proof.
  intros Hk. unfold u32. replace k with ((k - 32) + 32) by lia.
  rewrite Z.pow_add_r by lia. apply Z.mod_mul. lia.
Qed.

Lemma u32_pow2_pos (k : Z) : 0 <= k < 32 -> 0 < u32 (2 ^ k).
Proof.
  intros Hk. rewrite u32_pow2_low by exact Hk. apply Z.pow_pos_nonneg; lia.
Qed.

Lemma shl32_u32_pow2 (k : Z) :
  0 <= k -> shl32 (u32 (2 ^ k)) 1 = u32 (2 ^ (k + 1)).
Proof.
  intros Hk. unfold shl32, u32. rewrite Z.shiftl_mul_pow2 by lia.
  rewrite Z.mul_mod_idemp_l by lia. now rewrite Z.pow_add_r by lia.
Qed.

Lemma ones_pow2 (k : Z) : 2 ^ k - 1 = Z.ones k.
Proof. rewrite Z.ones_equiv. lia. Qed.

(* Bit-level reading of [bits_inv]. *)
Lemma bits_inv_bits (k x y z mb : Z) :
  bits_inv k x y z mb ->
  forall p, 0 <= p ->
    Z.testbit x p || Z.testbit y p || Z.testbit z p = (p <? k)
    /\ Z.testbit x p && Z.testbit y p = false
    /\ Z.testbit y p && Z.testbit z p = false
    /\ Z.testbit x p && Z.testbit z p = false.
Proof.
  intros (Hk & _ & Hor & Hxy & Hyz & Hxz) p Hp.
  rewrite <- !Z.land_spec, <- !Z.lor_spec, Hor, Hxy, Hyz, Hxz, ones_pow2.
  rewrite Z.testbit_ones_nonneg, Z.testbit_0_l by lia. auto.
Qed.

Lemma bits_inv_of_bits (k x y z : Z) :
  0 <= k <= 32 ->
  (forall p, 0 <= p ->
     Z.testbit x p || Z.testbit y p || Z.testbit z p = (p <? k)
     /\ Z.testbit x p && Z.testbit y p = false
     /\ Z.testbit y p && Z.testbit z p = false
     /\ Z.testbit x p && Z.testbit z p = false) ->
  bits_inv k x y z (u32 (2 ^ k)).
Proof.
  intros Hk Hbits. split; [exact Hk | ]. split; [reflexivity | ].
  rewrite ones_pow2.
  repeat split; apply Z.bits_inj'; intros p Hp;
    destruct (Hbits p Hp) as (Hor & Hxy & Hyz & Hxz);
    rewrite ?Z.lor_spec, ?Z.land_spec, ?Z.testbit_ones_nonneg, ?Z.testbit_0_l
      by lia; assumption.
Qed.

Lemma bits_inv_init : bits_inv 0 0 0 0 1.
Proof. unfold bits_inv. cbn. repeat split; lia. Qed.

(* x |= mask_bit; mask_bit <<= 1; *)
Lemma assign_x (k x y z mb : Z) :
  bits_inv k x y z mb ->
  bits_inv (Z.min (k + 1) 32) (Z.lor x mb) y z (shl32 mb 1).
Proof.
  intros Hinv. pose proof (bits_inv_bits _ _ _ _ _ Hinv) as Hbits.
  destruct Hinv as (Hk & Hmb & _). subst mb.
  rewrite shl32_u32_pow2 by lia.
  destruct (Z.eq_dec k 32) as [-> | Hne].
  - change (Z.min (32 + 1) 32) with 32.
    rewrite (u32_pow2_high (32 + 1)), <- (u32_pow2_high 32) by lia.
    apply bits_inv_of_bits; [lia | ]. intros p Hp.
    destruct (Hbits p Hp) as (Hor & Hxy & Hyz & Hxz).
    rewrite Z.lor_spec, (u32_pow2_high 32), Z.testbit_0_l, orb_false_r by lia.
    auto.
  - rewrite Z.min_l by lia.
    apply bits_inv_of_bits; [lia | ]. intros p Hp.
    destruct (Hbits p Hp) as (Hor & Hxy & Hyz & Hxz).
    rewrite Z.lor_spec, u32_pow2_low, Z.pow2_bits_eqb by lia.
    destruct (Z.eqb_spec k p) as [<- | Hkp].
    + destruct (Hbits k ltac:(lia)) as (Hork & _).
      rewrite Z.ltb_irrefl in Hork.
      apply orb_false_elim in Hork. destruct Hork as [Hork Hzk].
      apply orb_false_elim in Hork. destruct Hork as [Hxk Hyk].
      rewrite Hxk, Hyk, Hzk. cbn.
      repeat split; try reflexivity. symmetry. apply Z.ltb_lt. lia.
    + rewrite orb_false_r. repeat split; try assumption.
      rewrite Hor. destruct (Z.ltb_spec p k), (Z.ltb_spec p (k + 1)); lia || reflexivity.
Qed.

Lemma bits_inv_swap_xy (k x y z mb : Z) :
  bits_inv k x y z mb -> bits_inv k y x z mb.
Proof.
  intros (Hk & Hmb & Hor & Hxy & Hyz & Hxz).
  repeat split; try assumption; try lia.
  - now rewrite (Z.lor_comm y x).
  - now rewrite Z.land_comm.
Qed.

Lemma bits_inv_swap_xz (k x y z mb : Z) :
  bits_inv k x y z mb -> bits_inv k z y x mb.
Proof.
  intros (Hk & Hmb & Hor & Hxy & Hyz & Hxz).
  repeat split; try assumption; try lia.
  - now rewrite (Z.lor_comm z y), Z.lor_comm, Z.lor_assoc.
  - now rewrite Z.land_comm.
  - now rewrite Z.land_comm.
  - now rewrite Z.land_comm.
Qed.

Lemma assign_y (k x y z mb : Z) :
  bits_inv k x y z mb ->
  bits_inv (Z.min (k + 1) 32) x (Z.lor y mb) z (shl32 mb 1).
Proof. intros H. now apply bits_inv_swap_xy, assign_x, bits_inv_swap_xy. Qed.

Lemma assign_z (k x y z mb : Z) :
  bits_inv k x y z mb ->
  bits_inv (Z.min (k + 1) 32) x y (Z.lor z mb) (shl32 mb 1).
Proof. intros H. now apply bits_inv_swap_xz, assign_x, bits_inv_swap_xz. Qed.

(* Once all 32 bits are used, mask_bit is 0 and assigning changes nothing. *)
Lemma bits_inv_full (x y z mb a : Z) :
  bits_inv 32 x y z mb -> Z.lor a mb = a.
Proof.
  intros (_ & Hmb & _). subst mb. rewrite u32_pow2_high by lia.
  apply Z.lor_0_r.
Qed.

(* The assertion of the generator follows from the invariant. *)
Lemma bits_inv_assert (k x y z mb : Z) :
  bits_inv k x y z mb -> Z.lxor (Z.lxor x y) z = u32 (mb - 1).
Proof.
  intros (Hk & Hmb & Hor & Hxy & Hyz & Hxz). subst mb.
  rewrite (Z.lxor_lor x y) by exact Hxy.
  rewrite Z.lxor_lor.
  - rewrite Hor. destruct (Z.eq_dec k 32) as [-> | Hne].
    + reflexivity.
    + rewrite u32_pow2_low by lia. symmetry. apply u32_small.
      assert (0 < 2 ^ k) by (apply Z.pow_pos_nonneg; lia).
      assert (2 ^ k < 2 ^ 32) by (apply Z.pow_lt_mono_r; lia). lia.
  - rewrite Z.land_lor_distr_l, Hxz, Hyz. reflexivity.
Qed.

End MaskBits.

(** ** Loops *)

Section DoWhile.

Context {St : Type}.
Variable body : St -> St * bool.

(* An invariant of the rounds carries over to the state at loop exit. *)
Lemma do_while_inv (P Q : St -> Prop) :
  (forall s, P s -> if snd (body s) then Q (fst (body s)) else P (fst (body s))) ->
  forall fuel s s', P s -> do_while fuel body s = Ret s' -> Q s'.
Proof.
  intros Hstep fuel. induction fuel as [ | fuel IH]; intros s s' HP Hrun.
  - discriminate.
  - cbn [do_while] in Hrun. specialize (Hstep s HP).
    destruct (body s) as [s1 done]. cbn [fst snd] in Hstep.
    destruct done.
    + injection Hrun as <-. exact Hstep.
    + now apply (IH s1).
Qed.

(* The loop itself neither aborts nor faults. *)
Lemma do_while_outcome (fuel : nat) (s : St) :
  (exists s', do_while fuel body s = Ret s') \/ do_while fuel body s = Timeout.
Proof.
  revert s. induction fuel as [ | fuel IH]; intros s; [now right | ].
  cbn [do_while]. destruct (body s) as [s1 [ | ]]; [left; now exists s1 | apply IH].
Qed.

(* A loop whose rounds never set [done] does not exit. *)
Lemma do_while_diverges (P : St -> Prop) :
  (forall s, P s -> snd (body s) = false /\ P (fst (body s))) ->
  forall fuel s, P s -> do_while fuel body s = Timeout.
Proof.
  intros Hstep fuel. induction fuel as [ | fuel IH]; intros s HP; [reflexivity | ].
  cbn [do_while]. destruct (Hstep s HP) as [Hdone HP'].
  destruct (body s) as [s1 done]. cbn [fst snd] in Hdone, HP'. subst done.
  now apply IH.
Qed.

(* A measure that goes down in every round that does not exit bounds the
   number of rounds. *)
Lemma do_while_terminates (P : St -> Prop) (mu : St -> nat) :
  (forall s, P s ->
     snd (body s) = true \/ (P (fst (body s)) /\ (mu (fst (body s)) < mu s)%nat)) ->
  forall fuel s, P s -> (mu s < fuel)%nat ->
    exists s', do_while fuel body s = Ret s'.
Proof.
  intros Hstep fuel. induction fuel as [ | fuel IH]; intros s HP Hmu; [lia | ].
  cbn [do_while]. destruct (Hstep s HP) as [Hdone | [HP' Hlt]];
    destruct (body s) as [s1 done]; cbn [fst snd] in *.
  - subst done. now exists s1.
  - destruct done; [now exists s1 | ]. apply IH; [exact HP' | lia].
Qed.

End DoWhile.

Section ForLoop.

Context {St : Type}.

Lemma for_loop_ext (n : nat) :
  forall i (f g : Z -> St -> result St) s,
    (forall j t, i <= j < i + Z.of_nat n -> f j t = g j t) ->
    for_loop n i f s = for_loop n i g s.
Proof.
  induction n as [ | n IH]; intros i f g s Hfg; [reflexivity | ].
  cbn [for_loop]. rewrite (Hfg i s) by lia.
  destruct (g i s) as [s1 | | | ]; cbn [bind]; try reflexivity.
  apply IH. intros j t Hj. apply Hfg. lia.
Qed.

End ForLoop.

(** ** The generator loop *)

Section Generator.

Variables width height depth : Z.

Lemma masks_inv_init : masks_inv width height depth masks_init.
Proof.
  exists 0, 0. cbn [masks_init sx sy sz sbit smask_bit].
  split; [lia | ]. split; [lia | ]. split; [reflexivity | ].
  split; [apply bits_inv_init | ]. repeat split; intros; reflexivity.
Qed.

Lemma masks_inv_intro (R k x y z b mb : Z) :
  0 <= R -> (R <= k \/ k = 32) -> b = u32 (2 ^ R) ->
  bits_inv k x y z mb ->
  (width = 1 -> x = 0) -> (height = 1 -> y = 0) -> (depth = 1 -> z = 0) ->
  masks_inv width height depth (mkMasksState x y z b mb).
Proof. intros. exists R, k. cbn [sx sy sz sbit smask_bit]. auto 10. Qed.

Lemma masks_post_intro (k x y z b mb : Z) :
  bits_inv k x y z mb ->
  (width = 1 -> x = 0) -> (height = 1 -> y = 0) -> (depth = 1 -> z = 0) ->
  masks_post width height depth (mkMasksState x y z b mb).
Proof.
  intros Hinv Hw Hh Hd.
  pose proof (bits_inv_assert _ _ _ _ _ Hinv) as Hassert.
  destruct Hinv as (Hk & Hmb & Hor & Hxy & Hyz & Hxz).
  unfold masks_post. cbn [sx sy sz sbit smask_bit].
  repeat split; try assumption. now exists k.
Qed.

(* A threshold below 1 means that [bit] has wrapped to 0. *)
Lemma bit_below_one (R k : Z) :
  0 <= R -> (R <= k \/ k = 32) -> 0 <= k <= 32 ->
  (u32 (2 ^ R) <? 1) = true -> k = 32.
Proof.
  intros HR HRk Hk Hlt. apply Z.ltb_lt in Hlt.
  destruct (Z.lt_ge_cases R 32) as [Hlow | Hhigh]; [ | lia].
  pose proof (u32_pow2_pos R ltac:(lia)). lia.
Qed.

(* An axis of dimension 1 that is offered a bit is offered the bit 0. *)
Lemma assign_dim_one (R k k' c a x y z mb : Z) :
  0 <= R -> (R <= k \/ k = 32) -> 0 <= k <= k' ->
  bits_inv k' x y z mb ->
  (u32 (2 ^ R) <? c) = true ->
  (c = 1 -> a = 0) -> c = 1 -> Z.lor a mb = 0.
Proof.
  intros HR HRk Hk Hinv Hlt Ha Hc. subst c.
  assert (Hk' : 0 <= k' <= 32) by (destruct Hinv; assumption).
  assert (k = 32) by (apply (bit_below_one R k); (assumption || lia)).
  assert (k' = 32) by lia. subst k'.
  rewrite (bits_inv_full _ _ _ _ a Hinv). auto.
Qed.

Lemma masks_body_inv (s : masks_state) :
  masks_inv width height depth s ->
  if snd (masks_body width height depth s)
  then masks_post width height depth (fst (masks_body width height depth s))
  else masks_inv width height depth (fst (masks_body width height depth s)).
Proof.
  intros (R & k & HR & HRk & Hbit & Hinv & Hw & Hh & Hd).
  assert (Hk : 0 <= k <= 32) by (destruct Hinv; assumption).
  pose proof (assign_x _ _ _ _ _ Hinv) as Hx.
  pose proof (assign_y _ _ _ _ _ Hinv) as Hy.
  pose proof (assign_z _ _ _ _ _ Hinv) as Hz.
  pose proof (assign_y _ _ _ _ _ Hx) as Hxy.
  pose proof (assign_z _ _ _ _ _ Hx) as Hxz.
  pose proof (assign_z _ _ _ _ _ Hy) as Hyz.
  pose proof (assign_z _ _ _ _ _ Hxy) as Hxyz.
  unfold masks_body, assign_bit. rewrite Hbit.
  destruct (u32 (2 ^ R) <? width) eqn:Hcw;
    destruct (u32 (2 ^ R) <? height) eqn:Hch;
    destruct (u32 (2 ^ R) <? depth) eqn:Hcd;
    cbn [fst snd].
  - refine (masks_inv_intro (R + 1) _ _ _ _ _ _ _ _
              (shl32_u32_pow2 R HR) Hxyz _ _ _);
      [lia | lia | | | ].
    + eapply (assign_dim_one R k _ width);
        [exact HR | exact HRk | | exact Hinv | exact Hcw | exact Hw]; lia.
    + eapply (assign_dim_one R k _ height);
        [exact HR | exact HRk | | exact Hx | exact Hch | exact Hh]; lia.
    + eapply (assign_dim_one R k _ depth);
        [exact HR | exact HRk | | exact Hxy | exact Hcd | exact Hd]; lia.
  - refine (masks_inv_intro (R + 1) _ _ _ _ _ _ _ _
              (shl32_u32_pow2 R HR) Hxy _ _ _);
      [lia | lia | | | ].
    + eapply (assign_dim_one R k _ width);
        [exact HR | exact HRk | | exact Hinv | exact Hcw | exact Hw]; lia.
    + eapply (assign_dim_one R k _ height);
        [exact HR | exact HRk | | exact Hx | exact Hch | exact Hh]; lia.
    + exact Hd.
  - refine (masks_inv_intro (R + 1) _ _ _ _ _ _ _ _
              (shl32_u32_pow2 R HR) Hxz _ _ _);
      [lia | lia | | | ].
    + eapply (assign_dim_one R k _ width);
        [exact HR | exact HRk | | exact Hinv | exact Hcw | exact Hw]; lia.
    + exact Hh.
    + eapply (assign_dim_one R k _ depth);
        [exact HR | exact HRk | | exact Hx | exact Hcd | exact Hd]; lia.
  - refine (masks_inv_intro (R + 1) _ _ _ _ _ _ _ _
              (shl32_u32_pow2 R HR) Hx _ _ _);
      [lia | lia | | | ].
    + eapply (assign_dim_one R k _ width);
        [exact HR | exact HRk | | exact Hinv | exact Hcw | exact Hw]; lia.
    + exact Hh.
    + exact Hd.
  - refine (masks_inv_intro (R + 1) _ _ _ _ _ _ _ _
              (shl32_u32_pow2 R HR) Hyz _ _ _);
      [lia | lia | | | ].
    + exact Hw.
    + eapply (assign_dim_one R k _ height);
        [exact HR | exact HRk | | exact Hinv | exact Hch | exact Hh]; lia.
    + eapply (assign_dim_one R k _ depth);
        [exact HR | exact HRk | | exact Hy | exact Hcd | exact Hd]; lia.
  - refine (masks_inv_intro (R + 1) _ _ _ _ _ _ _ _
              (shl32_u32_pow2 R HR) Hy _ _ _);
      [lia | lia | | | ].
    + exact Hw.
    + eapply (assign_dim_one R k _ height);
        [exact HR | exact HRk | | exact Hinv | exact Hch | exact Hh]; lia.
    + exact Hd.
  - refine (masks_inv_intro (R + 1) _ _ _ _ _ _ _ _
              (shl32_u32_pow2 R HR) Hz _ _ _);
      [lia | lia | | | ].
    + exact Hw.
    + exact Hh.
    + eapply (assign_dim_one R k _ depth);
        [exact HR | exact HRk | | exact Hinv | exact Hcd | exact Hd]; lia.
  - now apply (masks_post_intro k).
Qed.

End Generator.

(** ** Exit of the generator loop *)

Section GeneratorRuns.

Variables width height depth : Z.

Lemma masks_body_done (s : masks_state) :
  snd (masks_body width height depth s)
  = negb (sbit s <? width) && negb (sbit s <? height) && negb (sbit s <? depth).
Proof.
  unfold masks_body, assign_bit.
  destruct (sbit s <? width), (sbit s <? height), (sbit s <? depth); reflexivity.
Qed.

Lemma masks_body_bit (s : masks_state) :
  sbit (fst (masks_body width height depth s)) = shl32 (sbit s) 1.
Proof.
  unfold masks_body, assign_bit.
  destruct (sbit s <? width), (sbit s <? height), (sbit s <? depth); reflexivity.
Qed.

(* Whenever the loop exits, the postcondition holds, the assertion passes and
   the three masks are returned. *)
Lemma masks_loop_post (fuel : nat) (s : masks_state) :
  masks_loop fuel width height depth = Ret s ->
  masks_post width height depth s
  /\ generate_swizzle_masks fuel width height depth = Ret (sx s, sy s, sz s).
Proof.
  intros Hrun.
  assert (Hpost : masks_post width height depth s).
  { apply (do_while_inv (masks_body width height depth)
             (masks_inv width height depth) (masks_post width height depth)
             (masks_body_inv width height depth) fuel masks_init s
             (masks_inv_init width height depth) Hrun). }
  split; [exact Hpost | ].
  unfold generate_swizzle_masks. rewrite Hrun. cbn [bind].
  destruct Hpost as (Hassert & _).
  unfold masks_assert. rewrite Hassert, Z.eqb_refl. reflexivity.
Qed.

Lemma generate_swizzle_masks_outcome (fuel : nat) :
  (exists s, masks_loop fuel width height depth = Ret s
             /\ generate_swizzle_masks fuel width height depth
                = Ret (sx s, sy s, sz s))
  \/ generate_swizzle_masks fuel width height depth = Timeout.
Proof.
  destruct (do_while_outcome (masks_body width height depth) fuel masks_init)
    as [[s Hrun] | Hout].
  - left. exists s. split; [exact Hrun | ]. now apply masks_loop_post.
  - right. unfold generate_swizzle_masks, masks_loop. now rewrite Hout.
Qed.

(* With every dimension at most 2^31 the threshold 2^31 ends the loop. *)
Lemma masks_loop_terminates (fuel : nat) :
  width <= 2 ^ 31 -> height <= 2 ^ 31 -> depth <= 2 ^ 31 ->
  (32 <= fuel)%nat ->
  exists s, masks_loop fuel width height depth = Ret s.
Proof.
  intros Hw Hh Hd Hfuel.
  apply (do_while_terminates (masks_body width height depth)
           (fun s => exists R, 0 <= R <= 31 /\ sbit s = 2 ^ R)
           (fun s => Z.to_nat (31 - Z.log2 (sbit s)))).
  - intros s (R & HR & Hbit).
    rewrite masks_body_done, masks_body_bit, Hbit.
    destruct (Z.eq_dec R 31) as [-> | Hne].
    + left.
      replace (2 ^ 31 <? width) with false by (symmetry; apply Z.ltb_ge; lia).
      replace (2 ^ 31 <? height) with false by (symmetry; apply Z.ltb_ge; lia).
      replace (2 ^ 31 <? depth) with false by (symmetry; apply Z.ltb_ge; lia).
      reflexivity.
    + right.
      assert (Hshl : shl32 (2 ^ R) 1 = 2 ^ (R + 1)).
      { rewrite <- (u32_pow2_low R) by lia.
        rewrite shl32_u32_pow2 by lia. apply u32_pow2_low. lia. }
      rewrite Hshl.
      split; [exists (R + 1); split; [lia | reflexivity] | ].
      rewrite !Z.log2_pow2 by lia. lia.
  - exists 0. split; [lia | reflexivity].
  - cbn [masks_init sbit]. change (Z.log2 1) with 0. lia.
Qed.

Lemma generate_swizzle_masks_returns (fuel : nat) :
  width <= 2 ^ 31 -> height <= 2 ^ 31 -> depth <= 2 ^ 31 ->
  (32 <= fuel)%nat ->
  exists s, masks_loop fuel width height depth = Ret s
            /\ masks_post width height depth s
            /\ generate_swizzle_masks fuel width height depth
               = Ret (sx s, sy s, sz s).
Proof.
  intros Hw Hh Hd Hfuel.
  destruct (masks_loop_terminates fuel Hw Hh Hd Hfuel) as [s Hrun].
  exists s. split; [exact Hrun | ]. now apply masks_loop_post.
Qed.

(* A width above 2^31 is above every value [bit] takes, also after [bit]
   has wrapped to 0. *)
Lemma masks_loop_diverges (fuel : nat) :
  2 ^ 31 < width -> masks_loop fuel width height depth = Timeout.
Proof.
  intros Hw.
  apply (do_while_diverges (masks_body width height depth)
           (fun s => exists R, 0 <= R /\ sbit s = u32 (2 ^ R))).
  - intros s (R & HR & Hbit). split.
    + rewrite masks_body_done, Hbit.
      replace (u32 (2 ^ R) <? width) with true; [reflexivity | ].
      symmetry. apply Z.ltb_lt.
      destruct (Z.lt_ge_cases R 32) as [Hlow | Hhigh].
      * rewrite u32_pow2_low by lia.
        assert (2 ^ R <= 2 ^ 31) by (apply Z.pow_le_mono_r; lia). lia.
      * rewrite u32_pow2_high by lia. lia.
    + exists (R + 1). rewrite masks_body_bit, Hbit.
      split; [lia | now apply shl32_u32_pow2].
  - exists 0. split; [lia | reflexivity].
Qed.

End GeneratorRuns.

(** ** The postcondition of the mask generator *)

(** C4. For all dimensions of at least 1, the assertion of the generator
    never fires; at every exit of the loop the masks satisfy
    x ^ y ^ z == mask_bit - 1, they are pairwise disjoint and their union is
    a contiguous range of low bits, and these masks are what the generator
    returns.  With every dimension at most 2^31 the loop does exit (within
    32 rounds). *)
Theorem masks_postcondition (fuel : nat) (width height depth : Z) :
  1 <= width -> 1 <= height -> 1 <= depth ->
  generate_swizzle_masks fuel width height depth <> Abort
  /\ (forall s, masks_loop fuel width height depth = Ret s ->
        Z.lxor (Z.lxor (sx s) (sy s)) (sz s) = u32 (smask_bit s - 1)
        /\ Z.land (sx s) (sy s) = 0
        /\ Z.land (sy s) (sz s) = 0
        /\ Z.land (sx s) (sz s) = 0
        /\ (exists k, 0 <= k <= 32
                      /\ Z.lor (Z.lor (sx s) (sy s)) (sz s) = 2 ^ k - 1)
        /\ generate_swizzle_masks fuel width height depth
           = Ret (sx s, sy s, sz s))
  /\ (width <= 2 ^ 31 -> height <= 2 ^ 31 -> depth <= 2 ^ 31 ->
      (32 <= fuel)%nat ->
      exists s, masks_loop fuel width height depth = Ret s).
Proof.
  intros _ _ _. split; [ | split].
  - destruct (generate_swizzle_masks_outcome width height depth fuel)
      as [(s & _ & Hret) | Hout]; congruence.
  - intros s Hrun.
    destruct (masks_loop_post width height depth fuel s Hrun)
      as ((Hassert & Hxy & Hyz & Hxz & Hor & _) & Hret).
    auto 10.
  - intros Hw Hh Hd Hfuel. now apply masks_loop_terminates.
Qed.

Lemma masks_postcondition_witness :
  generate_swizzle_masks 32 4 4 1 <> Abort.
Proof.
  exact (proj1 (masks_postcondition 32 4 4 1 ltac:(lia) ltac:(lia) ltac:(lia))).
Defined.

(** C8. Whenever the generator returns, an axis of dimension 1 has mask 0,
    and a mask 0 contributes nothing to the interleave: [expand] with the
    table of the mask 0 is 0 on every value.  For dimensions up to 2^31 the
    generator does return.  For width = height = depth = 1 all three masks
    are 0 and the pixel (0,0,0) has swizzled offset 0; for width = 4,
    height = 4, depth = 1 the masks are 5, 10 and 0. *)
Theorem degenerate_axes :
  (forall fuel width height depth mx my mz,
     generate_swizzle_masks fuel width height depth = Ret (mx, my, mz) ->
     (width = 1 -> mx = 0) /\ (height = 1 -> my = 0) /\ (depth = 1 -> mz = 0))
  /\ (forall fuel width height depth,
        width <= 2 ^ 31 -> height <= 2 ^ 31 -> depth <= 2 ^ 31 ->
        (32 <= fuel)%nat ->
        exists m, generate_swizzle_masks fuel width height depth = Ret m)
  /\ (forall v, expand v (generate_expand_mask_moves 0) = 0)
  /\ (forall fuel, generate_swizzle_masks (S fuel) 1 1 1 = Ret (0, 0, 0))
  /\ (forall bytes_per_pixel,
        get_swizzled_offset 0 0 0
          (generate_expand_mask_moves 0) (generate_expand_mask_moves 0)
          (generate_expand_mask_moves 0) bytes_per_pixel = 0)
  /\ (forall fuel, generate_swizzle_masks (S (S (S fuel))) 4 4 1 = Ret (5, 10, 0)).
Proof.
  repeat split.
  - destruct (generate_swizzle_masks_outcome width height depth fuel)
      as [(s & Hrun & Hret) | Hout]; [ | congruence].
    destruct (masks_loop_post width height depth fuel s Hrun)
      as ((_ & _ & _ & _ & _ & Hw & _) & _).
    rewrite Hret in H. injection H as <- <- <-. exact Hw.
  - destruct (generate_swizzle_masks_outcome width height depth fuel)
      as [(s & Hrun & Hret) | Hout]; [ | congruence].
    destruct (masks_loop_post width height depth fuel s Hrun)
      as ((_ & _ & _ & _ & _ & _ & Hh & _) & _).
    rewrite Hret in H. injection H as <- <- <-. exact Hh.
  - destruct (generate_swizzle_masks_outcome width height depth fuel)
      as [(s & Hrun & Hret) | Hout]; [ | congruence].
    destruct (masks_loop_post width height depth fuel s Hrun)
      as ((_ & _ & _ & _ & _ & _ & _ & Hd) & _).
    rewrite Hret in H. injection H as <- <- <-. exact Hd.
  - intros fuel width height depth Hw Hh Hd Hfuel.
    destruct (generate_swizzle_masks_returns width height depth fuel
                Hw Hh Hd Hfuel) as (s & _ & _ & Hret).
    now exists (sx s, sy s, sz s).
  - intros v. unfold expand. apply Z.land_0_r.
  - intros bytes_per_pixel. unfold get_swizzled_offset, expand.
    cbn [mask generate_expand_mask_moves]. rewrite !Z.land_0_r.
    cbn [Z.lor]. now rewrite Z.mul_0_r.
Qed.

Lemma degenerate_axes_witness :
  generate_swizzle_masks 32 1 4 1 = Ret (0, 3, 0)
  /\ ((1 = 1 -> 0 = 0) /\ (4 = 1 -> 3 = 0) /\ (1 = 1 -> 0 = 0)).
Proof.
  split; [reflexivity | ].
  exact (proj1 degenerate_axes 32%nat 1 4 1 0 3 0 eq_refl).
Defined.

(** ** The shape of the masks when the address fits in 32 bits *)

Section MaskShape.

Lemma rank_set_bit (x k : Z) :
  0 <= k -> Z.testbit x k = false ->
  forall p, 0 <= p ->
    rank (Z.lor x (2 ^ k)) p = rank x p + Z.b2z (k <? p).
Proof.
  intros Hk Hbit p Hp. pattern p. apply natlike_ind; [ | | exact Hp].
  - rewrite !rank_0. replace (k <? 0) with false by (symmetry; apply Z.ltb_ge; lia).
    reflexivity.
  - intros q Hq IH. unfold Z.succ. rewrite !rank_succ, IH by exact Hq.
    rewrite Z.lor_spec, Z.pow2_bits_eqb by exact Hk.
    destruct (Z.eqb_spec k q) as [-> | Hne].
    + rewrite Hbit, Z.ltb_irrefl.
      replace (q <? q + 1) with true by (symmetry; apply Z.ltb_lt; lia).
      reflexivity.
    + rewrite orb_false_r.
      destruct (Z.ltb_spec k q), (Z.ltb_spec k (q + 1)); lia.
Qed.

Lemma popcount_set_bit (x k : Z) :
  0 <= k < 32 -> Z.testbit x k = false ->
  popcount (Z.lor x (2 ^ k)) = popcount x + 1.
Proof.
  intros Hk Hbit. rewrite !popcount_rank.
  rewrite rank_set_bit by (lia || assumption).
  replace (k <? 32) with true by (symmetry; apply Z.ltb_lt; lia).
  reflexivity.
Qed.

Lemma bits_inv_clear (k x y z mb : Z) :
  bits_inv k x y z mb ->
  Z.testbit x k = false /\ Z.testbit y k = false /\ Z.testbit z k = false.
Proof.
  intros Hinv. assert (Hk : 0 <= k) by (destruct Hinv; lia).
  destruct (bits_inv_bits _ _ _ _ _ Hinv k Hk) as (Hor & _).
  rewrite Z.ltb_irrefl in Hor.
  apply orb_false_elim in Hor. destruct Hor as [Hor Hz].
  apply orb_false_elim in Hor. destruct Hor as [Hx Hy]. auto.
Qed.

(* One guarded assignment, on each of the three axes. *)
Lemma assign_bit_x (c : bool) (k x y z mb : Z) (done : bool) :
  bits_inv k x y z mb -> (c = true -> k < 32) ->
  bits_inv (k + Z.b2z c) (fst (fst (assign_bit c x mb done))) y z
           (snd (fst (assign_bit c x mb done)))
  /\ popcount (fst (fst (assign_bit c x mb done))) = popcount x + Z.b2z c.
Proof.
  intros Hinv Hc. destruct c; cbn [assign_bit fst snd Z.b2z].
  - specialize (Hc eq_refl).
    pose proof (assign_x _ _ _ _ _ Hinv) as Hx.
    rewrite Z.min_l in Hx by lia. split; [exact Hx | ].
    destruct (bits_inv_clear _ _ _ _ _ Hinv) as (Hclear & _).
    destruct Hinv as (Hk & -> & _). rewrite u32_pow2_low by lia.
    apply popcount_set_bit; [lia | exact Hclear].
  - rewrite !Z.add_0_r. auto.
Qed.

Lemma assign_bit_y (c : bool) (k x y z mb : Z) (done : bool) :
  bits_inv k x y z mb -> (c = true -> k < 32) ->
  bits_inv (k + Z.b2z c) x (fst (fst (assign_bit c y mb done))) z
           (snd (fst (assign_bit c y mb done)))
  /\ popcount (fst (fst (assign_bit c y mb done))) = popcount y + Z.b2z c.
Proof.
  intros Hinv Hc.
  destruct (assign_bit_x c k y x z mb done (bits_inv_swap_xy _ _ _ _ _ Hinv) Hc).
  split; [now apply bits_inv_swap_xy | assumption].
Qed.

Lemma assign_bit_z (c : bool) (k x y z mb : Z) (done : bool) :
  bits_inv k x y z mb -> (c = true -> k < 32) ->
  bits_inv (k + Z.b2z c) x y (fst (fst (assign_bit c z mb done)))
           (snd (fst (assign_bit c z mb done)))
  /\ popcount (fst (fst (assign_bit c z mb done))) = popcount z + Z.b2z c.
Proof.
  intros Hinv Hc.
  destruct (assign_bit_x c k z y x mb done (bits_inv_swap_xz _ _ _ _ _ Hinv) Hc).
  split; [now apply bits_inv_swap_xz | assumption].
Qed.

(* The threshold 2^R is below a dimension for exactly the first
   ceil(log2(dimension)) rounds. *)
Lemma threshold_rounds (R a : Z) :
  0 <= R -> 0 < a ->
  Z.b2z (2 ^ R <? a) = Z.min (R + 1) (Z.log2_up a) - Z.min R (Z.log2_up a).
Proof.
  intros HR Ha. pose proof (Z.log2_up_lt_pow2 a R Ha) as Hiff.
  destruct (Z.ltb_spec (2 ^ R) a) as [Hlt | Hge]; cbn [Z.b2z]; lia.
Qed.

Lemma log2_up_dim (a : Z) : 0 < a <= 2 ^ 31 -> 0 <= Z.log2_up a <= 31.
Proof.
  intros Ha. split; [apply Z.log2_up_nonneg | ].
  apply Z.log2_up_le_pow2; lia.
Qed.

Lemma assign_bit_done (c : bool) (a mb : Z) (done : bool) :
  snd (assign_bit c a mb done) = negb c && done.
Proof. now destruct c. Qed.

End MaskShape.

Section MaskShapeLoop.

Variables width height depth : Z.
Hypothesis Hwidth : 0 < width <= 2 ^ 31.
Hypothesis Hheight : 0 < height <= 2 ^ 31.
Hypothesis Hdepth : 0 < depth <= 2 ^ 31.
Hypothesis Hfit :
  Z.log2_up width + Z.log2_up height + Z.log2_up depth <= 32.

Lemma bits_inv_index (k k' x y z mb : Z) :
  k = k' -> bits_inv k x y z mb -> bits_inv k' x y z mb.
Proof. now intros ->. Qed.

Lemma count_inv_init : count_inv width height depth masks_init.
Proof.
  pose proof (Z.log2_up_nonneg width). pose proof (Z.log2_up_nonneg height).
  pose proof (Z.log2_up_nonneg depth).
  exists 0. cbn [masks_init sx sy sz sbit smask_bit].
  rewrite !Z.min_l by lia.
  repeat split; lia.
Qed.

Lemma count_body (s : masks_state) :
  count_inv width height depth s ->
  if snd (masks_body width height depth s)
  then count_post width height depth (fst (masks_body width height depth s))
  else count_inv width height depth (fst (masks_body width height depth s)).
Proof.
  intros (R & HR & Hbit & Hpx & Hpy & Hpz & Hinv).
  pose proof (log2_up_dim width Hwidth) as Hlw.
  pose proof (log2_up_dim height Hheight) as Hlh.
  pose proof (log2_up_dim depth Hdepth) as Hld.
  pose proof (threshold_rounds R width ltac:(lia) ltac:(lia)) as Hcx.
  pose proof (threshold_rounds R height ltac:(lia) ltac:(lia)) as Hcy.
  pose proof (threshold_rounds R depth ltac:(lia) ltac:(lia)) as Hcz.
  unfold masks_body. rewrite Hbit.
  set (cx := 2 ^ R <? width) in *.
  set (cy := 2 ^ R <? height) in *.
  set (cz := 2 ^ R <? depth) in *.
  destruct (assign_bit_x cx _ _ _ _ _ true Hinv) as [Hinv1 Hp1].
  { intros ->. cbn [Z.b2z] in Hcx. lia. }
  pose proof (assign_bit_done cx (sx s) (smask_bit s) true) as Hd1.
  destruct (assign_bit cx (sx s) (smask_bit s) true) as [[x1 mb1] done1].
  cbn [fst snd] in Hinv1, Hp1, Hd1.
  destruct (assign_bit_y cy _ _ _ _ _ done1 Hinv1) as [Hinv2 Hp2].
  { intros ->. cbn [Z.b2z] in Hcy. lia. }
  pose proof (assign_bit_done cy (sy s) mb1 done1) as Hd2.
  destruct (assign_bit cy (sy s) mb1 done1) as [[y1 mb2] done2].
  cbn [fst snd] in Hinv2, Hp2, Hd2.
  destruct (assign_bit_z cz _ _ _ _ _ done2 Hinv2) as [Hinv3 Hp3].
  { intros ->. cbn [Z.b2z] in Hcz. lia. }
  pose proof (assign_bit_done cz (sz s) mb2 done2) as Hd3.
  destruct (assign_bit cz (sz s) mb2 done2) as [[z1 mb3] done3].
  cbn [fst snd] in Hinv3, Hp3, Hd3 |- *.
  subst done1 done2. rewrite andb_true_r in Hd3.
  destruct done3.
  - (* no axis took a bit *)
    symmetry in Hd3. apply andb_true_iff in Hd3. destruct Hd3 as [Ez Hd3].
    apply andb_true_iff in Hd3. destruct Hd3 as [Ey Ex].
    apply negb_true_iff in Ex, Ey, Ez. rewrite Ex in *. rewrite Ey in *.
    rewrite Ez in *. cbn [Z.b2z] in *.
    unfold count_post. cbn [sx sy sz smask_bit].
    split; [lia | ]. split; [lia | ]. split; [lia | ].
    eapply bits_inv_index; [ | exact Hinv3]. lia.
  - (* some axis took a bit: another round *)
    assert (Hsome : Z.b2z cx + Z.b2z cy + Z.b2z cz >= 1).
    { destruct cx, cy, cz; cbn [Z.b2z]; lia || discriminate. }
    assert (HR' : R < 31) by lia.
    exists (R + 1). cbn [sx sy sz sbit smask_bit].
    split; [lia | ]. split.
    { rewrite <- (u32_pow2_low R) by lia.
      rewrite shl32_u32_pow2 by lia. apply u32_pow2_low. lia. }
    split; [lia | ]. split; [lia | ]. split; [lia | ].
    eapply bits_inv_index; [ | exact Hinv3]. lia.
Qed.

(* The masks the generator returns for such a box. *)
Lemma generate_swizzle_masks_shape (fuel : nat) :
  (32 <= fuel)%nat ->
  exists s,
    generate_swizzle_masks fuel width height depth = Ret (sx s, sy s, sz s)
    /\ count_post width height depth s.
Proof.
  intros Hfuel.
  destruct (generate_swizzle_masks_returns width height depth fuel
              ltac:(lia) ltac:(lia) ltac:(lia) Hfuel) as (s & Hrun & _ & Hret).
  exists s. split; [exact Hret | ].
  apply (do_while_inv (masks_body width height depth)
           (count_inv width height depth) (count_post width height depth)
           count_body fuel masks_init s count_inv_init Hrun).
Qed.

End MaskShapeLoop.

(** ** The interleaved offset *)

Section Interleave.

Lemma testbit_above (a n i : Z) :
  0 <= a < 2 ^ n -> 0 <= n <= i -> Z.testbit a i = false.
Proof.
  intros Ha Hi. rewrite <- (Z.mod_small a (2 ^ n)) by exact Ha.
  apply Z.mod_pow2_bits_high. exact Hi.
Qed.

Lemma popcount_nonneg (m : Z) : 0 <= popcount m <= 32.
Proof. rewrite popcount_rank. apply rank_bounds. lia. Qed.

Lemma expand_nonneg (m v : Z) :
  0 <= m -> 0 <= expand v (generate_expand_mask_moves m).
Proof. intros Hm. unfold expand. apply Z.land_nonneg. now right. Qed.

(* [expand] loses nothing of a value that fits in popcount(mask) bits. *)
Lemma expand_inj (m a b : Z) :
  0 <= m < 2 ^ 32 ->
  0 <= a < 2 ^ popcount m -> 0 <= b < 2 ^ popcount m ->
  expand a (generate_expand_mask_moves m)
  = expand b (generate_expand_mask_moves m) ->
  a = b.
Proof.
  intros Hm Ha Hb Heq. pose proof (popcount_nonneg m) as Hpop.
  apply Z.bits_inj'. intros i Hi.
  destruct (Z.lt_ge_cases i (popcount m)) as [Hlow | Hhigh].
  - destruct (nth_set_bit_complete m (Z.to_nat i) ltac:(lia)) as [p Hsel].
    destruct (nth_set_bit_sound m _ p Hsel) as (Hp & Hbit & Hrk).
    rewrite Z2Nat.id in Hrk by exact Hi.
    pose proof (expand_bits m a p Hm ltac:(lia)) as Ea.
    pose proof (expand_bits m b p Hm ltac:(lia)) as Eb.
    rewrite Hbit, Hrk in Ea, Eb. cbn [andb] in Ea, Eb. congruence.
  - rewrite (testbit_above a (popcount m) i), (testbit_above b (popcount m) i)
      by lia. reflexivity.
Qed.

Variables k mx my mz mb : Z.
Hypothesis Hinv : bits_inv k mx my mz mb.

Lemma bits_inv_land_cover (a : Z) :
  (forall p, 0 <= p -> Z.testbit a p = true ->
             Z.testbit mx p || Z.testbit my p || Z.testbit mz p = true) ->
  0 <= a -> 0 <= a < 2 ^ k.
Proof.
  intros Hsub Ha. assert (Hk : 0 <= k) by (destruct Hinv; lia).
  replace a with (a mod 2 ^ k); [apply Z.mod_pos_bound, Z.pow_pos_nonneg; lia | ].
  rewrite <- Z.land_ones by exact Hk. apply Z.bits_inj'. intros p Hp.
  rewrite Z.land_spec, Z.testbit_ones_nonneg by lia.
  destruct (Z.testbit a p) eqn:Hbit; [ | reflexivity]. cbn [andb].
  destruct (bits_inv_bits _ _ _ _ _ Hinv p Hp) as (Hor & _).
  rewrite <- Hor. now apply Hsub.
Qed.

Lemma bits_inv_range :
  0 <= mx < 2 ^ 32 /\ 0 <= my < 2 ^ 32 /\ 0 <= mz < 2 ^ 32.
Proof.
  assert (Hk : 0 <= k <= 32) by (destruct Hinv; lia).
  assert (Hle : 2 ^ k <= 2 ^ 32) by (apply Z.pow_le_mono_r; lia).
  assert (Hnn : 0 <= Z.lor (Z.lor mx my) mz).
  { destruct Hinv as (_ & _ & -> & _).
    assert (0 < 2 ^ k) by (apply Z.pow_pos_nonneg; lia). lia. }
  apply Z.lor_nonneg in Hnn. destruct Hnn as [Hnn Hz].
  apply Z.lor_nonneg in Hnn. destruct Hnn as [Hx Hy].
  repeat split; try assumption.
  - enough (0 <= mx < 2 ^ k) by lia. apply bits_inv_land_cover; [ | exact Hx].
    intros p _ ->. reflexivity.
  - enough (0 <= my < 2 ^ k) by lia. apply bits_inv_land_cover; [ | exact Hy].
    intros p _ ->. now rewrite orb_true_r.
  - enough (0 <= mz < 2 ^ k) by lia. apply bits_inv_land_cover; [ | exact Hz].
    intros p _ ->. now rewrite orb_true_r.
Qed.

Lemma interleave_bits (x y z p : Z) :
  0 <= p ->
  Z.testbit (interleave mx my mz x y z) p
  = Z.testbit mx p && Z.testbit x (rank mx p)
    || Z.testbit my p && Z.testbit y (rank my p)
    || Z.testbit mz p && Z.testbit z (rank mz p).
Proof.
  intros Hp. destruct bits_inv_range as (Hx & Hy & Hz).
  unfold interleave. now rewrite !Z.lor_spec, !expand_bits by assumption.
Qed.

Lemma interleave_range (x y z : Z) :
  0 <= interleave mx my mz x y z < 2 ^ k.
Proof.
  destruct bits_inv_range as (Hx & Hy & Hz).
  apply bits_inv_land_cover.
  - intros p Hp. rewrite interleave_bits by exact Hp.
    destruct (Z.testbit mx p), (Z.testbit my p), (Z.testbit mz p);
      cbn [andb orb]; auto.
  - unfold interleave. rewrite !Z.lor_nonneg.
    repeat split; apply expand_nonneg; lia.
Qed.

(* Case analysis on the bits of the three masks at position [p], two of
   which cannot be set together. *)
Ltac by_mask_bits pos :=
  destruct (Z.testbit mx pos), (Z.testbit my pos), (Z.testbit mz pos);
  cbn [andb orb] in *; try discriminate;
  rewrite ?andb_true_r, ?andb_false_r, ?orb_false_r; reflexivity.

(* Each axis can be read back from the offset through its mask. *)
Lemma interleave_land_x (x y z : Z) :
  Z.land (interleave mx my mz x y z) mx
  = expand x (generate_expand_mask_moves mx).
Proof.
  destruct bits_inv_range as (Hx & Hy & Hz).
  apply Z.bits_inj'. intros p Hp.
  rewrite Z.land_spec, interleave_bits, expand_bits by assumption.
  destruct (bits_inv_bits _ _ _ _ _ Hinv p Hp) as (_ & Hxy & _ & Hxz).
  by_mask_bits p.
Qed.

Lemma interleave_land_y (x y z : Z) :
  Z.land (interleave mx my mz x y z) my
  = expand y (generate_expand_mask_moves my).
Proof.
  destruct bits_inv_range as (Hx & Hy & Hz).
  apply Z.bits_inj'. intros p Hp.
  rewrite Z.land_spec, interleave_bits, expand_bits by assumption.
  destruct (bits_inv_bits _ _ _ _ _ Hinv p Hp) as (_ & Hxy & Hyz & _).
  by_mask_bits p.
Qed.

Lemma interleave_land_z (x y z : Z) :
  Z.land (interleave mx my mz x y z) mz
  = expand z (generate_expand_mask_moves mz).
Proof.
  destruct bits_inv_range as (Hx & Hy & Hz).
  apply Z.bits_inj'. intros p Hp.
  rewrite Z.land_spec, interleave_bits, expand_bits by assumption.
  destruct (bits_inv_bits _ _ _ _ _ Hinv p Hp) as (_ & _ & Hyz & Hxz).
  by_mask_bits p.
Qed.

(* Coordinates that fit in the bits of their masks are determined by the
   offset. *)
Lemma interleave_inj (x y z x' y' z' : Z) :
  0 <= x < 2 ^ popcount mx -> 0 <= x' < 2 ^ popcount mx ->
  0 <= y < 2 ^ popcount my -> 0 <= y' < 2 ^ popcount my ->
  0 <= z < 2 ^ popcount mz -> 0 <= z' < 2 ^ popcount mz ->
  interleave mx my mz x y z = interleave mx my mz x' y' z' ->
  x = x' /\ y = y' /\ z = z'.
Proof.
  intros Hx Hx' Hy Hy' Hz Hz' Heq.
  destruct bits_inv_range as (Rx & Ry & Rz).
  repeat split.
  - apply (expand_inj mx); try assumption.
    pose proof (interleave_land_x x y z) as E1.
    pose proof (interleave_land_x x' y' z') as E2.
    rewrite Heq in E1. congruence.
  - apply (expand_inj my); try assumption.
    pose proof (interleave_land_y x y z) as E1.
    pose proof (interleave_land_y x' y' z') as E2.
    rewrite Heq in E1. congruence.
  - apply (expand_inj mz); try assumption.
    pose proof (interleave_land_z x y z) as E1.
    pose proof (interleave_land_z x' y' z') as E2.
    rewrite Heq in E1. congruence.
Qed.

End Interleave.

(** ** The coordinates of a box *)

Section Coordinates.

Lemma in_zrange (n i : Z) : In i (zrange n) <-> 0 <= i < n.
Proof.
  unfold zrange. rewrite in_map_iff. split.
  - intros (j & <- & Hj). apply in_seq in Hj. lia.
  - intros Hi. exists (Z.to_nat i). split; [lia | ]. apply in_seq. lia.
Qed.

Lemma NoDup_zrange (n : Z) : NoDup (zrange n).
Proof.
  unfold zrange. apply NoDup_map_NoDup_ForallPairs; [ | apply seq_NoDup].
  intros a b _ _ Heq. lia.
Qed.

Lemma length_zrange (n : Z) : length (zrange n) = Z.to_nat n.
Proof. unfold zrange. now rewrite length_map, length_seq. Qed.

Lemma NoDup_flat_map {A B : Type} (f : A -> list B) (l : list A) :
  NoDup l ->
  (forall a, In a l -> NoDup (f a)) ->
  (forall a a' b, In a l -> In a' l -> In b (f a) -> In b (f a') -> a = a') ->
  NoDup (flat_map f l).
Proof.
  induction 1 as [ | a l Hnotin Hnd IH]; intros Hf Hdisj; cbn [flat_map].
  - constructor.
  - apply NoDup_app.
    + apply Hf. now left.
    + apply IH.
      * intros a' Ha'. apply Hf. now right.
      * intros a1 a2 b H1 H2. apply Hdisj; now right.
    + intros b Hb Hb'. apply in_flat_map in Hb'. destruct Hb' as (a' & Ha' & Hb').
      apply Hnotin. rewrite (Hdisj a a' b); auto; [now left | now right].
Qed.

Lemma length_flat_map_const {A B : Type} (f : A -> list B) (l : list A) (n : nat) :
  (forall a, In a l -> length (f a) = n) ->
  length (flat_map f l) = (length l * n)%nat.
Proof.
  induction l as [ | a l IH]; intros Hf; [reflexivity | ].
  cbn [flat_map length]. rewrite length_app, Hf by (now left).
  rewrite IH by (intros a' Ha'; apply Hf; now right). lia.
Qed.

Variables width height depth : Z.

Lemma in_box_coords (x y z : Z) :
  In (x, y, z) (box_coords width height depth)
  <-> in_box width height depth x y z.
Proof.
  unfold box_coords, in_box. rewrite in_flat_map. split.
  - intros (z' & Hz & Hin). apply in_flat_map in Hin.
    destruct Hin as (y' & Hy & Hin). apply in_map_iff in Hin.
    destruct Hin as (x' & Heq & Hx). injection Heq as <- <- <-.
    apply in_zrange in Hx, Hy, Hz. auto.
  - intros (Hx & Hy & Hz). exists z. split; [now apply in_zrange | ].
    apply in_flat_map. exists y. split; [now apply in_zrange | ].
    apply in_map_iff. exists x. split; [reflexivity | now apply in_zrange].
Qed.

Lemma NoDup_box_coords : NoDup (box_coords width height depth).
Proof.
  unfold box_coords. apply NoDup_flat_map; [apply NoDup_zrange | | ].
  - intros z _. apply NoDup_flat_map; [apply NoDup_zrange | | ].
    + intros y _. apply NoDup_map_NoDup_ForallPairs; [ | apply NoDup_zrange].
      intros a b _ _ Heq. congruence.
    + intros y y' [[x0 y0] z0] _ _ H1 H2.
      apply in_map_iff in H1, H2.
      destruct H1 as (? & E1 & _), H2 as (? & E2 & _). congruence.
  - intros z z' [[x0 y0] z0] _ _ H1 H2.
    apply in_flat_map in H1, H2.
    destruct H1 as (? & _ & H1), H2 as (? & _ & H2).
    apply in_map_iff in H1, H2.
    destruct H1 as (? & E1 & _), H2 as (? & E2 & _). congruence.
Qed.

Lemma length_box_coords :
  0 <= width -> 0 <= height -> 0 <= depth ->
  Z.of_nat (length (box_coords width height depth)) = width * height * depth.
Proof.
  intros Hw Hh Hd. unfold box_coords.
  rewrite (length_flat_map_const _ _ (Z.to_nat height * Z.to_nat width)).
  - rewrite length_zrange. nia.
  - intros z _.
    rewrite (length_flat_map_const _ _ (Z.to_nat width)).
    + now rewrite length_zrange.
    + intros y _. now rewrite length_map, length_zrange.
Qed.

End Coordinates.

(** ** Counting: an injection into a range of the same size is onto *)

Lemma injection_onto {A : Type} (f : A -> Z) (l : list A) (n : Z) :
  NoDup l ->
  (forall a b, In a l -> In b l -> f a = f b -> a = b) ->
  (forall a, In a l -> 0 <= f a < n) ->
  n <= Z.of_nat (length l) ->
  forall o, 0 <= o < n -> exists a, In a l /\ f a = o.
Proof.
  intros Hnd Hinj Hrange Hlen o Ho.
  assert (Hin : In o (map f l)).
  { apply (@NoDup_length_incl Z (map f l) (zrange n)).
    - apply NoDup_map_NoDup_ForallPairs; [ | exact Hnd].
      intros a b Ha Hb. now apply Hinj.
    - rewrite length_zrange, length_map. lia.
    - intros v Hv. apply in_map_iff in Hv. destruct Hv as (a & <- & Ha).
      apply in_zrange. now apply Hrange.
    - now apply in_zrange. }
  apply in_map_iff in Hin. destruct Hin as (a & Ha & Hin). now exists a.
Qed.

(** ** The offset map of a box *)

Lemma dim_le_pow2 (a : Z) : 0 < a -> a <= 2 ^ Z.log2_up a.
Proof. intros Ha. apply Z.log2_up_le_pow2; lia. Qed.

Lemma count_post_injective (width height depth : Z) (s : masks_state) :
  0 < width -> 0 < height -> 0 < depth ->
  count_post width height depth s ->
  forall x y z x' y' z',
    in_box width height depth x y z -> in_box width height depth x' y' z' ->
    interleave (sx s) (sy s) (sz s) x y z
    = interleave (sx s) (sy s) (sz s) x' y' z' ->
    x = x' /\ y = y' /\ z = z'.
Proof.
  intros Hw Hh Hd (Hpx & Hpy & Hpz & Hinv) x y z x' y' z'
         (Hx & Hy & Hz) (Hx' & Hy' & Hz').
  pose proof (dim_le_pow2 width Hw). pose proof (dim_le_pow2 height Hh).
  pose proof (dim_le_pow2 depth Hd).
  apply (interleave_inj _ _ _ _ _ Hinv); rewrite ?Hpx, ?Hpy, ?Hpz; lia.
Qed.

(** C2, as the code has it.  For dimensions in [1, 2^31] whose address bits
    fit in 32 bits (the sum of the ceil(log2) of the three dimensions is at
    most 32), the offset map built from the generated masks is injective on
    the box and its image lies in [0, 2^bits); when the three dimensions are
    powers of two, 2^bits is width * height * depth and the image is exactly
    [0, width * height * depth). *)
Theorem offset_map_fit (fuel : nat) (width height depth : Z) :
  1 <= width <= 2 ^ 31 -> 1 <= height <= 2 ^ 31 -> 1 <= depth <= 2 ^ 31 ->
  Z.log2_up width + Z.log2_up height + Z.log2_up depth <= 32 ->
  (32 <= fuel)%nat ->
  exists mx my mz,
    generate_swizzle_masks fuel width height depth = Ret (mx, my, mz)
    /\ (forall x y z x' y' z',
          in_box width height depth x y z ->
          in_box width height depth x' y' z' ->
          interleave mx my mz x y z = interleave mx my mz x' y' z' ->
          x = x' /\ y = y' /\ z = z')
    /\ (forall x y z,
          in_box width height depth x y z ->
          0 <= interleave mx my mz x y z
          < 2 ^ (Z.log2_up width + Z.log2_up height + Z.log2_up depth))
    /\ (width = 2 ^ Z.log2_up width -> height = 2 ^ Z.log2_up height ->
        depth = 2 ^ Z.log2_up depth ->
        offset_bijection width height depth mx my mz).
Proof.
  intros Hw Hh Hd Hfit Hfuel.
  destruct (generate_swizzle_masks_shape width height depth
              ltac:(lia) ltac:(lia) ltac:(lia) Hfit fuel Hfuel)
    as (s & Hret & Hpost).
  exists (sx s), (sy s), (sz s). split; [exact Hret | ].
  pose proof (count_post_injective width height depth s
                ltac:(lia) ltac:(lia) ltac:(lia) Hpost) as Hinj.
  destruct Hpost as (Hpx & Hpy & Hpz & Hinv).
  pose proof (interleave_range _ _ _ _ _ Hinv) as Hrange.
  split; [exact Hinj | ]. split; [intros x y z _; apply Hrange | ].
  intros Ew Eh Ed.
  assert (Hsize : 2 ^ (Z.log2_up width + Z.log2_up height + Z.log2_up depth)
                  = width * height * depth).
  { pose proof (Z.log2_up_nonneg width). pose proof (Z.log2_up_nonneg height).
    pose proof (Z.log2_up_nonneg depth).
    rewrite !Z.pow_add_r by lia. congruence. }
  split; [exact Hinj | ]. intros o. split.
  - intros (x & y & z & _ & <-). rewrite <- Hsize. apply Hrange.
  - intros Ho.
    destruct (injection_onto
                (fun c : Z * Z * Z =>
                   let '(x, y, z) := c in interleave (sx s) (sy s) (sz s) x y z)
                (box_coords width height depth) (width * height * depth)
                (NoDup_box_coords width height depth)) with (o := o)
      as ([[x y] z] & Hin & Hoff).
    + intros [[x y] z] [[x' y'] z'] Hc Hc' Heq.
      apply in_box_coords in Hc, Hc'.
      destruct (Hinj _ _ _ _ _ _ Hc Hc' Heq) as (-> & -> & ->). reflexivity.
    + intros [[x y] z] _. rewrite <- Hsize. apply Hrange.
    + rewrite length_box_coords by lia. lia.
    + exact Ho.
    + exists x, y, z. split; [now apply in_box_coords | exact Hoff].
Qed.

Lemma offset_map_fit_witness :
  exists mx my mz,
    generate_swizzle_masks 32 4 4 2 = Ret (mx, my, mz)
    /\ offset_bijection 4 4 2 mx my mz.
Proof.
  destruct (offset_map_fit 32 4 4 2) as (mx & my & mz & Hret & _ & _ & Hbij).
  - lia.
  - lia.
  - lia.
  - vm_compute. discriminate.
  - lia.
  - exists mx, my, mz. split; [exact Hret | ].
    apply Hbij; reflexivity.
Defined.

(** C2 as stated fails when a dimension is not a power of two: for
    width = 3, height = 2, depth = 1 the masks are 5, 2, 0 and the pixel
    (2, 1, 0) has offset 6, outside [0, 3 * 2 * 1). *)
Lemma offset_bijection_fails :
  generate_swizzle_masks 32 3 2 1 = Ret (5, 2, 0)
  /\ ~ offset_bijection 3 2 1 5 2 0.
Proof.
  split; [reflexivity | ]. intros [_ Himage].
  assert (Hin : 0 <= 6 < 3 * 2 * 1); [ | lia].
  apply Himage. exists 2, 1, 0. split; [unfold in_box; lia | reflexivity].
Qed.

(** ** Loop nests as folds over the coordinates *)

Section Folds.

Context {A St : Type}.

Lemma bind_assoc {X Y W : Type} (r : result X) (f : X -> result Y)
      (g : Y -> result W) :
  bind (bind r f) g = bind r (fun a => bind (f a) g).
Proof. now destruct r. Qed.

Lemma bind_ret_r {X : Type} (r : result X) : bind r Ret = r.
Proof. now destruct r. Qed.

Lemma bind_ext {X Y : Type} (r : result X) (f g : X -> result Y) :
  (forall a, f a = g a) -> bind r f = bind r g.
Proof. intros Hfg. destruct r; cbn [bind]; auto. Qed.

Lemma fold_result_app (f : A -> St -> result St) (l1 l2 : list A) (s : St) :
  fold_result f (l1 ++ l2) s = (s' <- fold_result f l1 s ;; fold_result f l2 s').
Proof.
  revert s. induction l1 as [ | a l1 IH]; intros s; [reflexivity | ].
  cbn [app fold_result]. rewrite bind_assoc. apply bind_ext. exact IH.
Qed.

Lemma fold_result_ext (f g : A -> St -> result St) (l : list A) (s : St) :
  (forall a t, In a l -> f a t = g a t) ->
  fold_result f l s = fold_result g l s.
Proof.
  revert s. induction l as [ | a l IH]; intros s Hfg; [reflexivity | ].
  cbn [fold_result]. rewrite (Hfg a s) by (now left).
  apply bind_ext. intros s'. apply IH. intros b t Hb. apply Hfg. now right.
Qed.

Lemma fold_result_map {B : Type} (f : A -> St -> result St) (g : B -> A)
      (l : list B) (s : St) :
  fold_result f (map g l) s = fold_result (fun b => f (g b)) l s.
Proof.
  revert s. induction l as [ | b l IH]; intros s; [reflexivity | ].
  cbn [map fold_result]. apply bind_ext. exact IH.
Qed.

Lemma fold_result_flat_map {B : Type} (f : A -> St -> result St)
      (g : B -> list A) (l : list B) (s : St) :
  fold_result f (flat_map g l) s
  = fold_result (fun b => fold_result f (g b)) l s.
Proof.
  revert s. induction l as [ | b l IH]; intros s; [reflexivity | ].
  cbn [flat_map fold_result]. rewrite fold_result_app.
  apply bind_ext. exact IH.
Qed.

End Folds.

Section LoopNest.

Context {St : Type}.

Lemma for_loop_seq (n : nat) :
  forall (k : nat) (body : Z -> St -> result St) (s : St),
    for_loop n (Z.of_nat k) body s
    = fold_result body (map Z.of_nat (seq k n)) s.
Proof.
  induction n as [ | n IH]; intros k body s; [reflexivity | ].
  cbn [for_loop seq map fold_result]. apply bind_ext. intros s'.
  replace (Z.of_nat k + 1) with (Z.of_nat (S k)) by lia. apply IH.
Qed.

Lemma for_loop_zrange (bound : Z) (body : Z -> St -> result St) (s : St) :
  for_loop (Z.to_nat bound) 0 body s = fold_result body (zrange bound) s.
Proof. apply (for_loop_seq (Z.to_nat bound) 0). Qed.

(* A loop that carries, next to its state, an offset advanced by [step] at
   the end of every iteration: iteration [z] sees the offset
   off + (z - first) * step. *)
Lemma for_loop_offset (inner : Z -> Z -> St -> result St) (step : Z) (n : nat) :
  forall (i : Z) (s : St) (off : Z),
    for_loop n i
      (fun z (st : St * Z) =>
         let '(s0, o) := st in
         s1 <- inner z o s0 ;; Ret (s1, o + step))
      (s, off)
    = (r <- for_loop n i (fun z s0 => inner z (off + (z - i) * step) s0) s ;;
       Ret (r, off + Z.of_nat n * step)).
Proof.
  induction n as [ | n IH]; intros i s off.
  - cbn [for_loop bind]. f_equal. f_equal. lia.
  - cbn [for_loop]. rewrite !bind_assoc.
    replace (off + (i - i) * step) with off by lia.
    apply bind_ext. intros s1. cbn [bind]. rewrite IH.
    replace (off + step + Z.of_nat n * step)
      with (off + Z.of_nat (S n) * step) by lia.
    f_equal. apply for_loop_ext. intros j t Hj. f_equal. lia.
Qed.

End LoopNest.

(** ** The box copies, coordinate by coordinate *)

Section BoxFold.

Variables (fuel : nat) (src_buf : buffer) (width height depth : Z).
Variables (dst_buf : buffer) (row_pitch slice_pitch bytes_per_pixel : Z).

Lemma swizzle_box_fold :
  swizzle_box fuel src_buf width height depth dst_buf
              row_pitch slice_pitch bytes_per_pixel
  = (m <- generate_swizzle_masks fuel width height depth ;;
     let '(mx, my, mz) := m in
     fold_result
       (copy_in src_buf mx my mz row_pitch slice_pitch bytes_per_pixel)
       (box_coords width height depth) dst_buf).
Proof.
  unfold swizzle_box. apply bind_ext. intros [[mx my] mz].
  rewrite for_loop_offset, bind_assoc. cbn [bind fst].
  rewrite bind_ret_r, for_loop_zrange.
  unfold box_coords. rewrite fold_result_flat_map.
  apply fold_result_ext. intros z s _.
  rewrite for_loop_zrange, fold_result_flat_map.
  apply fold_result_ext. intros y s' _.
  rewrite for_loop_zrange, fold_result_map.
  apply fold_result_ext. intros x s'' _.
  unfold copy_in, linear_offset, swizzled_offset, get_swizzled_offset, interleave.
  do 2 f_equal. lia.
Qed.

Lemma unswizzle_box_fold :
  unswizzle_box fuel src_buf width height depth dst_buf
                row_pitch slice_pitch bytes_per_pixel
  = (m <- generate_swizzle_masks fuel width height depth ;;
     let '(mx, my, mz) := m in
     fold_result
       (copy_out src_buf mx my mz row_pitch slice_pitch bytes_per_pixel)
       (box_coords width height depth) dst_buf).
Proof.
  unfold unswizzle_box. apply bind_ext. intros [[mx my] mz].
  rewrite for_loop_offset, bind_assoc. cbn [bind fst].
  rewrite bind_ret_r, for_loop_zrange.
  unfold box_coords. rewrite fold_result_flat_map.
  apply fold_result_ext. intros z s _.
  rewrite for_loop_zrange, fold_result_flat_map.
  apply fold_result_ext. intros y s' _.
  rewrite for_loop_zrange, fold_result_map.
  apply fold_result_ext. intros x s'' _.
  unfold copy_out, linear_offset, swizzled_offset, get_swizzled_offset, interleave.
  f_equal. lia.
Qed.

End BoxFold.


(** C7. The 2D wrappers are the box operations with depth = 1 and
    slice_pitch = 0, for all arguments and buffers. *)
Theorem rect_is_box (fuel : nat) (src_buf dst_buf : buffer)
        (width height pitch bytes_per_pixel : Z) :
  swizzle_rect fuel src_buf width height dst_buf pitch bytes_per_pixel
  = swizzle_box fuel src_buf width height 1 dst_buf pitch 0 bytes_per_pixel
  /\ unswizzle_rect fuel src_buf width height dst_buf pitch bytes_per_pixel
     = unswizzle_box fuel src_buf width height 1 dst_buf pitch 0
                     bytes_per_pixel.
Proof. split; reflexivity. Qed.

(** C10. With depth = 1 the outcome of [swizzle_box] and of [unswizzle_box]
    does not depend on slice_pitch. *)
Theorem depth_one_ignores_slice_pitch (fuel : nat) (src_buf dst_buf : buffer)
        (width height row_pitch s1 s2 bytes_per_pixel : Z) :
  swizzle_box fuel src_buf width height 1 dst_buf row_pitch s1 bytes_per_pixel
  = swizzle_box fuel src_buf width height 1 dst_buf row_pitch s2 bytes_per_pixel
  /\ unswizzle_box fuel src_buf width height 1 dst_buf row_pitch s1
                   bytes_per_pixel
     = unswizzle_box fuel src_buf width height 1 dst_buf row_pitch s2
                     bytes_per_pixel.
Proof.
  rewrite !swizzle_box_fold, !unswizzle_box_fold.
  split; apply bind_ext; intros [[mx my] mz]; apply fold_result_ext;
    intros [[x y] z] dst Hin; apply in_box_coords in Hin;
    destruct Hin as (_ & _ & Hz); assert (z = 0) by lia; subst z;
    unfold copy_in, copy_out, linear_offset; now rewrite !Z.mul_0_l.
Qed.

(** ** Termination *)

Section Termination.

Lemma memcpy_outcome (dst : buffer) (d : Z) (src : buffer) (s n : Z) :
  (exists b, memcpy dst d src s n = Ret b) \/ memcpy dst d src s n = Fault.
Proof. unfold memcpy. destruct (_ && _); [left; eauto | now right]. Qed.

Lemma fold_result_no_timeout {A St : Type} (f : A -> St -> result St)
      (l : list A) :
  (forall a s, f a s <> Timeout) -> forall s, fold_result f l s <> Timeout.
Proof.
  intros Hf. induction l as [ | a l IH]; intros s; [discriminate | ].
  cbn [fold_result]. pose proof (Hf a s) as Ha.
  destruct (f a s); cbn [bind]; try discriminate; [apply IH | congruence].
Qed.

Lemma fold_result_no_abort {A St : Type} (f : A -> St -> result St)
      (l : list A) :
  (forall a s, f a s <> Abort) -> forall s, fold_result f l s <> Abort.
Proof.
  intros Hf. induction l as [ | a l IH]; intros s; [discriminate | ].
  cbn [fold_result]. pose proof (Hf a s) as Ha.
  destruct (f a s); cbn [bind]; try discriminate; [apply IH | congruence].
Qed.

Variables (fuel : nat) (width height depth : Z).
Hypothesis Hwidth : width <= 2 ^ 31.
Hypothesis Hheight : height <= 2 ^ 31.
Hypothesis Hdepth : depth <= 2 ^ 31.
Hypothesis Hfuel : (32 <= fuel)%nat.

Lemma swizzle_box_finishes (src_buf dst_buf : buffer)
      (row_pitch slice_pitch bytes_per_pixel : Z) :
  swizzle_box fuel src_buf width height depth dst_buf
              row_pitch slice_pitch bytes_per_pixel <> Timeout
  /\ swizzle_box fuel src_buf width height depth dst_buf
                 row_pitch slice_pitch bytes_per_pixel <> Abort.
Proof.
  rewrite swizzle_box_fold.
  destruct (generate_swizzle_masks_returns width height depth fuel
              Hwidth Hheight Hdepth Hfuel) as (s & _ & _ & ->).
  cbn [bind].
  split; [apply fold_result_no_timeout | apply fold_result_no_abort];
    intros [[x y] z] dst; unfold copy_in;
    destruct (memcpy_outcome dst (swizzled_offset (sx s) (sy s) (sz s)
                                    bytes_per_pixel x y z)
                src_buf (linear_offset row_pitch slice_pitch
                           bytes_per_pixel x y z) bytes_per_pixel)
      as [[b ->] | ->]; discriminate.
Qed.

Lemma unswizzle_box_finishes (src_buf dst_buf : buffer)
      (row_pitch slice_pitch bytes_per_pixel : Z) :
  unswizzle_box fuel src_buf width height depth dst_buf
                row_pitch slice_pitch bytes_per_pixel <> Timeout
  /\ unswizzle_box fuel src_buf width height depth dst_buf
                   row_pitch slice_pitch bytes_per_pixel <> Abort.
Proof.
  rewrite unswizzle_box_fold.
  destruct (generate_swizzle_masks_returns width height depth fuel
              Hwidth Hheight Hdepth Hfuel) as (s & _ & _ & ->).
  cbn [bind].
  split; [apply fold_result_no_timeout | apply fold_result_no_abort];
    intros [[x y] z] dst; unfold copy_out;
    destruct (memcpy_outcome dst (linear_offset row_pitch slice_pitch
                                    bytes_per_pixel x y z)
                src_buf (swizzled_offset (sx s) (sy s) (sz s)
                           bytes_per_pixel x y z) bytes_per_pixel)
      as [[b ->] | ->]; discriminate.
Qed.

End Termination.

(** C6, as the code has it.  With every dimension in [1, 2^31], 32 rounds
    are enough for the generator loop: [generate_swizzle_masks] returns its
    masks, and [swizzle_box], [unswizzle_box] and the two rect wrappers
    finish (they neither run out of rounds nor trip the assertion), for all
    buffers, pitches and pixel sizes.  The table construction and [expand]
    are loops of exactly five stages. *)
Theorem operations_terminate (fuel : nat) (width height depth : Z)
        (src_buf dst_buf : buffer)
        (row_pitch slice_pitch bytes_per_pixel : Z) :
  1 <= width <= 2 ^ 31 -> 1 <= height <= 2 ^ 31 -> 1 <= depth <= 2 ^ 31 ->
  (32 <= fuel)%nat ->
  (exists m, generate_swizzle_masks fuel width height depth = Ret m)
  /\ (forall m, length (moves (generate_expand_mask_moves m)) = 5%nat)
  /\ swizzle_box fuel src_buf width height depth dst_buf
                 row_pitch slice_pitch bytes_per_pixel <> Timeout
  /\ swizzle_box fuel src_buf width height depth dst_buf
                 row_pitch slice_pitch bytes_per_pixel <> Abort
  /\ unswizzle_box fuel src_buf width height depth dst_buf
                   row_pitch slice_pitch bytes_per_pixel <> Timeout
  /\ unswizzle_box fuel src_buf width height depth dst_buf
                   row_pitch slice_pitch bytes_per_pixel <> Abort
  /\ swizzle_rect fuel src_buf width height dst_buf
                  row_pitch bytes_per_pixel <> Timeout
  /\ swizzle_rect fuel src_buf width height dst_buf
                  row_pitch bytes_per_pixel <> Abort
  /\ unswizzle_rect fuel src_buf width height dst_buf
                    row_pitch bytes_per_pixel <> Timeout
  /\ unswizzle_rect fuel src_buf width height dst_buf
                    row_pitch bytes_per_pixel <> Abort.
Proof.
  intros Hw Hh Hd Hfuel.
  split.
  { destruct (generate_swizzle_masks_returns width height depth fuel
                ltac:(lia) ltac:(lia) ltac:(lia) Hfuel) as (s & _ & _ & Hret).
    now exists (sx s, sy s, sz s). }
  split; [reflexivity | ].
  pose proof (swizzle_box_finishes fuel width height depth
                ltac:(lia) ltac:(lia) ltac:(lia) Hfuel src_buf dst_buf
                row_pitch slice_pitch bytes_per_pixel) as [Hs1 Hs2].
  pose proof (unswizzle_box_finishes fuel width height depth
                ltac:(lia) ltac:(lia) ltac:(lia) Hfuel src_buf dst_buf
                row_pitch slice_pitch bytes_per_pixel) as [Hu1 Hu2].
  pose proof (swizzle_box_finishes fuel width height 1
                ltac:(lia) ltac:(lia) ltac:(lia) Hfuel src_buf dst_buf
                row_pitch 0 bytes_per_pixel) as [Hr1 Hr2].
  pose proof (unswizzle_box_finishes fuel width height 1
                ltac:(lia) ltac:(lia) ltac:(lia) Hfuel src_buf dst_buf
                row_pitch 0 bytes_per_pixel) as [Hr3 Hr4].
  unfold swizzle_rect, unswizzle_rect. auto 12.
Qed.

Lemma operations_terminate_witness :
  exists m, generate_swizzle_masks 32 3 2 1 = Ret m.
Proof.
  exact (proj1 (operations_terminate 32 3 2 1 [] [] 3 6 1
                  ltac:(lia) ltac:(lia) ltac:(lia) ltac:(lia))).
Defined.

(** C6 as stated fails: a width above 2^31 is a valid unsigned dimension,
    and for it the generator loop never exits ([bit] wraps to 0 and stays
    below the width), whatever the number of rounds allowed. *)
Lemma generator_diverges :
  ~ (exists fuel m, generate_swizzle_masks fuel (2 ^ 31 + 1) 1 1 = Ret m).
Proof.
  intros (fuel & m & Hret). unfold generate_swizzle_masks in Hret.
  rewrite masks_loop_diverges in Hret by lia. discriminate.
Qed.

(** ** memcpy on buffers *)

Section Memcpy.

Lemma byte_at_ext (a b : buffer) :
  buf_len a = buf_len b ->
  (forall i, 0 <= i < buf_len a -> byte_at a i = byte_at b i) ->
  a = b.
Proof.
  unfold buf_len, byte_at. intros Hlen Hnth.
  apply (nth_ext a b x00 x00); [lia | ].
  intros n Hn. specialize (Hnth (Z.of_nat n) ltac:(lia)).
  now rewrite Nat2Z.id in Hnth.
Qed.

Lemma memcpy_spec (dst : buffer) (d : Z) (src : buffer) (s n : Z) :
  0 <= n -> 0 <= d -> d + n <= buf_len dst ->
  0 <= s -> s + n <= buf_len src ->
  exists b,
    memcpy dst d src s n = Ret b
    /\ buf_len b = buf_len dst
    /\ (forall i, 0 <= i ->
          byte_at b i = if (d <=? i) && (i <? d + n)
                        then byte_at src (s + (i - d))
                        else byte_at dst i).
Proof.
  intros Hn Hd Hdn Hs Hsn. unfold memcpy, buf_len in *.
  replace ((0 <=? n) && (0 <=? d) && (d + n <=? Z.of_nat (length dst))
           && (0 <=? s) && (s + n <=? Z.of_nat (length src))) with true.
  2:{ symmetry. rewrite !andb_true_iff, !Z.leb_le. lia. }
  eexists. split; [reflexivity | ].
  assert (Hl1 : length (firstn (Z.to_nat d) dst) = Z.to_nat d).
  { rewrite length_firstn. lia. }
  assert (Hl2 : length (firstn (Z.to_nat n) (skipn (Z.to_nat s) src))
                = Z.to_nat n).
  { rewrite length_firstn, length_skipn. lia. }
  split.
  - rewrite !length_app, Hl1, Hl2, length_skipn. lia.
  - intros i Hi. unfold byte_at.
    destruct (Z.leb_spec d i) as [Hdi | Hdi]; cbn [andb].
    + rewrite app_nth2 by lia. rewrite Hl1.
      destruct (Z.ltb_spec i (d + n)) as [Hin | Hin].
      * rewrite app_nth1 by lia.
        rewrite nth_firstn.
        replace (Z.to_nat i - Z.to_nat d <? Z.to_nat n)%nat with true
          by (symmetry; apply Nat.ltb_lt; lia).
        rewrite nth_skipn. f_equal. lia.
      * rewrite app_nth2 by lia. rewrite Hl2, nth_skipn. f_equal. lia.
    + rewrite app_nth1 by lia. rewrite nth_firstn.
      replace (Z.to_nat i <? Z.to_nat d)%nat with true
        by (symmetry; apply Nat.ltb_lt; lia).
      reflexivity.
Qed.

End Memcpy.

(** ** A run of copies to pairwise disjoint destinations *)

Section CopyRun.

Context {A : Type}.
Variables (D S : A -> Z) (n : Z) (src : buffer).
Hypothesis Hn : 0 <= n.

Lemma copy_run (l : list A) :
  NoDup l ->
  forall dst,
    (forall c, In c l ->
       0 <= D c /\ D c + n <= buf_len dst /\ 0 <= S c /\ S c + n <= buf_len src) ->
    (forall c c' j j', In c l -> In c' l -> 0 <= j < n -> 0 <= j' < n ->
       D c + j = D c' + j' -> c = c') ->
    exists b,
      fold_result (fun c dst => memcpy dst (D c) src (S c) n) l dst = Ret b
      /\ buf_len b = buf_len dst
      /\ (forall c j, In c l -> 0 <= j < n ->
            byte_at b (D c + j) = byte_at src (S c + j))
      /\ (forall i, 0 <= i ->
            (forall c, In c l -> ~ (D c <= i < D c + n)) ->
            byte_at b i = byte_at dst i).
Proof.
  induction 1 as [ | a l Hnotin Hnd IH]; intros dst Hbounds Hdisj.
  - exists dst. cbn [fold_result]. repeat split; auto. intros c j [].
  - destruct (Hbounds a (or_introl eq_refl)) as (Hd0 & Hd1 & Hs0 & Hs1).
    destruct (memcpy_spec dst (D a) src (S a) n Hn Hd0 Hd1 Hs0 Hs1)
      as (b1 & Hcopy & Hlen1 & Hbytes1).
    destruct (IH b1) as (b & Hrun & Hlen & Hin & Hout).
    { intros c Hc. rewrite Hlen1. apply Hbounds. now right. }
    { intros c c' j j' Hc Hc'. apply Hdisj; now right. }
    exists b. cbn [fold_result]. rewrite Hcopy. cbn [bind].
    split; [exact Hrun | ]. split; [lia | ]. split.
    + intros c j [<- | Hc] Hj.
      * rewrite Hout.
        -- rewrite Hbytes1 by lia.
           replace ((D a <=? D a + j) && (D a + j <? D a + n)) with true.
           ++ f_equal. lia.
           ++ symmetry. rewrite andb_true_iff, Z.leb_le, Z.ltb_lt. lia.
        -- lia.
        -- intros c' Hc' Hrange. apply Hnotin.
           rewrite (Hdisj a c' j (D a + j - D c')); auto; try lia.
           ++ now left.
           ++ now right.
      * now apply Hin.
    + intros i Hi Hfree. rewrite Hout.
      * rewrite Hbytes1 by exact Hi.
        replace ((D a <=? i) && (i <? D a + n)) with false; [reflexivity | ].
        symmetry. apply andb_false_iff. rewrite Z.leb_gt, Z.ltb_ge.
        specialize (Hfree a (or_introl eq_refl)). lia.
      * exact Hi.
      * intros c Hc. apply Hfree. now right.
Qed.

End CopyRun.

(** ** The tightly packed linear layout *)

Section TightLayout.

Variables width height depth bpp : Z.
Hypothesis Hwidth : 0 < width.
Hypothesis Hheight : 0 < height.
Hypothesis Hdepth : 0 < depth.
Hypothesis Hbpp : 0 < bpp.

Lemma pixel_index_range (c : Z * Z * Z) :
  In c (box_coords width height depth) ->
  0 <= pixel_index width height c < width * height * depth.
Proof.
  destruct c as [[x y] z]. rewrite in_box_coords.
  intros (Hx & Hy & Hz). unfold pixel_index.
  assert (0 <= z * height + y < height * depth) by nia.
  nia.
Qed.

Lemma pixel_index_inj (c c' : Z * Z * Z) :
  In c (box_coords width height depth) ->
  In c' (box_coords width height depth) ->
  pixel_index width height c = pixel_index width height c' -> c = c'.
Proof.
  destruct c as [[x y] z], c' as [[x' y'] z']. rewrite !in_box_coords.
  intros (Hx & Hy & Hz) (Hx' & Hy' & Hz'). unfold pixel_index. intros Heq.
  destruct (Z.div_mod_unique width (z * height + y) (z' * height + y') x x')
    as [Hq ->]; [lia | lia | lia | ].
  destruct (Z.div_mod_unique height z z' y y') as [-> ->]; [lia | lia | lia | ].
  reflexivity.
Qed.

Lemma pixel_index_onto (p : Z) :
  0 <= p < width * height * depth ->
  exists c, In c (box_coords width height depth)
            /\ pixel_index width height c = p.
Proof.
  intros Hp.
  exists (p mod width, (p / width) mod height, p / width / height).
  pose proof (Z.mod_pos_bound p width Hwidth).
  pose proof (Z.mod_pos_bound (p / width) height Hheight).
  pose proof (Z.div_mod p width ltac:(lia)) as E1.
  pose proof (Z.div_mod (p / width) height ltac:(lia)) as E2.
  assert (0 <= p / width) by (apply Z.div_pos; lia).
  assert (0 <= p / width / height) by (apply Z.div_pos; lia).
  assert (p / width < height * depth).
  { apply Z.div_lt_upper_bound; [lia | ]. nia. }
  assert (p / width / height < depth).
  { apply Z.div_lt_upper_bound; [lia | ]. nia. }
  split.
  - apply in_box_coords. unfold in_box. lia.
  - unfold pixel_index. nia.
Qed.

(* Distinct pixels occupy disjoint runs of [bpp] bytes. *)
Lemma pixel_bytes_disjoint (p p' j j' : Z) :
  0 <= j < bpp -> 0 <= j' < bpp -> p * bpp + j = p' * bpp + j' -> p = p'.
Proof.
  intros Hj Hj' Heq.
  destruct (Z.div_mod_unique bpp p p' j j') as [-> _]; lia.
Qed.

End TightLayout.

(** ** The round trip *)

Section RoundTrip.

Variables width height depth bpp : Z.
Hypothesis Hwidth : 1 <= width <= 2 ^ 31.
Hypothesis Hheight : 1 <= height <= 2 ^ 31.
Hypothesis Hdepth : 1 <= depth <= 2 ^ 31.
Hypothesis Hbpp : 1 <= bpp.

Hypothesis Hfit :
  Z.log2_up width + Z.log2_up height + Z.log2_up depth <= 32.
Hypothesis Hsize :
  bpp * 2 ^ (Z.log2_up width + Z.log2_up height + Z.log2_up depth) < 2 ^ 32.

Variable s : masks_state.
Hypothesis Hpost : count_post width height depth s.

Lemma box_le_pow2 :
  width * height * depth
  <= 2 ^ (Z.log2_up width + Z.log2_up height + Z.log2_up depth).
Proof.
  pose proof (dim_le_pow2 width ltac:(lia)) as Hw.
  pose proof (dim_le_pow2 height ltac:(lia)) as Hh.
  pose proof (dim_le_pow2 depth ltac:(lia)) as Hd.
  pose proof (Z.log2_up_nonneg width). pose proof (Z.log2_up_nonneg height).
  pose proof (Z.log2_up_nonneg depth).
  rewrite !Z.pow_add_r by lia.
  assert (width * height <= 2 ^ Z.log2_up width * 2 ^ Z.log2_up height) by nia.
  nia.
Qed.

Lemma copy_in_eq (src : buffer) (c : Z * Z * Z) (dst : buffer) :
  copy_in src (sx s) (sy s) (sz s) (width * bpp) (height * (width * bpp)) bpp
          c dst
  = memcpy dst (swz_of (sx s) (sy s) (sz s) bpp c)
           src (lin_of (width * bpp) (height * (width * bpp)) bpp c) bpp.
Proof. now destruct c as [[x y] z]. Qed.

Lemma copy_out_eq (src : buffer) (c : Z * Z * Z) (dst : buffer) :
  copy_out src (sx s) (sy s) (sz s) (width * bpp) (height * (width * bpp)) bpp
           c dst
  = memcpy dst (lin_of (width * bpp) (height * (width * bpp)) bpp c)
           src (swz_of (sx s) (sy s) (sz s) bpp c) bpp.
Proof. now destruct c as [[x y] z]. Qed.

(* In the tight layout no product of the linear address wraps. *)
Lemma lin_of_tight (c : Z * Z * Z) :
  In c (box_coords width height depth) ->
  lin_of (width * bpp) (height * (width * bpp)) bpp c
  = pixel_index width height c * bpp.
Proof.
  intros Hc. pose proof box_le_pow2 as Hbox.
  pose proof (pixel_index_range width height depth
                ltac:(lia) ltac:(lia) c Hc) as Hpix.
  destruct c as [[x y] z]. apply in_box_coords in Hc.
  destruct Hc as (Hx & Hy & Hz).
  unfold lin_of, linear_offset, pixel_index in *.
  assert (Hwhd : width * height * depth * bpp < 2 ^ 32).
  { assert (width * height * depth * bpp
            <= 2 ^ (Z.log2_up width + Z.log2_up height + Z.log2_up depth) * bpp)
      by (apply Z.mul_le_mono_nonneg_r; lia).
    lia. }
  assert (Hrow : 0 <= y * (width * bpp) < 2 ^ 32).
  { assert (0 <= y * width < width * height * depth) by nia. nia. }
  assert (Hcol : 0 <= x * bpp < 2 ^ 32).
  { assert (0 <= x < width * height * depth) by nia. nia. }
  rewrite !u32_small by assumption. lia.
Qed.

(* Nor does the swizzled offset. *)
Lemma swz_of_fit (c : Z * Z * Z) :
  exists o, swz_of (sx s) (sy s) (sz s) bpp c = bpp * o
            /\ 0 <= o
               < 2 ^ (Z.log2_up width + Z.log2_up height + Z.log2_up depth)
            /\ o = (let '(x, y, z) := c in
                    interleave (sx s) (sy s) (sz s) x y z).
Proof.
  destruct c as [[x y] z]. destruct Hpost as (_ & _ & _ & Hinv).
  pose proof (interleave_range _ _ _ _ _ Hinv x y z) as Hr.
  exists (interleave (sx s) (sy s) (sz s) x y z).
  split; [ | auto]. unfold swz_of, swizzled_offset. apply u32_small. nia.
Qed.

Lemma swz_of_disjoint (c c' : Z * Z * Z) (j j' : Z) :
  In c (box_coords width height depth) ->
  In c' (box_coords width height depth) ->
  0 <= j < bpp -> 0 <= j' < bpp ->
  swz_of (sx s) (sy s) (sz s) bpp c + j
  = swz_of (sx s) (sy s) (sz s) bpp c' + j' ->
  c = c'.
Proof.
  intros Hc Hc' Hj Hj' Heq.
  destruct (swz_of_fit c) as (o & Eo & _ & Ho).
  destruct (swz_of_fit c') as (o' & Eo' & _ & Ho').
  rewrite Eo, Eo' in Heq.
  assert (o = o').
  { apply (pixel_bytes_disjoint bpp o o' j j'); lia. }
  destruct c as [[x y] z], c' as [[x' y'] z'].
  apply in_box_coords in Hc, Hc'.
  destruct (count_post_injective width height depth s
              ltac:(lia) ltac:(lia) ltac:(lia) Hpost
              x y z x' y' z' Hc Hc') as (-> & -> & ->); congruence.
Qed.

Lemma lin_of_disjoint (c c' : Z * Z * Z) (j j' : Z) :
  In c (box_coords width height depth) ->
  In c' (box_coords width height depth) ->
  0 <= j < bpp -> 0 <= j' < bpp ->
  lin_of (width * bpp) (height * (width * bpp)) bpp c + j
  = lin_of (width * bpp) (height * (width * bpp)) bpp c' + j' ->
  c = c'.
Proof.
  intros Hc Hc' Hj Hj' Heq. rewrite !lin_of_tight in Heq by assumption.
  apply (pixel_index_inj width height depth); try assumption.
  apply (pixel_bytes_disjoint bpp _ _ j j'); lia.
Qed.

Variables B S0 L0 : buffer.
Hypothesis HB : buf_len B = width * height * depth * bpp.
Hypothesis HL0 : buf_len L0 = width * height * depth * bpp.
Hypothesis HS0 :
  bpp * 2 ^ (Z.log2_up width + Z.log2_up height + Z.log2_up depth) <= buf_len S0.

Lemma lin_of_bounds (c : Z * Z * Z) :
  In c (box_coords width height depth) ->
  0 <= lin_of (width * bpp) (height * (width * bpp)) bpp c
  /\ lin_of (width * bpp) (height * (width * bpp)) bpp c + bpp
     <= width * height * depth * bpp.
Proof.
  intros Hc. rewrite lin_of_tight by exact Hc.
  pose proof (pixel_index_range width height depth
                ltac:(lia) ltac:(lia) c Hc). nia.
Qed.

Lemma swz_of_bounds (c : Z * Z * Z) :
  0 <= swz_of (sx s) (sy s) (sz s) bpp c
  /\ swz_of (sx s) (sy s) (sz s) bpp c + bpp
     <= bpp * 2 ^ (Z.log2_up width + Z.log2_up height + Z.log2_up depth).
Proof. destruct (swz_of_fit c) as (o & -> & Ho & _). nia. Qed.

Lemma round_trip_masks :
  exists S1,
    fold_result (copy_in B (sx s) (sy s) (sz s)
                   (width * bpp) (height * (width * bpp)) bpp)
                (box_coords width height depth) S0 = Ret S1
    /\ fold_result (copy_out S1 (sx s) (sy s) (sz s)
                      (width * bpp) (height * (width * bpp)) bpp)
                   (box_coords width height depth) L0 = Ret B.
Proof.
  (* linear to swizzled *)
  destruct (copy_run (swz_of (sx s) (sy s) (sz s) bpp)
              (lin_of (width * bpp) (height * (width * bpp)) bpp) bpp B
              ltac:(lia)
              (box_coords width height depth)
              (NoDup_box_coords width height depth) S0)
    as (S1 & Hrun1 & Hlen1 & Hin1 & _).
  { intros c Hc. pose proof (swz_of_bounds c). pose proof (lin_of_bounds c Hc).
    lia. }
  { intros c c' j j' Hc Hc' Hj Hj'. now apply swz_of_disjoint. }
  (* swizzled to linear *)
  destruct (copy_run (lin_of (width * bpp) (height * (width * bpp)) bpp)
              (swz_of (sx s) (sy s) (sz s) bpp) bpp S1 ltac:(lia)
              (box_coords width height depth)
              (NoDup_box_coords width height depth) L0)
    as (L1 & Hrun2 & Hlen2 & Hin2 & _).
  { intros c Hc. pose proof (swz_of_bounds c). pose proof (lin_of_bounds c Hc).
    lia. }
  { intros c c' j j' Hc Hc' Hj Hj'. now apply lin_of_disjoint. }
  exists S1. split.
  - rewrite <- Hrun1. apply fold_result_ext. intros c t _. apply copy_in_eq.
  - replace B with L1.
    + rewrite <- Hrun2. apply fold_result_ext. intros c t _. apply copy_out_eq.
    + apply byte_at_ext; [lia | ]. intros i Hi.
      pose proof (Z.div_mod i bpp ltac:(lia)) as Ediv.
      pose proof (Z.mod_pos_bound i bpp ltac:(lia)) as Hj.
      assert (Hp : 0 <= i / bpp < width * height * depth).
      { split; [apply Z.div_pos; lia | ].
        apply Z.div_lt_upper_bound; [lia | ]. lia. }
      destruct (pixel_index_onto width height depth
                  ltac:(lia) ltac:(lia) ltac:(lia) (i / bpp) Hp)
        as (c & Hc & Hpix).
      assert (Ei : i = lin_of (width * bpp) (height * (width * bpp)) bpp c
                       + i mod bpp).
      { rewrite lin_of_tight by exact Hc. rewrite Hpix. lia. }
      rewrite Ei. rewrite Hin2, Hin1 by assumption. reflexivity.
Qed.

End RoundTrip.

(** C1, as the code has it.  For dimensions in [1, 2^31] and
    bytes_per_pixel >= 1 such that bytes_per_pixel * 2^bits stays below 2^32,
    where bits is the sum of the ceil(log2) of the three dimensions, with
    tightly packed pitches (row_pitch = width * bytes_per_pixel, slice_pitch
    = height * row_pitch): for every buffer [B] of width * height * depth *
    bytes_per_pixel bytes and every swizzled buffer of at least
    bytes_per_pixel * 2^bits bytes, [swizzle_box] followed by
    [unswizzle_box] into any buffer of the size of [B] gives back [B]
    exactly.  When the dimensions are powers of two, that swizzled size is
    width * height * depth * bytes_per_pixel. *)
Theorem round_trip_fit (width height depth bytes_per_pixel : Z)
        (B S0 L0 : buffer) :
  1 <= width <= 2 ^ 31 -> 1 <= height <= 2 ^ 31 -> 1 <= depth <= 2 ^ 31 ->
  1 <= bytes_per_pixel ->
  bytes_per_pixel
  * 2 ^ (Z.log2_up width + Z.log2_up height + Z.log2_up depth) < 2 ^ 32 ->
  buf_len B = width * height * depth * bytes_per_pixel ->
  buf_len L0 = width * height * depth * bytes_per_pixel ->
  bytes_per_pixel
  * 2 ^ (Z.log2_up width + Z.log2_up height + Z.log2_up depth) <= buf_len S0 ->
  round_trip width height depth bytes_per_pixel B S0 L0
  /\ (width = 2 ^ Z.log2_up width -> height = 2 ^ Z.log2_up height ->
      depth = 2 ^ Z.log2_up depth ->
      bytes_per_pixel
      * 2 ^ (Z.log2_up width + Z.log2_up height + Z.log2_up depth)
      = width * height * depth * bytes_per_pixel).
Proof.
  intros Hw Hh Hd Hbpp Hsize HB HL0 HS0.
  pose proof (Z.log2_up_nonneg width). pose proof (Z.log2_up_nonneg height).
  pose proof (Z.log2_up_nonneg depth).
  split.
  - assert (Hfit : Z.log2_up width + Z.log2_up height + Z.log2_up depth <= 32).
    { destruct (Z.le_gt_cases
                  (Z.log2_up width + Z.log2_up height + Z.log2_up depth) 32)
        as [Hle | Hgt]; [exact Hle | ].
      assert (2 ^ 32 <= 2 ^ (Z.log2_up width + Z.log2_up height
                             + Z.log2_up depth))
        by (apply Z.pow_le_mono_r; lia).
      nia. }
    destruct (generate_swizzle_masks_shape width height depth
                ltac:(lia) ltac:(lia) ltac:(lia) Hfit 32 (le_n 32))
      as (s & Hret & Hpost).
    destruct (round_trip_masks width height depth bytes_per_pixel
                Hw Hh Hd Hbpp Hsize s Hpost B S0 L0 HB HL0 HS0)
      as (S1 & Hin & Hout).
    exists 32%nat, S1.
    rewrite swizzle_box_fold, unswizzle_box_fold, Hret. cbn [bind].
    split; assumption.
  - intros Ew Eh Ed. rewrite !Z.pow_add_r by lia.
    rewrite <- Ew, <- Eh, <- Ed. lia.
Qed.

Lemma round_trip_fit_witness :
  round_trip 3 2 1 1
    [x01; x02; x03; x04; x05; x06]
    [x00; x00; x00; x00; x00; x00; x00; x00]
    [x00; x00; x00; x00; x00; x00].
Proof.
  apply (round_trip_fit 3 2 1 1
           [x01; x02; x03; x04; x05; x06]
           [x00; x00; x00; x00; x00; x00; x00; x00]
           [x00; x00; x00; x00; x00; x00]).
  - lia.
  - lia.
  - lia.
  - lia.
  - vm_compute. reflexivity.
  - reflexivity.
  - reflexivity.
  - vm_compute. discriminate.
Defined.

(** C1 as stated fails when a dimension is not a power of two.  For
    width = 3, height = 2, depth = 1 and one byte per pixel, the linear
    buffer has 6 bytes, and with a swizzled buffer of the same
    width * height * depth * bytes_per_pixel = 6 bytes [swizzle_box] writes
    the pixel (2, 1, 0) at offset 6, past the end of that buffer: no such
    swizzled buffer makes the round trip succeed.  It also fails for a
    width above 2^31, whatever the buffers: [swizzle_box] never leaves the
    generator loop. *)
Lemma round_trip_fails :
  ~ (exists S0 L0,
       buf_len S0 = 3 * 2 * 1 * 1
       /\ round_trip 3 2 1 1 [x01; x02; x03; x04; x05; x06] S0 L0)
  /\ ~ (exists B S0 L0, round_trip (2 ^ 31 + 1) 1 1 1 B S0 L0).
Proof.
  split.
  - intros (S0 & L0 & Hlen & fuel & S1 & Hs & _).
    rewrite swizzle_box_fold in Hs.
    assert (Hlen' : length S0 = 6%nat) by (unfold buf_len in Hlen; lia).
    destruct S0 as [ | a0 [ | a1 [ | a2 [ | a3 [ | a4 [ | a5 [ | a6 S0]]]]]]];
      try discriminate Hlen'.
    destruct fuel as [ | [ | [ | fuel]]];
      [discriminate Hs | discriminate Hs | discriminate Hs | ].
    change (generate_swizzle_masks (S (S (S fuel))) 3 2 1)
      with (Ret (5, 2, 0)) in Hs.
    vm_compute in Hs. discriminate Hs.
  - intros (B & S0 & L0 & fuel & S1 & Hs & _).
    rewrite swizzle_box_fold in Hs. unfold generate_swizzle_masks in Hs.
    rewrite masks_loop_diverges in Hs by lia. discriminate Hs.
Qed.

(** * Further properties *)

(** ** When the generator loop exits *)

Section GeneratorExit.

Variables width height depth : Z.

(* A dimension above 2^31 is above every value [bit] takes, whichever axis
   it is. *)
Lemma masks_loop_diverges_any (fuel : nat) :
  2 ^ 31 < width \/ 2 ^ 31 < height \/ 2 ^ 31 < depth ->
  masks_loop fuel width height depth = Timeout.
Proof.
  intros Hbig.
  apply (do_while_diverges (masks_body width height depth)
           (fun s => exists R, 0 <= R /\ sbit s = u32 (2 ^ R))).
  - intros s (R & HR & Hbit). split.
    + rewrite masks_body_done, Hbit.
      assert (Hle : u32 (2 ^ R) <= 2 ^ 31).
      { destruct (Z.lt_ge_cases R 32) as [Hlow | Hhigh].
        - rewrite u32_pow2_low by lia. apply Z.pow_le_mono_r; lia.
        - rewrite u32_pow2_high by lia. lia. }
      destruct Hbig as [Hb | [Hb | Hb]].
      * replace (u32 (2 ^ R) <? width) with true
          by (symmetry; apply Z.ltb_lt; lia).
        reflexivity.
      * replace (u32 (2 ^ R) <? height) with true
          by (symmetry; apply Z.ltb_lt; lia).
        cbn [negb]. now rewrite andb_false_r.
      * replace (u32 (2 ^ R) <? depth) with true
          by (symmetry; apply Z.ltb_lt; lia).
        cbn [negb]. now rewrite andb_false_r.
    + exists (R + 1). rewrite masks_body_bit, Hbit.
      split; [lia | now apply shl32_u32_pow2].
  - exists 0. split; [lia | reflexivity].
Qed.

End GeneratorExit.

(** X1. The generator returns masks exactly when no dimension exceeds
    2^31; it then needs at most 32 rounds.  With a larger dimension the
    threshold [bit] wraps to 0 before it reaches the dimension and the loop
    never exits. *)
Theorem generator_returns_iff (width height depth : Z) :
  ((exists fuel m, generate_swizzle_masks fuel width height depth = Ret m)
   <-> width <= 2 ^ 31 /\ height <= 2 ^ 31 /\ depth <= 2 ^ 31)
  /\ ((exists fuel m, generate_swizzle_masks fuel width height depth = Ret m)
      -> forall fuel, (32 <= fuel)%nat ->
           exists m, generate_swizzle_masks fuel width height depth = Ret m).
Proof.
  assert (Hfwd : (exists fuel m,
                    generate_swizzle_masks fuel width height depth = Ret m)
                 -> width <= 2 ^ 31 /\ height <= 2 ^ 31 /\ depth <= 2 ^ 31).
  { intros (fuel & m & Hret).
    destruct (Z.le_gt_cases width (2 ^ 31)) as [Hw | Hw];
      destruct (Z.le_gt_cases height (2 ^ 31)) as [Hh | Hh];
      destruct (Z.le_gt_cases depth (2 ^ 31)) as [Hd | Hd];
      try (repeat split; assumption);
      unfold generate_swizzle_masks in Hret;
      rewrite masks_loop_diverges_any in Hret by auto;
      discriminate Hret. }
  assert (Hbwd : width <= 2 ^ 31 /\ height <= 2 ^ 31 /\ depth <= 2 ^ 31 ->
                 forall fuel, (32 <= fuel)%nat ->
                   exists m,
                     generate_swizzle_masks fuel width height depth = Ret m).
  { intros (Hw & Hh & Hd) fuel Hfuel.
    destruct (generate_swizzle_masks_returns width height depth fuel
                Hw Hh Hd Hfuel) as (s & _ & _ & Hret).
    now exists (sx s, sy s, sz s). }
  split; [split | ].
  - exact Hfwd.
  - intros Hdims. exists 32%nat. now apply Hbwd.
  - intros Hret. apply Hbwd. now apply Hfwd.
Qed.

(** ** Dimensions count only through their number of bits *)

Section DoWhileExt.

Context {St : Type}.

(* Two bodies that agree on the states an invariant describes run alike. *)
Lemma do_while_ext (f g : St -> St * bool) (P : St -> Prop) :
  (forall s, P s -> f s = g s /\ (snd (f s) = false -> P (fst (f s)))) ->
  forall fuel s, P s -> do_while fuel f s = do_while fuel g s.
Proof.
  intros Hstep fuel.
  induction fuel as [ | fuel IH]; intros s HP; [reflexivity | ].
  cbn [do_while]. destruct (Hstep s HP) as [Heq Hnext]. rewrite <- Heq.
  destruct (f s) as [s1 done]. cbn [fst snd] in Hnext.
  destruct done; [reflexivity | ]. apply IH. now apply Hnext.
Qed.

End DoWhileExt.

Lemma threshold_pow2 (R a : Z) :
  0 <= R -> 0 < a -> (2 ^ R <? a) = (2 ^ R <? 2 ^ Z.log2_up a).
Proof.
  intros HR Ha. pose proof (Z.log2_up_lt_pow2 a R Ha) as Hiff.
  pose proof (Z.log2_up_nonneg a) as Hl.
  pose proof (Z.pow_lt_mono_r_iff 2 R (Z.log2_up a) ltac:(lia) Hl) as Hpow.
  destruct (Z.ltb_spec (2 ^ R) a), (Z.ltb_spec (2 ^ R) (2 ^ Z.log2_up a));
    try reflexivity; lia.
Qed.

(** X2. The generator sees a dimension only through the number of bits it
    needs: for dimensions in [1, 2^31] the masks of a box are those of the
    box with every dimension rounded up to the next power of two. *)
Theorem masks_round_up (fuel : nat) (width height depth : Z) :
  1 <= width <= 2 ^ 31 -> 1 <= height <= 2 ^ 31 -> 1 <= depth <= 2 ^ 31 ->
  generate_swizzle_masks fuel width height depth
  = generate_swizzle_masks fuel (2 ^ Z.log2_up width) (2 ^ Z.log2_up height)
                           (2 ^ Z.log2_up depth).
Proof.
  intros Hw Hh Hd. unfold generate_swizzle_masks, masks_loop. f_equal.
  apply (do_while_ext _ _ (fun s => exists R, 0 <= R <= 31 /\ sbit s = 2 ^ R)).
  - intros s (R & HR & Hbit).
    assert (Heq : masks_body width height depth s
                  = masks_body (2 ^ Z.log2_up width) (2 ^ Z.log2_up height)
                               (2 ^ Z.log2_up depth) s).
    { unfold masks_body. rewrite Hbit.
      now rewrite <- !threshold_pow2 by lia. }
    split; [exact Heq | ].
    rewrite masks_body_done, masks_body_bit, Hbit. intros Hdone.
    destruct (Z.eq_dec R 31) as [-> | Hne].
    + replace (2 ^ 31 <? width) with false in Hdone
        by (symmetry; apply Z.ltb_ge; lia).
      replace (2 ^ 31 <? height) with false in Hdone
        by (symmetry; apply Z.ltb_ge; lia).
      replace (2 ^ 31 <? depth) with false in Hdone
        by (symmetry; apply Z.ltb_ge; lia).
      discriminate Hdone.
    + exists (R + 1). split; [lia | ].
      rewrite <- (u32_pow2_low R) by lia.
      rewrite shl32_u32_pow2 by lia. apply u32_pow2_low. lia.
  - exists 0. split; [lia | reflexivity].
Qed.

Lemma masks_round_up_witness :
  generate_swizzle_masks 32 3 2 1
  = generate_swizzle_masks 32 (2 ^ Z.log2_up 3) (2 ^ Z.log2_up 2)
                           (2 ^ Z.log2_up 1).
Proof. apply (masks_round_up 32 3 2 1); lia. Defined.

(** ** Where the coordinate bits go *)

Section RankFacts.

Variable m : Z.

(* No set bits at or above [k]: the ranks stop growing there. *)
Lemma rank_above (k q : Z) :
  0 <= m < 2 ^ k -> 0 <= k <= q -> rank m q = rank m k.
Proof.
  intros Hm Hq. replace q with (k + (q - k)) by lia.
  assert (Hd : 0 <= q - k) by lia. revert Hd. generalize (q - k) as e.
  intros e He. pattern e. apply natlike_ind; [ | | exact He].
  - now rewrite Z.add_0_r.
  - intros f Hf IH. replace (k + Z.succ f) with (k + f + 1) by lia.
    rewrite rank_succ by lia.
    rewrite (testbit_above m k (k + f)) by lia. cbn [Z.b2z]. lia.
Qed.

(* Two set bits of the same rank are the same bit. *)
Lemma rank_inj (p q : Z) :
  0 <= p -> 0 <= q ->
  Z.testbit m p = true -> Z.testbit m q = true ->
  rank m p = rank m q -> p = q.
Proof.
  intros Hp Hq Bp Bq Heq.
  destruct (Z.lt_trichotomy p q) as [Hlt | [Heq' | Hgt]]; [ | exact Heq' | ].
  - pose proof (rank_lt m p q ltac:(lia) Bp). lia.
  - pose proof (rank_lt m q p ltac:(lia) Bq). lia.
Qed.

Lemma testbit_true_nonneg (p : Z) : Z.testbit m p = true -> 0 <= p.
Proof.
  intros Hbit.
  destruct (Z.neg_nonneg_cases p) as [Hneg | Hpos]; [ | exact Hpos].
  rewrite Z.testbit_neg_r in Hbit by exact Hneg. discriminate.
Qed.

(* A mask whose [n] set bits are laid out by [pos] has no other set bit. *)
Lemma axis_layout_exact (pos : Z -> Z) (n : Z) :
  0 <= m < 2 ^ 32 -> popcount m = n -> axis_layout m pos n ->
  forall p, Z.testbit m p = true <-> exists r, 0 <= r < n /\ p = pos r.
Proof.
  intros Hm Hpop Hlay p. split.
  - intros Hbit. pose proof (testbit_true_nonneg p Hbit) as Hp.
    assert (Hp32 : p < 32).
    { destruct (Z.lt_ge_cases p 32) as [Hlt | Hge]; [exact Hlt | ].
      rewrite (testbit_high m p Hm Hge) in Hbit. discriminate. }
    pose proof (rank_lt_popcount m p ltac:(lia) Hbit) as Hr.
    exists (rank m p). split; [lia | ].
    destruct (Hlay (rank m p) ltac:(lia)) as [Bq Rq].
    apply rank_inj; try assumption;
      [now apply testbit_true_nonneg | now symmetry].
  - intros (r & Hr & ->). now apply Hlay.
Qed.

End RankFacts.

Section AssignLayout.

(* Handing the next free bit [k] to a mask extends its layout by one. *)
Lemma assign_layout (c : bool) (k x mb : Z) (done : bool)
      (pos : Z -> Z) (n : Z) :
  0 <= x < 2 ^ k -> 0 <= k -> (c = true -> k < 32) ->
  mb = u32 (2 ^ k) -> popcount x = n ->
  axis_layout x pos n -> (c = true -> pos n = k) ->
  axis_layout (fst (fst (assign_bit c x mb done))) pos (n + Z.b2z c).
Proof.
  intros Hx Hk Hc Hmb Hpop Hlay Hpos. destruct c; cbn [assign_bit fst Z.b2z].
  - specialize (Hc eq_refl). specialize (Hpos eq_refl).
    subst mb. rewrite u32_pow2_low by lia.
    assert (Hclear : Z.testbit x k = false) by (apply (testbit_above x k); lia).
    intros r Hr. destruct (Z.eq_dec r n) as [-> | Hne].
    + rewrite Hpos. split.
      * rewrite Z.lor_spec, Z.pow2_bits_true by lia. apply orb_true_r.
      * rewrite rank_set_bit by (lia || assumption).
        rewrite Z.ltb_irrefl. cbn [Z.b2z].
        rewrite <- Hpop, popcount_rank.
        rewrite (rank_above x k 32) by lia. lia.
    + destruct (Hlay r ltac:(lia)) as [Bp Rp].
      pose proof (testbit_true_nonneg x _ Bp) as Hp0.
      assert (Hpk : pos r < k).
      { destruct (Z.lt_ge_cases (pos r) k) as [Hlt | Hge]; [exact Hlt | ].
        rewrite (testbit_above x k (pos r)) in Bp by lia. discriminate. }
      split.
      * rewrite Z.lor_spec, Bp. reflexivity.
      * rewrite rank_set_bit by (lia || assumption).
        replace (k <? pos r) with false by (symmetry; apply Z.ltb_ge; lia).
        cbn [Z.b2z]. lia.
  - now rewrite Z.add_0_r.
Qed.

(* Each mask lies below the next free bit. *)
Lemma masks_below (k x y z mb : Z) :
  bits_inv k x y z mb ->
  0 <= x < 2 ^ k /\ 0 <= y < 2 ^ k /\ 0 <= z < 2 ^ k.
Proof.
  intros Hinv. assert (Hk : 0 <= k <= 32) by (destruct Hinv; lia).
  assert (Hnn : 0 <= Z.lor (Z.lor x y) z).
  { destruct Hinv as (_ & _ & -> & _).
    assert (0 < 2 ^ k) by (apply Z.pow_pos_nonneg; lia). lia. }
  apply Z.lor_nonneg in Hnn. destruct Hnn as [Hnn Hz].
  apply Z.lor_nonneg in Hnn. destruct Hnn as [Hx Hy].
  repeat split; try assumption.
  - apply (bits_inv_land_cover _ _ _ _ _ Hinv); [ | exact Hx].
    intros p _ ->. reflexivity.
  - apply (bits_inv_land_cover _ _ _ _ _ Hinv); [ | exact Hy].
    intros p _ ->. now rewrite orb_true_r.
  - apply (bits_inv_land_cover _ _ _ _ _ Hinv); [ | exact Hz].
    intros p _ ->. now rewrite orb_true_r.
Qed.

End AssignLayout.

Section LayoutLoop.

Variables width height depth : Z.
Hypothesis Hwidth : 0 < width <= 2 ^ 31.
Hypothesis Hheight : 0 < height <= 2 ^ 31.
Hypothesis Hdepth : 0 < depth <= 2 ^ 31.
Hypothesis Hfit :
  Z.log2_up width + Z.log2_up height + Z.log2_up depth <= 32.

Lemma axis_layout_index (m : Z) (pos : Z -> Z) (n n' : Z) :
  n = n' -> axis_layout m pos n -> axis_layout m pos n'.
Proof. now intros ->. Qed.

Lemma layout_inv_init : layout_inv width height depth masks_init.
Proof.
  pose proof (Z.log2_up_nonneg width). pose proof (Z.log2_up_nonneg height).
  pose proof (Z.log2_up_nonneg depth).
  exists 0. cbn [masks_init sx sy sz sbit].
  rewrite !Z.min_l by lia.
  split; [lia | ]. split; [reflexivity | ].
  unfold axis_layout. repeat split; intros; lia.
Qed.

Lemma layout_body (s : masks_state) :
  count_inv width height depth s /\ layout_inv width height depth s ->
  if snd (masks_body width height depth s)
  then count_post width height depth (fst (masks_body width height depth s))
       /\ layout_post width height depth (fst (masks_body width height depth s))
  else count_inv width height depth (fst (masks_body width height depth s))
       /\ layout_inv width height depth (fst (masks_body width height depth s)).
Proof.
  intros [Hcount (R' & HR' & Hbit' & Lx & Ly & Lz)].
  pose proof (count_body width height depth Hwidth Hheight Hdepth Hfit s Hcount)
    as Hstep.
  destruct Hcount as (R & HR & Hbit & Hpx & Hpy & Hpz & Hinv).
  assert (R' = R).
  { apply (Z.pow_inj_r 2); lia || congruence. }
  subst R'. clear Hbit' HR'.
  pose proof (log2_up_dim width Hwidth) as Hlw.
  pose proof (log2_up_dim height Hheight) as Hlh.
  pose proof (log2_up_dim depth Hdepth) as Hld.
  pose proof (threshold_rounds R width ltac:(lia) ltac:(lia)) as Hcx.
  pose proof (threshold_rounds R height ltac:(lia) ltac:(lia)) as Hcy.
  pose proof (threshold_rounds R depth ltac:(lia) ltac:(lia)) as Hcz.
  revert Hstep. unfold masks_body. rewrite Hbit.
  set (cx := 2 ^ R <? width) in *.
  set (cy := 2 ^ R <? height) in *.
  set (cz := 2 ^ R <? depth) in *.
  (* x *)
  destruct (masks_below _ _ _ _ _ Hinv) as (Bx & _ & _).
  assert (Hmb : smask_bit s = u32 (2 ^ (Z.min R (Z.log2_up width)
                                        + Z.min R (Z.log2_up height)
                                        + Z.min R (Z.log2_up depth))))
    by (destruct Hinv as (_ & E & _); exact E).
  pose proof (assign_layout cx _ (sx s) (smask_bit s) true
                (bit_pos_x (Z.log2_up height) (Z.log2_up depth))
                (Z.min R (Z.log2_up width)) Bx ltac:(lia)) as Lx1.
  destruct (assign_bit_x cx _ _ _ _ _ true Hinv) as [Hinv1 _].
  { intros ->. cbn [Z.b2z] in Hcx. lia. }
  specialize (Lx1 ltac:(intros ->; cbn [Z.b2z] in Hcx; lia) Hmb Hpx Lx
                  ltac:(intros ->; cbn [Z.b2z] in Hcx; unfold bit_pos_x; lia)).
  pose proof (assign_bit_done cx (sx s) (smask_bit s) true) as Hd1.
  destruct (assign_bit cx (sx s) (smask_bit s) true) as [[x1 mb1] done1].
  cbn [fst snd] in Hinv1, Lx1, Hd1.
  (* y *)
  destruct (masks_below _ _ _ _ _ Hinv1) as (_ & By & _).
  assert (Hmb1 : mb1 = u32 (2 ^ (Z.min R (Z.log2_up width)
                                 + Z.min R (Z.log2_up height)
                                 + Z.min R (Z.log2_up depth) + Z.b2z cx)))
    by (destruct Hinv1 as (_ & E & _); exact E).
  pose proof (assign_layout cy _ (sy s) mb1 done1
                (bit_pos_y (Z.log2_up width) (Z.log2_up depth))
                (Z.min R (Z.log2_up height)) By ltac:(lia)) as Ly1.
  destruct (assign_bit_y cy _ _ _ _ _ done1 Hinv1) as [Hinv2 _].
  { intros ->. cbn [Z.b2z] in Hcy. lia. }
  specialize (Ly1 ltac:(intros ->; cbn [Z.b2z] in Hcy; lia) Hmb1 Hpy Ly
                  ltac:(intros ->; cbn [Z.b2z] in Hcy; unfold bit_pos_y; lia)).
  pose proof (assign_bit_done cy (sy s) mb1 done1) as Hd2.
  destruct (assign_bit cy (sy s) mb1 done1) as [[y1 mb2] done2].
  cbn [fst snd] in Hinv2, Ly1, Hd2.
  (* z *)
  destruct (masks_below _ _ _ _ _ Hinv2) as (_ & _ & Bz).
  assert (Hmb2 : mb2 = u32 (2 ^ (Z.min R (Z.log2_up width)
                                 + Z.min R (Z.log2_up height)
                                 + Z.min R (Z.log2_up depth) + Z.b2z cx
                                 + Z.b2z cy)))
    by (destruct Hinv2 as (_ & E & _); exact E).
  pose proof (assign_layout cz _ (sz s) mb2 done2
                (bit_pos_z (Z.log2_up width) (Z.log2_up height))
                (Z.min R (Z.log2_up depth)) Bz ltac:(lia)) as Lz1.
  specialize (Lz1 ltac:(intros ->; cbn [Z.b2z] in Hcz; lia) Hmb2 Hpz Lz
                  ltac:(intros ->; cbn [Z.b2z] in Hcz; unfold bit_pos_z; lia)).
  pose proof (assign_bit_done cz (sz s) mb2 done2) as Hd3.
  destruct (assign_bit cz (sz s) mb2 done2) as [[z1 mb3] done3].
  cbn [fst snd] in Lz1, Hd3 |- *.
  subst done1 done2. rewrite andb_true_r in Hd3.
  intros Hstep. destruct done3.
  - split; [exact Hstep | ].
    symmetry in Hd3. apply andb_true_iff in Hd3. destruct Hd3 as [Ez Hd3].
    apply andb_true_iff in Hd3. destruct Hd3 as [Ey Ex].
    apply negb_true_iff in Ex, Ey, Ez. rewrite Ex in *. rewrite Ey in *.
    rewrite Ez in *. cbn [Z.b2z] in *.
    unfold layout_post. cbn [sx sy sz].
    split; [ | split];
      [eapply axis_layout_index; [ | exact Lx1]
      |eapply axis_layout_index; [ | exact Ly1]
      |eapply axis_layout_index; [ | exact Lz1]]; lia.
  - split; [exact Hstep | ].
    assert (Hsome : Z.b2z cx + Z.b2z cy + Z.b2z cz >= 1).
    { destruct cx, cy, cz; cbn [Z.b2z]; lia || discriminate. }
    exists (R + 1). cbn [sx sy sz sbit].
    split; [lia | ]. split.
    { rewrite <- (u32_pow2_low R) by lia.
      rewrite shl32_u32_pow2 by lia. apply u32_pow2_low. lia. }
    split; [ | split];
      [eapply axis_layout_index; [ | exact Lx1]
      |eapply axis_layout_index; [ | exact Ly1]
      |eapply axis_layout_index; [ | exact Lz1]]; lia.
Qed.

(* The masks the generator returns, with the place of every bit. *)
Lemma generate_swizzle_masks_layout (fuel : nat) :
  (32 <= fuel)%nat ->
  exists s,
    generate_swizzle_masks fuel width height depth = Ret (sx s, sy s, sz s)
    /\ count_post width height depth s
    /\ layout_post width height depth s.
Proof.
  intros Hfuel.
  destruct (generate_swizzle_masks_returns width height depth fuel
              ltac:(lia) ltac:(lia) ltac:(lia) Hfuel) as (s & Hrun & _ & Hret).
  exists s. split; [exact Hret | ].
  apply (do_while_inv (masks_body width height depth)
           (fun s => count_inv width height depth s
                     /\ layout_inv width height depth s)
           (fun s => count_post width height depth s
                     /\ layout_post width height depth s)
           layout_body fuel masks_init s).
  - split; [now apply count_inv_init | apply layout_inv_init].
  - exact Hrun.
Qed.

End LayoutLoop.

(** X3. For a box with dimensions in [1, 2^31] whose address bits fit in 32
    bits, every axis gets exactly ceil(log2(dimension)) mask bits, and the
    mask bit for coordinate bit [r] is the address bit reached by counting
    the bits handed out before it: all the bits of the rounds below [r] and,
    in round [r], those of the axes that come first in the order x, y, z. *)
Theorem mask_layout (fuel : nat) (width height depth : Z) :
  1 <= width <= 2 ^ 31 -> 1 <= height <= 2 ^ 31 -> 1 <= depth <= 2 ^ 31 ->
  Z.log2_up width + Z.log2_up height + Z.log2_up depth <= 32 ->
  (32 <= fuel)%nat ->
  exists mx my mz,
    generate_swizzle_masks fuel width height depth = Ret (mx, my, mz)
    /\ popcount mx = Z.log2_up width
    /\ popcount my = Z.log2_up height
    /\ popcount mz = Z.log2_up depth
    /\ (forall p, Z.testbit mx p = true <->
          exists r, 0 <= r < Z.log2_up width
                    /\ p = r + Z.min r (Z.log2_up height)
                           + Z.min r (Z.log2_up depth))
    /\ (forall p, Z.testbit my p = true <->
          exists r, 0 <= r < Z.log2_up height
                    /\ p = Z.min (r + 1) (Z.log2_up width) + r
                           + Z.min r (Z.log2_up depth))
    /\ (forall p, Z.testbit mz p = true <->
          exists r, 0 <= r < Z.log2_up depth
                    /\ p = Z.min (r + 1) (Z.log2_up width)
                           + Z.min (r + 1) (Z.log2_up height) + r).
Proof.
  intros Hw Hh Hd Hfit Hfuel.
  destruct (generate_swizzle_masks_layout width height depth
              ltac:(lia) ltac:(lia) ltac:(lia) Hfit fuel Hfuel)
    as (s & Hret & (Hpx & Hpy & Hpz & Hinv) & (Lx & Ly & Lz)).
  destruct (bits_inv_range _ _ _ _ _ Hinv) as (Rx & Ry & Rz).
  exists (sx s), (sy s), (sz s).
  split; [exact Hret | ]. split; [exact Hpx | ]. split; [exact Hpy | ].
  split; [exact Hpz | ]. split; [ | split].
  - exact (axis_layout_exact (sx s) _ _ Rx Hpx Lx).
  - exact (axis_layout_exact (sy s) _ _ Ry Hpy Ly).
  - exact (axis_layout_exact (sz s) _ _ Rz Hpz Lz).
Qed.

Lemma mask_layout_witness :
  exists mx my mz,
    generate_swizzle_masks 32 8 2 4 = Ret (mx, my, mz)
    /\ popcount mx = Z.log2_up 8.
Proof.
  destruct (mask_layout 32 8 2 4) as (mx & my & mz & Hret & Hpx & _).
  - lia.
  - lia.
  - lia.
  - vm_compute. discriminate.
  - lia.
  - now exists mx, my, mz.
Defined.

(** X4. The swizzled pixel offset, bit by bit: for such a box, bit [r] of x
    is address bit r + min(r, bits of y) + min(r, bits of z), bit [r] of y
    is address bit min(r+1, bits of x) + r + min(r, bits of z), and bit [r]
    of z is address bit min(r+1, bits of x) + min(r+1, bits of y) + r; the
    interleaved index is below 2^(bits of x + bits of y + bits of z). *)
Theorem address_layout (fuel : nat) (width height depth : Z) :
  1 <= width <= 2 ^ 31 -> 1 <= height <= 2 ^ 31 -> 1 <= depth <= 2 ^ 31 ->
  Z.log2_up width + Z.log2_up height + Z.log2_up depth <= 32 ->
  (32 <= fuel)%nat ->
  exists mx my mz,
    generate_swizzle_masks fuel width height depth = Ret (mx, my, mz)
    /\ forall x y z,
         (forall r, 0 <= r < Z.log2_up width ->
            Z.testbit (interleave mx my mz x y z)
                      (r + Z.min r (Z.log2_up height)
                       + Z.min r (Z.log2_up depth))
            = Z.testbit x r)
         /\ (forall r, 0 <= r < Z.log2_up height ->
               Z.testbit (interleave mx my mz x y z)
                         (Z.min (r + 1) (Z.log2_up width) + r
                          + Z.min r (Z.log2_up depth))
               = Z.testbit y r)
         /\ (forall r, 0 <= r < Z.log2_up depth ->
               Z.testbit (interleave mx my mz x y z)
                         (Z.min (r + 1) (Z.log2_up width)
                          + Z.min (r + 1) (Z.log2_up height) + r)
               = Z.testbit z r)
         /\ 0 <= interleave mx my mz x y z
            < 2 ^ (Z.log2_up width + Z.log2_up height + Z.log2_up depth).
Proof.
  intros Hw Hh Hd Hfit Hfuel.
  destruct (generate_swizzle_masks_layout width height depth
              ltac:(lia) ltac:(lia) ltac:(lia) Hfit fuel Hfuel)
    as (s & Hret & (Hpx & Hpy & Hpz & Hinv) & (Lx & Ly & Lz)).
  exists (sx s), (sy s), (sz s). split; [exact Hret | ].
  intros x y z.
  split; [ | split; [ | split; [ | apply (interleave_range _ _ _ _ _ Hinv)]]].
  - intros r Hr. destruct (Lx r Hr) as [Bp Rp]. unfold bit_pos_x in Bp, Rp.
    pose proof (testbit_true_nonneg _ _ Bp) as Hp.
    rewrite (interleave_bits _ _ _ _ _ Hinv) by exact Hp.
    destruct (bits_inv_bits _ _ _ _ _ Hinv _ Hp) as (_ & Hxy & _ & Hxz).
    rewrite Bp in *. cbn [andb] in Hxy, Hxz. rewrite Hxy, Hxz, Rp.
    cbn [andb]. now rewrite !orb_false_r.
  - intros r Hr. destruct (Ly r Hr) as [Bp Rp]. unfold bit_pos_y in Bp, Rp.
    pose proof (testbit_true_nonneg _ _ Bp) as Hp.
    rewrite (interleave_bits _ _ _ _ _ Hinv) by exact Hp.
    destruct (bits_inv_bits _ _ _ _ _ Hinv _ Hp) as (_ & Hxy & Hyz & _).
    rewrite Bp in *. rewrite andb_true_r in Hxy. cbn [andb] in Hyz.
    rewrite Hxy, Hyz, Rp. cbn [andb orb]. now rewrite orb_false_r.
  - intros r Hr. destruct (Lz r Hr) as [Bp Rp]. unfold bit_pos_z in Bp, Rp.
    pose proof (testbit_true_nonneg _ _ Bp) as Hp.
    rewrite (interleave_bits _ _ _ _ _ Hinv) by exact Hp.
    destruct (bits_inv_bits _ _ _ _ _ Hinv _ Hp) as (_ & _ & Hyz & Hxz).
    rewrite Bp in *. rewrite andb_true_r in Hyz, Hxz.
    rewrite Hyz, Hxz, Rp. reflexivity.
Qed.

Lemma address_layout_witness :
  exists mx my mz,
    generate_swizzle_masks 32 8 2 4 = Ret (mx, my, mz)
    /\ Z.testbit (interleave mx my mz 2 0 0) 3 = Z.testbit 2 1.
Proof.
  destruct (address_layout 32 8 2 4) as (mx & my & mz & Hret & Hbits).
  - lia.
  - lia.
  - lia.
  - vm_compute. discriminate.
  - lia.
  - exists mx, my, mz. split; [exact Hret | ].
    destruct (Hbits 2 0 0) as (Hx & _).
    apply (Hx 1). change (Z.log2_up 8) with 3. lia.
Defined.

(** ** More on [expand] *)

Section ExpandAlgebra.

Variable m : Z.
Hypothesis Hm : 0 <= m < 2 ^ 32.

Lemma mask_bit_low (p : Z) : Z.testbit m p = true -> 0 <= p < 32.
Proof.
  intros Hbit. split; [now apply (testbit_true_nonneg m) | ].
  destruct (Z.lt_ge_cases p 32) as [Hlt | Hge]; [exact Hlt | ].
  rewrite (testbit_high m p Hm Hge) in Hbit. discriminate.
Qed.

(* Only the low popcount(m) bits of the value are looked at. *)
Lemma expand_mod (v : Z) :
  expand v (generate_expand_mask_moves m)
  = expand (v mod 2 ^ popcount m) (generate_expand_mask_moves m).
Proof.
  apply Z.bits_inj'. intros p Hp. rewrite !expand_bits by assumption.
  destruct (Z.testbit m p) eqn:Hbit; [ | reflexivity]. cbn [andb].
  pose proof (mask_bit_low p Hbit).
  pose proof (rank_lt_popcount m p ltac:(lia) Hbit).
  symmetry. apply Z.mod_pow2_bits_low. lia.
Qed.

End ExpandAlgebra.

(** X5. Two values have the same [expand] exactly when they agree on their
    low popcount(mask) bits: on [0, 2^popcount(mask)) [expand] is injective,
    and everything above is ignored. *)
Theorem expand_eq_iff (m a b : Z) :
  0 <= m < 2 ^ 32 ->
  (expand a (generate_expand_mask_moves m)
   = expand b (generate_expand_mask_moves m)
   <-> a mod 2 ^ popcount m = b mod 2 ^ popcount m).
Proof.
  intros Hm. pose proof (popcount_nonneg m) as Hpop.
  assert (Hpos : 0 < 2 ^ popcount m) by (apply Z.pow_pos_nonneg; lia).
  split.
  - intros Heq. apply (expand_inj m); try assumption.
    + apply Z.mod_pos_bound. exact Hpos.
    + apply Z.mod_pos_bound. exact Hpos.
    + now rewrite <- !expand_mod.
  - intros Heq. rewrite (expand_mod m Hm a), (expand_mod m Hm b), Heq.
    reflexivity.
Qed.

Lemma expand_eq_iff_witness :
  expand 0x1D (generate_expand_mask_moves 0x9A)
  = expand 0xD (generate_expand_mask_moves 0x9A)
  <-> 0x1D mod 2 ^ popcount 0x9A = 0xD mod 2 ^ popcount 0x9A.
Proof. apply (expand_eq_iff 0x9A 0x1D 0xD). split; [lia | reflexivity]. Defined.

(** X6. [expand] works bit by bit: it commutes with the bitwise or, and and
    exclusive or of two values. *)
Theorem expand_bitwise (m a b : Z) :
  0 <= m < 2 ^ 32 ->
  expand (Z.lor a b) (generate_expand_mask_moves m)
  = Z.lor (expand a (generate_expand_mask_moves m))
          (expand b (generate_expand_mask_moves m))
  /\ expand (Z.land a b) (generate_expand_mask_moves m)
     = Z.land (expand a (generate_expand_mask_moves m))
              (expand b (generate_expand_mask_moves m))
  /\ expand (Z.lxor a b) (generate_expand_mask_moves m)
     = Z.lxor (expand a (generate_expand_mask_moves m))
              (expand b (generate_expand_mask_moves m)).
Proof.
  intros Hm. repeat split; apply Z.bits_inj'; intros p Hp;
    rewrite ?Z.lor_spec, ?Z.land_spec, ?Z.lxor_spec, !expand_bits by assumption;
    rewrite ?Z.lor_spec, ?Z.land_spec, ?Z.lxor_spec;
    destruct (Z.testbit m p), (Z.testbit a (rank m p)),
      (Z.testbit b (rank m p)); reflexivity.
Qed.

Lemma expand_bitwise_witness :
  expand (Z.lor 5 8) (generate_expand_mask_moves 0x9A)
  = Z.lor (expand 5 (generate_expand_mask_moves 0x9A))
          (expand 8 (generate_expand_mask_moves 0x9A)).
Proof.
  exact (proj1 (expand_bitwise 0x9A 5 8 ltac:(split; [lia | reflexivity]))).
Defined.

Section ExpandBounds.

Lemma rank_ones (k p : Z) :
  0 <= p <= k -> rank (Z.ones k) p = p.
Proof.
  intros Hp. destruct Hp as [Hp0 Hpk]. revert Hpk. pattern p.
  apply natlike_ind; [ | | exact Hp0].
  - intros _. apply rank_0.
  - intros q Hq IH Hle. unfold Z.succ. rewrite rank_succ by exact Hq.
    rewrite IH by lia. rewrite Z.testbit_ones_nonneg by lia.
    replace (q <? k) with true by (symmetry; apply Z.ltb_lt; lia).
    reflexivity.
Qed.

End ExpandBounds.

(** X7. The ends of the range of [expand]: the value 0 gives 0, the value
    with the low popcount(mask) bits set (and so the value 0xFFFFFFFF too)
    gives the mask itself, and no result is negative or above the mask.
    With a mask of [k] contiguous low bits [expand] keeps the low [k] bits
    of the value in place. *)
Theorem expand_range (m v : Z) :
  0 <= m < 2 ^ 32 ->
  expand 0 (generate_expand_mask_moves m) = 0
  /\ expand (2 ^ popcount m - 1) (generate_expand_mask_moves m) = m
  /\ expand (2 ^ 32 - 1) (generate_expand_mask_moves m) = m
  /\ 0 <= expand v (generate_expand_mask_moves m) <= m
  /\ (forall k, 0 <= k <= 32 -> m = 2 ^ k - 1 ->
        expand v (generate_expand_mask_moves m) = v mod 2 ^ k).
Proof.
  intros Hm. pose proof (popcount_nonneg m) as Hpop.
  assert (Hones : forall n, popcount m <= n ->
            expand (2 ^ n - 1) (generate_expand_mask_moves m) = m).
  { intros n Hn. apply Z.bits_inj'. intros p Hp.
    rewrite expand_bits by assumption.
    destruct (Z.testbit m p) eqn:Hbit; [ | reflexivity]. cbn [andb].
    pose proof (mask_bit_low m Hm p Hbit).
    pose proof (rank_lt_popcount m p ltac:(lia) Hbit).
    rewrite ones_pow2, Z.testbit_ones_nonneg by lia.
    apply Z.ltb_lt. lia. }
  split; [ | split; [ | split; [ | split]]].
  - apply Z.bits_inj'. intros p Hp. rewrite expand_bits by assumption.
    rewrite !Z.testbit_0_l. apply andb_false_r.
  - apply Hones. lia.
  - apply Hones. lia.
  - apply Z.ldiff_le; [lia | ]. apply Z.bits_inj'. intros p Hp.
    rewrite Z.ldiff_spec, expand_bits, Z.testbit_0_l by assumption.
    destruct (Z.testbit m p); [apply andb_false_r | reflexivity].
  - intros k Hk ->. apply Z.bits_inj'. intros p Hp.
    rewrite expand_bits by assumption.
    rewrite ones_pow2, Z.testbit_ones_nonneg by lia.
    destruct (Z.ltb_spec p k) as [Hlt | Hge]; cbn [andb].
    + rewrite rank_ones by lia. symmetry. apply Z.mod_pow2_bits_low. lia.
    + symmetry. apply Z.mod_pow2_bits_high. lia.
Qed.

Lemma expand_range_witness :
  expand (2 ^ popcount 0x9A - 1) (generate_expand_mask_moves 0x9A) = 0x9A.
Proof.
  exact (proj1 (proj2 (expand_range 0x9A 0 ltac:(split; [lia | reflexivity])))).
Defined.

(** ** What a box copy needs of its buffers, and what it leaves alone *)

Section CopyRunBounds.


Lemma memcpy_inv (dst : buffer) (d : Z) (src : buffer) (s n : Z) (b : buffer) :
  memcpy dst d src s n = Ret b ->
  0 <= n /\ 0 <= d /\ d + n <= buf_len dst /\ 0 <= s /\ s + n <= buf_len src.
Proof.
  unfold memcpy. intros Hcopy.
  destruct ((0 <=? n) && (0 <=? d) && (d + n <=? buf_len dst)
            && (0 <=? s) && (s + n <=? buf_len src)) eqn:Hok;
    [ | discriminate Hcopy].
  rewrite !andb_true_iff, !Z.leb_le in Hok. lia.
Qed.

Context {A : Type}.
Variables (D S : A -> Z) (n : Z) (src : buffer).

(* A run of copies that succeeds stayed inside both buffers, kept the length
   of the destination and left alone every byte outside the destination
   runs. *)
Lemma copy_run_inv (l : list A) :
  forall dst b,
    fold_result (fun c dst => memcpy dst (D c) src (S c) n) l dst = Ret b ->
    buf_len b = buf_len dst
    /\ (forall c, In c l ->
          0 <= n /\ 0 <= D c /\ D c + n <= buf_len dst
          /\ 0 <= S c /\ S c + n <= buf_len src)
    /\ (forall i, 0 <= i ->
          (forall c, In c l -> ~ (D c <= i < D c + n)) ->
          byte_at b i = byte_at dst i).
Proof.
  induction l as [ | a l IH]; intros dst b Hrun.
  - cbn [fold_result] in Hrun. injection Hrun as <-.
    split; [reflexivity | ]. split; [intros c [] | auto].
  - cbn [fold_result] in Hrun.
    destruct (memcpy dst (D a) src (S a) n) as [b1 | | | ] eqn:Hcopy;
      try discriminate Hrun.
    cbn [bind] in Hrun.
    pose proof (memcpy_inv _ _ _ _ _ _ Hcopy) as (Hn & Hd0 & Hd1 & Hs0 & Hs1).
    destruct (memcpy_spec dst (D a) src (S a) n Hn Hd0 Hd1 Hs0 Hs1)
      as (b1' & Hcopy' & Hlen1 & Hbytes1).
    assert (b1' = b1) by congruence. subst b1'.
    destruct (IH b1 b Hrun) as (Hlen & Hbounds & Hframe).
    split; [lia | ]. split.
    + intros c [<- | Hc]; [auto | ]. rewrite <- Hlen1. now apply Hbounds.
    + intros i Hi Hfree. rewrite Hframe.
      * rewrite Hbytes1 by exact Hi.
        replace ((D a <=? i) && (i <? D a + n)) with false; [reflexivity | ].
        symmetry. apply andb_false_iff. rewrite Z.leb_gt, Z.ltb_ge.
        specialize (Hfree a (or_introl eq_refl)). lia.
      * exact Hi.
      * intros c Hc. apply Hfree. now right.
Qed.

(* Staying inside both buffers is all a run of copies needs. *)
Lemma copy_run_ok (l : list A) :
  0 <= n ->
  forall dst,
    (forall c, In c l ->
       0 <= D c /\ D c + n <= buf_len dst
       /\ 0 <= S c /\ S c + n <= buf_len src) ->
    exists b,
      fold_result (fun c dst => memcpy dst (D c) src (S c) n) l dst = Ret b.
Proof.
  intros Hn. induction l as [ | a l IH]; intros dst Hbounds.
  - now exists dst.
  - destruct (Hbounds a (or_introl eq_refl)) as (Hd0 & Hd1 & Hs0 & Hs1).
    destruct (memcpy_spec dst (D a) src (S a) n Hn Hd0 Hd1 Hs0 Hs1)
      as (b1 & Hcopy & Hlen1 & _).
    cbn [fold_result]. rewrite Hcopy. cbn [bind]. apply IH.
    intros c Hc. rewrite Hlen1. apply Hbounds. now right.
Qed.

End CopyRunBounds.

Section CopyForms.

Variables (src : buffer) (mx my mz row_pitch slice_pitch bpp : Z).

Lemma copy_in_memcpy (c : Z * Z * Z) (dst : buffer) :
  copy_in src mx my mz row_pitch slice_pitch bpp c dst
  = memcpy dst (swz_of mx my mz bpp c)
           src (lin_of row_pitch slice_pitch bpp c) bpp.
Proof. now destruct c as [[x y] z]. Qed.

Lemma copy_out_memcpy (c : Z * Z * Z) (dst : buffer) :
  copy_out src mx my mz row_pitch slice_pitch bpp c dst
  = memcpy dst (lin_of row_pitch slice_pitch bpp c)
           src (swz_of mx my mz bpp c) bpp.
Proof. now destruct c as [[x y] z]. Qed.

Lemma fold_copy_in (l : list (Z * Z * Z)) (dst : buffer) :
  fold_result (copy_in src mx my mz row_pitch slice_pitch bpp) l dst
  = fold_result
      (fun c dst => memcpy dst (swz_of mx my mz bpp c)
                           src (lin_of row_pitch slice_pitch bpp c) bpp)
      l dst.
Proof. apply fold_result_ext. intros c t _. apply copy_in_memcpy. Qed.

Lemma fold_copy_out (l : list (Z * Z * Z)) (dst : buffer) :
  fold_result (copy_out src mx my mz row_pitch slice_pitch bpp) l dst
  = fold_result
      (fun c dst => memcpy dst (lin_of row_pitch slice_pitch bpp c)
                           src (swz_of mx my mz bpp c) bpp)
      l dst.
Proof. apply fold_result_ext. intros c t _. apply copy_out_memcpy. Qed.


End CopyForms.



(** ** Pixels under padded pitches *)

Section PaddedLayout.

Variables width height depth bpp row_pitch slice_pitch : Z.
Hypothesis Hwidth : 1 <= width.
Hypothesis Hheight : 1 <= height.
Hypothesis Hdepth : 1 <= depth.
Hypothesis Hbpp : 1 <= bpp.
Hypothesis Hrow : width * bpp <= row_pitch.
Hypothesis Hrows : height * row_pitch <= 2 ^ 32.
Hypothesis Hslice : depth = 1 \/ height * row_pitch <= slice_pitch.

(* With rows that do not overlap and do not wrap, the linear offset is the
   plain sum. *)
Lemma lin_of_padded (x y z : Z) :
  in_box width height depth x y z ->
  lin_of row_pitch slice_pitch bpp (x, y, z)
  = z * slice_pitch + y * row_pitch + x * bpp.
Proof.
  intros (Hx & Hy & Hz). unfold lin_of, linear_offset.
  assert (Hxb : 0 <= x * bpp < width * bpp) by nia.
  assert (Hyr : 0 <= y * row_pitch < height * row_pitch) by nia.
  assert (Hr : row_pitch <= height * row_pitch) by nia.
  rewrite (u32_small (y * row_pitch)) by lia.
  rewrite (u32_small (x * bpp)) by lia. reflexivity.
Qed.

Lemma row_run_bounds (x y j : Z) :
  0 <= x < width -> 0 <= y < height -> 0 <= j < bpp ->
  0 <= x * bpp + j < row_pitch
  /\ 0 <= y * row_pitch + (x * bpp + j) < height * row_pitch.
Proof.
  intros Hx Hy Hj.
  assert (Hxb : 0 <= x * bpp + j < width * bpp) by nia.
  split; [lia | ]. nia.
Qed.

Lemma lin_of_padded_bounds (c : Z * Z * Z) :
  In c (box_coords width height depth) ->
  0 <= lin_of row_pitch slice_pitch bpp c
  /\ lin_of row_pitch slice_pitch bpp c + bpp
     <= (depth - 1) * slice_pitch + height * row_pitch.
Proof.
  destruct c as [[x y] z]. rewrite in_box_coords. intros Hc.
  rewrite lin_of_padded by exact Hc. destruct Hc as (Hx & Hy & Hz).
  destruct (row_run_bounds x y 0 Hx Hy ltac:(lia)) as [_ Hlo].
  destruct (row_run_bounds x y (bpp - 1) Hx Hy ltac:(lia)) as [_ Hhi].
  destruct Hslice as [-> | Hs].
  - assert (z = 0) by lia. subst z. lia.
  - assert (0 <= z * slice_pitch <= (depth - 1) * slice_pitch) by nia. lia.
Qed.

Lemma lin_of_padded_disjoint (c c' : Z * Z * Z) (j j' : Z) :
  In c (box_coords width height depth) ->
  In c' (box_coords width height depth) ->
  0 <= j < bpp -> 0 <= j' < bpp ->
  lin_of row_pitch slice_pitch bpp c + j
  = lin_of row_pitch slice_pitch bpp c' + j' ->
  c = c'.
Proof.
  destruct c as [[x y] z], c' as [[x' y'] z']. rewrite !in_box_coords.
  intros Hc Hc' Hj Hj' Heq. rewrite !lin_of_padded in Heq by assumption.
  destruct Hc as (Hx & Hy & Hz), Hc' as (Hx' & Hy' & Hz').
  destruct (row_run_bounds x y j Hx Hy Hj) as [Ha Hr].
  destruct (row_run_bounds x' y' j' Hx' Hy' Hj') as [Ha' Hr'].
  assert (Hzz : z = z'
                /\ y * row_pitch + (x * bpp + j)
                   = y' * row_pitch + (x' * bpp + j')).
  { destruct Hslice as [-> | Hs].
    - assert (z = 0) by lia. assert (z' = 0) by lia. subst z z'. lia.
    - apply (Z.div_mod_unique slice_pitch); lia. }
  destruct Hzz as [-> Hrow'].
  destruct (Z.div_mod_unique row_pitch y y' (x * bpp + j) (x' * bpp + j'))
    as [-> Hpix]; [lia | lia | lia | ].
  rewrite (pixel_bytes_disjoint bpp x x' j j'); [reflexivity | lia | lia | lia].
Qed.

End PaddedLayout.

Section BoxContents.

Variables width height depth bpp row_pitch slice_pitch : Z.
Hypothesis Hwidth : 1 <= width <= 2 ^ 31.
Hypothesis Hheight : 1 <= height <= 2 ^ 31.
Hypothesis Hdepth : 1 <= depth <= 2 ^ 31.
Hypothesis Hbpp : 1 <= bpp.
Hypothesis Hsize :
  bpp * 2 ^ (Z.log2_up width + Z.log2_up height + Z.log2_up depth) < 2 ^ 32.

Variable s : masks_state.
Hypothesis Hpost : count_post width height depth s.

(* Linear to swizzled: any source layout that stays inside its buffer. *)
Lemma swizzle_contents (src dst : buffer) :
  (forall c, In c (box_coords width height depth) ->
     0 <= lin_of row_pitch slice_pitch bpp c
     /\ lin_of row_pitch slice_pitch bpp c + bpp <= buf_len src) ->
  bpp * 2 ^ (Z.log2_up width + Z.log2_up height + Z.log2_up depth)
  <= buf_len dst ->
  exists b,
    fold_result (copy_in src (sx s) (sy s) (sz s) row_pitch slice_pitch bpp)
                (box_coords width height depth) dst = Ret b
    /\ buf_len b = buf_len dst
    /\ (forall c j, In c (box_coords width height depth) -> 0 <= j < bpp ->
          byte_at b (swz_of (sx s) (sy s) (sz s) bpp c + j)
          = byte_at src (lin_of row_pitch slice_pitch bpp c + j))
    /\ (forall i, 0 <= i ->
          (forall c, In c (box_coords width height depth) ->
             ~ (swz_of (sx s) (sy s) (sz s) bpp c <= i
                < swz_of (sx s) (sy s) (sz s) bpp c + bpp)) ->
          byte_at b i = byte_at dst i).
Proof using All.
  intros Hsrc Hdst. rewrite fold_copy_in.
  apply copy_run; [lia | apply NoDup_box_coords | | ].
  - intros c Hc.
    pose proof (swz_of_bounds width height depth bpp Hbpp Hsize s Hpost c).
    pose proof (Hsrc c Hc). lia.
  - intros c c' j j' Hc Hc' Hj Hj'.
    now apply (swz_of_disjoint width height depth bpp Hwidth Hheight Hdepth
                 Hbpp Hsize s Hpost).
Qed.

Hypothesis Hrow : width * bpp <= row_pitch.
Hypothesis Hrows : height * row_pitch <= 2 ^ 32.
Hypothesis Hslice : depth = 1 \/ height * row_pitch <= slice_pitch.

(* Swizzled to linear: rows and slices that do not overlap. *)
Lemma unswizzle_contents (src dst : buffer) :
  bpp * 2 ^ (Z.log2_up width + Z.log2_up height + Z.log2_up depth)
  <= buf_len src ->
  (depth - 1) * slice_pitch + height * row_pitch <= buf_len dst ->
  exists b,
    fold_result (copy_out src (sx s) (sy s) (sz s) row_pitch slice_pitch bpp)
                (box_coords width height depth) dst = Ret b
    /\ buf_len b = buf_len dst
    /\ (forall c j, In c (box_coords width height depth) -> 0 <= j < bpp ->
          byte_at b (lin_of row_pitch slice_pitch bpp c + j)
          = byte_at src (swz_of (sx s) (sy s) (sz s) bpp c + j))
    /\ (forall i, 0 <= i ->
          (forall c, In c (box_coords width height depth) ->
             ~ (lin_of row_pitch slice_pitch bpp c <= i
                < lin_of row_pitch slice_pitch bpp c + bpp)) ->
          byte_at b i = byte_at dst i).
Proof using All.
  intros Hsrc Hdst. rewrite fold_copy_out.
  apply copy_run; [lia | apply NoDup_box_coords | | ].
  - intros c Hc.
    pose proof (swz_of_bounds width height depth bpp Hbpp Hsize s Hpost c).
    assert (Hlin : 0 <= lin_of row_pitch slice_pitch bpp c
                   /\ lin_of row_pitch slice_pitch bpp c + bpp
                      <= (depth - 1) * slice_pitch + height * row_pitch)
      by (apply (lin_of_padded_bounds width height depth);
          try assumption; lia).
    lia.
  - intros c c' j j' Hc Hc' Hj Hj'.
    intros Heq.
    apply (lin_of_padded_disjoint width height depth bpp row_pitch
             slice_pitch) with (j := j) (j' := j');
      try assumption; lia.
Qed.

End BoxContents.

Section RoundTripPadded.

Variables width height depth bpp row_pitch slice_pitch : Z.
Hypothesis Hwidth : 1 <= width <= 2 ^ 31.
Hypothesis Hheight : 1 <= height <= 2 ^ 31.
Hypothesis Hdepth : 1 <= depth <= 2 ^ 31.
Hypothesis Hbpp : 1 <= bpp.
Hypothesis Hsize :
  bpp * 2 ^ (Z.log2_up width + Z.log2_up height + Z.log2_up depth) < 2 ^ 32.
Hypothesis Hrow : width * bpp <= row_pitch.
Hypothesis Hrows : height * row_pitch <= 2 ^ 32.
Hypothesis Hslice : depth = 1 \/ height * row_pitch <= slice_pitch.

Variable s : masks_state.
Hypothesis Hpost : count_post width height depth s.

Lemma run_cover_dec (f : Z * Z * Z -> Z) (l : list (Z * Z * Z)) (i : Z) :
  (exists c, In c l /\ f c <= i < f c + bpp)
  \/ (forall c, In c l -> ~ (f c <= i < f c + bpp)).
Proof.
  induction l as [ | a l IH].
  - right. intros c [].
  - destruct IH as [(c & Hc & Hi) | Hno].
    + left. exists c. split; [now right | exact Hi].
    + destruct (Z_le_dec (f a) i) as [Hlo | Hlo];
        [destruct (Z_lt_dec i (f a + bpp)) as [Hhi | Hhi] | ].
      * left. exists a. split; [now left | lia].
      * right. intros c [<- | Hc]; [lia | now apply Hno].
      * right. intros c [<- | Hc]; [lia | now apply Hno].
Qed.

Lemma round_trip_contents (B S0 L0 : buffer) :
  (depth - 1) * slice_pitch + height * row_pitch <= buf_len B ->
  (depth - 1) * slice_pitch + height * row_pitch <= buf_len L0 ->
  bpp * 2 ^ (Z.log2_up width + Z.log2_up height + Z.log2_up depth)
  <= buf_len S0 ->
  exists S1 L1,
    fold_result (copy_in B (sx s) (sy s) (sz s) row_pitch slice_pitch bpp)
                (box_coords width height depth) S0 = Ret S1
    /\ fold_result (copy_out S1 (sx s) (sy s) (sz s) row_pitch slice_pitch
                             bpp)
                   (box_coords width height depth) L0 = Ret L1
    /\ buf_len L1 = buf_len L0
    /\ (forall c j, In c (box_coords width height depth) -> 0 <= j < bpp ->
          byte_at L1 (lin_of row_pitch slice_pitch bpp c + j)
          = byte_at B (lin_of row_pitch slice_pitch bpp c + j))
    /\ (forall i, 0 <= i ->
          (forall c, In c (box_coords width height depth) ->
             ~ (lin_of row_pitch slice_pitch bpp c <= i
                < lin_of row_pitch slice_pitch bpp c + bpp)) ->
          byte_at L1 i = byte_at L0 i).
Proof using All.
  intros HB HL0 HS0.
  destruct (swizzle_contents width height depth bpp row_pitch slice_pitch
              Hwidth Hheight Hdepth Hbpp Hsize s Hpost B S0)
    as (S1 & Hin & HlenS & HpixS & _); [ | exact HS0 | ].
  { intros c Hc.
    assert (Hlin : 0 <= lin_of row_pitch slice_pitch bpp c
                   /\ lin_of row_pitch slice_pitch bpp c + bpp
                      <= (depth - 1) * slice_pitch + height * row_pitch)
      by (apply (lin_of_padded_bounds width height depth);
          try assumption; lia).
    lia. }
  destruct (unswizzle_contents width height depth bpp row_pitch slice_pitch
              Hwidth Hheight Hdepth Hbpp Hsize s Hpost Hrow Hrows Hslice
              S1 L0)
    as (L1 & Hout & HlenL & HpixL & Hframe); [lia | exact HL0 | ].
  exists S1, L1. split; [exact Hin | ]. split; [exact Hout | ].
  split; [exact HlenL | ]. split; [ | exact Hframe].
  intros c j Hc Hj. rewrite (HpixL c j Hc Hj). now apply HpixS.
Qed.

Lemma round_trip_restore (B S0 L0 : buffer) :
  (depth - 1) * slice_pitch + height * row_pitch <= buf_len B ->
  buf_len L0 = buf_len B ->
  bpp * 2 ^ (Z.log2_up width + Z.log2_up height + Z.log2_up depth)
  <= buf_len S0 ->
  (forall i, 0 <= i < buf_len B ->
     (forall c, In c (box_coords width height depth) ->
        ~ (lin_of row_pitch slice_pitch bpp c <= i
           < lin_of row_pitch slice_pitch bpp c + bpp)) ->
     byte_at L0 i = byte_at B i) ->
  exists S1,
    fold_result (copy_in B (sx s) (sy s) (sz s) row_pitch slice_pitch bpp)
                (box_coords width height depth) S0 = Ret S1
    /\ fold_result (copy_out S1 (sx s) (sy s) (sz s) row_pitch slice_pitch
                             bpp)
                   (box_coords width height depth) L0 = Ret B.
Proof using All.
  intros HB HL0 HS0 Hpad.
  destruct (round_trip_contents B S0 L0 HB ltac:(lia) HS0)
    as (S1 & L1 & Hin & Hout & Hlen & Hpix & Hframe).
  exists S1. split; [exact Hin | ]. rewrite Hout. f_equal.
  apply byte_at_ext; [lia | ]. intros i Hi.
  destruct (run_cover_dec (lin_of row_pitch slice_pitch bpp)
              (box_coords width height depth) i) as [(c & Hc & Hrun) | Hno].
  - replace i with (lin_of row_pitch slice_pitch bpp c
                    + (i - lin_of row_pitch slice_pitch bpp c)) by lia.
    apply Hpix; [exact Hc | lia].
  - rewrite (Hframe i ltac:(lia) Hno). apply Hpad; [lia | exact Hno].
Qed.

End RoundTripPadded.

Lemma fit_bits (bpp k : Z) :
  1 <= bpp -> 0 <= k -> bpp * 2 ^ k < 2 ^ 32 -> k < 32.
Proof.
  intros Hbpp Hk Hsize. apply (Z.pow_lt_mono_r_iff 2); [lia | lia | ].
  assert (0 < 2 ^ k) by (apply Z.pow_pos_nonneg; lia). nia.
Qed.

Lemma box_masks_fit (fuel : nat) (width height depth bytes_per_pixel : Z) :
  (32 <= fuel)%nat ->
  1 <= width <= 2 ^ 31 -> 1 <= height <= 2 ^ 31 -> 1 <= depth <= 2 ^ 31 ->
  1 <= bytes_per_pixel ->
  bytes_per_pixel
  * 2 ^ (Z.log2_up width + Z.log2_up height + Z.log2_up depth) < 2 ^ 32 ->
  exists s, generate_swizzle_masks fuel width height depth
            = Ret (sx s, sy s, sz s)
            /\ count_post width height depth s.
Proof.
  intros Hfuel Hw Hh Hd Hbpp Hsize.
  apply generate_swizzle_masks_shape; try lia.
  pose proof (Z.log2_up_nonneg width). pose proof (Z.log2_up_nonneg height).
  pose proof (Z.log2_up_nonneg depth).
  assert (Z.log2_up width + Z.log2_up height + Z.log2_up depth < 32)
    by (apply (fit_bits bytes_per_pixel); [exact Hbpp | lia | exact Hsize]).
  lia.
Qed.

Lemma swz_of_interleave (width height depth bpp : Z) (s : masks_state)
      (x y z : Z) :
  1 <= bpp ->
  bpp * 2 ^ (Z.log2_up width + Z.log2_up height + Z.log2_up depth) < 2 ^ 32 ->
  count_post width height depth s ->
  swz_of (sx s) (sy s) (sz s) bpp (x, y, z)
  = bpp * interleave (sx s) (sy s) (sz s) x y z.
Proof.
  intros Hbpp Hsize Hpost.
  destruct (swz_of_fit width height depth bpp Hbpp Hsize s Hpost (x, y, z))
    as (o & Ho & _ & Ho').
  rewrite Ho, Ho'. reflexivity.
Qed.

(** X9. For a box whose swizzled image fits ([bytes_per_pixel *
    2^(bits of the three axes) < 2^32]), with the source runs and the
    swizzled image inside their buffers, [swizzle_box] returns a buffer in
    which the bytes of pixel [(x, y, z)] stand at [bytes_per_pixel] times
    the interleaved index and equal the bytes of the source at the linear
    offset of the pixel, whatever the pitches. *)
Theorem swizzle_box_pixels (fuel : nat) (src_buf dst_buf : buffer)
        (width height depth row_pitch slice_pitch bytes_per_pixel : Z) :
  (32 <= fuel)%nat ->
  1 <= width <= 2 ^ 31 -> 1 <= height <= 2 ^ 31 -> 1 <= depth <= 2 ^ 31 ->
  1 <= bytes_per_pixel ->
  bytes_per_pixel
  * 2 ^ (Z.log2_up width + Z.log2_up height + Z.log2_up depth) < 2 ^ 32 ->
  (forall x y z, in_box width height depth x y z ->
     0 <= linear_offset row_pitch slice_pitch bytes_per_pixel x y z
     /\ linear_offset row_pitch slice_pitch bytes_per_pixel x y z
        + bytes_per_pixel <= buf_len src_buf) ->
  bytes_per_pixel
  * 2 ^ (Z.log2_up width + Z.log2_up height + Z.log2_up depth)
  <= buf_len dst_buf ->
  exists mx my mz b,
    generate_swizzle_masks fuel width height depth = Ret (mx, my, mz)
    /\ swizzle_box fuel src_buf width height depth dst_buf
                   row_pitch slice_pitch bytes_per_pixel = Ret b
    /\ buf_len b = buf_len dst_buf
    /\ forall x y z j, in_box width height depth x y z ->
         0 <= j < bytes_per_pixel ->
         byte_at b (bytes_per_pixel * interleave mx my mz x y z + j)
         = byte_at src_buf
             (linear_offset row_pitch slice_pitch bytes_per_pixel x y z + j).
Proof.
  intros Hfuel Hw Hh Hd Hbpp Hsize Hsrc Hdst.
  destruct (box_masks_fit fuel width height depth bytes_per_pixel
              Hfuel Hw Hh Hd Hbpp Hsize) as (s & Hgen & Hpost).
  destruct (swizzle_contents width height depth bytes_per_pixel row_pitch
              slice_pitch Hw Hh Hd Hbpp Hsize s Hpost src_buf dst_buf)
    as (b & Hrun & Hlen & Hpix & _); [ | exact Hdst | ].
  { intros [[x y] z] Hc. apply in_box_coords in Hc. now apply Hsrc. }
  exists (sx s), (sy s), (sz s), b. split; [exact Hgen | ].
  split; [rewrite swizzle_box_fold, Hgen; exact Hrun | ].
  split; [exact Hlen | ]. intros x y z j Hc Hj.
  apply in_box_coords in Hc. specialize (Hpix (x, y, z) j Hc Hj).
  rewrite (swz_of_interleave width height depth) in Hpix by assumption.
  exact Hpix.
Qed.

Lemma swizzle_box_pixels_witness :
  exists mx my mz b,
    generate_swizzle_masks 32 3 2 1 = Ret (mx, my, mz)
    /\ swizzle_box 32 [x01; x02; x03; xff; x04; x05; x06; xff] 3 2 1
                   [x00; x00; x00; x00; x00; x00; x00; x00] 4 0 1 = Ret b
    /\ buf_len b = buf_len [x00; x00; x00; x00; x00; x00; x00; x00]
    /\ forall x y z j, in_box 3 2 1 x y z -> 0 <= j < 1 ->
         byte_at b (1 * interleave mx my mz x y z + j)
         = byte_at [x01; x02; x03; xff; x04; x05; x06; xff]
                   (linear_offset 4 0 1 x y z + j).
Proof.
  apply (swizzle_box_pixels 32 [x01; x02; x03; xff; x04; x05; x06; xff]
           [x00; x00; x00; x00; x00; x00; x00; x00] 3 2 1 4 0 1);
    try lia.
  - change (Z.log2_up 3) with 2. change (Z.log2_up 2) with 1.
    change (Z.log2_up 1) with 0. lia.
  - intros x y z (Hx & Hy & Hz). unfold linear_offset.
    rewrite !u32_small by lia. change (buf_len _) with 8. lia.
  - change (Z.log2_up 3) with 2. change (Z.log2_up 2) with 1.
    change (Z.log2_up 1) with 0. change (buf_len _) with 8. lia.
Defined.

(** X10. With rows that do not overlap ([width * bytes_per_pixel <=
    row_pitch]), slices that do not overlap and no 32-bit wrap-around,
    [unswizzle_box] returns a buffer in which the bytes of pixel
    [(x, y, z)] stand at [z * slice_pitch + y * row_pitch +
    x * bytes_per_pixel] and equal the bytes of the swizzled source at
    [bytes_per_pixel] times the interleaved index. *)
Theorem unswizzle_box_pixels (fuel : nat) (src_buf dst_buf : buffer)
        (width height depth row_pitch slice_pitch bytes_per_pixel : Z) :
  (32 <= fuel)%nat ->
  1 <= width <= 2 ^ 31 -> 1 <= height <= 2 ^ 31 -> 1 <= depth <= 2 ^ 31 ->
  1 <= bytes_per_pixel ->
  bytes_per_pixel
  * 2 ^ (Z.log2_up width + Z.log2_up height + Z.log2_up depth) < 2 ^ 32 ->
  width * bytes_per_pixel <= row_pitch ->
  height * row_pitch <= 2 ^ 32 ->
  depth = 1 \/ height * row_pitch <= slice_pitch ->
  bytes_per_pixel
  * 2 ^ (Z.log2_up width + Z.log2_up height + Z.log2_up depth)
  <= buf_len src_buf ->
  (depth - 1) * slice_pitch + height * row_pitch <= buf_len dst_buf ->
  exists mx my mz b,
    generate_swizzle_masks fuel width height depth = Ret (mx, my, mz)
    /\ unswizzle_box fuel src_buf width height depth dst_buf
                     row_pitch slice_pitch bytes_per_pixel = Ret b
    /\ buf_len b = buf_len dst_buf
    /\ forall x y z j, in_box width height depth x y z ->
         0 <= j < bytes_per_pixel ->
         byte_at b (z * slice_pitch + y * row_pitch + x * bytes_per_pixel
                    + j)
         = byte_at src_buf
             (bytes_per_pixel * interleave mx my mz x y z + j).
Proof.
  intros Hfuel Hw Hh Hd Hbpp Hsize Hrow Hrows Hslice Hsrc Hdst.
  destruct (box_masks_fit fuel width height depth bytes_per_pixel
              Hfuel Hw Hh Hd Hbpp Hsize) as (s & Hgen & Hpost).
  destruct (unswizzle_contents width height depth bytes_per_pixel row_pitch
              slice_pitch Hw Hh Hd Hbpp Hsize s Hpost Hrow Hrows Hslice
              src_buf dst_buf Hsrc Hdst)
    as (b & Hrun & Hlen & Hpix & _).
  exists (sx s), (sy s), (sz s), b. split; [exact Hgen | ].
  split; [rewrite unswizzle_box_fold, Hgen; exact Hrun | ].
  split; [exact Hlen | ]. intros x y z j Hc Hj.
  pose proof (proj2 (in_box_coords width height depth x y z) Hc) as Hin.
  specialize (Hpix (x, y, z) j Hin Hj).
  rewrite (swz_of_interleave width height depth) in Hpix by assumption.
  rewrite (lin_of_padded width height depth) in Hpix
    by (try assumption; lia).
  exact Hpix.
Qed.

Lemma unswizzle_box_pixels_witness :
  exists mx my mz b,
    generate_swizzle_masks 32 3 2 1 = Ret (mx, my, mz)
    /\ unswizzle_box 32 [x01; x02; x03; x04; x05; x06; x07; x08] 3 2 1
                     [x00; x00; x00; x00; x00; x00; x00; x00] 4 0 1 = Ret b
    /\ buf_len b = buf_len [x00; x00; x00; x00; x00; x00; x00; x00]
    /\ forall x y z j, in_box 3 2 1 x y z -> 0 <= j < 1 ->
         byte_at b (z * 0 + y * 4 + x * 1 + j)
         = byte_at [x01; x02; x03; x04; x05; x06; x07; x08]
                   (1 * interleave mx my mz x y z + j).
Proof.
  apply (unswizzle_box_pixels 32 [x01; x02; x03; x04; x05; x06; x07; x08]
           [x00; x00; x00; x00; x00; x00; x00; x00] 3 2 1 4 0 1);
    try lia.
  - change (Z.log2_up 3) with 2. change (Z.log2_up 2) with 1.
    change (Z.log2_up 1) with 0. lia.
  - change (Z.log2_up 3) with 2. change (Z.log2_up 2) with 1.
    change (Z.log2_up 1) with 0. change (buf_len _) with 8. lia.
  - change (buf_len _) with 8. lia.
Defined.

(** X11. Round trip with padded rows and slices: after [swizzle_box] and
    then [unswizzle_box] with the same pitches, every byte of every pixel
    is back at its linear offset, the bytes between the pixel runs are those
    of the buffer that received the linear image, and unswizzling over the
    original buffer gives the original buffer. *)
Theorem round_trip_padded (fuel : nat) (B S0 L0 : buffer)
        (width height depth row_pitch slice_pitch bytes_per_pixel : Z) :
  (32 <= fuel)%nat ->
  1 <= width <= 2 ^ 31 -> 1 <= height <= 2 ^ 31 -> 1 <= depth <= 2 ^ 31 ->
  1 <= bytes_per_pixel ->
  bytes_per_pixel
  * 2 ^ (Z.log2_up width + Z.log2_up height + Z.log2_up depth) < 2 ^ 32 ->
  width * bytes_per_pixel <= row_pitch ->
  height * row_pitch <= 2 ^ 32 ->
  depth = 1 \/ height * row_pitch <= slice_pitch ->
  (depth - 1) * slice_pitch + height * row_pitch <= buf_len B ->
  (depth - 1) * slice_pitch + height * row_pitch <= buf_len L0 ->
  bytes_per_pixel
  * 2 ^ (Z.log2_up width + Z.log2_up height + Z.log2_up depth)
  <= buf_len S0 ->
  exists S1 L1,
    swizzle_box fuel B width height depth S0
                row_pitch slice_pitch bytes_per_pixel = Ret S1
    /\ unswizzle_box fuel S1 width height depth L0
                     row_pitch slice_pitch bytes_per_pixel = Ret L1
    /\ buf_len L1 = buf_len L0
    /\ (forall x y z j, in_box width height depth x y z ->
          0 <= j < bytes_per_pixel ->
          byte_at L1 (z * slice_pitch + y * row_pitch + x * bytes_per_pixel
                      + j)
          = byte_at B (z * slice_pitch + y * row_pitch + x * bytes_per_pixel
                       + j))
    /\ (forall i, 0 <= i ->
          (forall x y z, in_box width height depth x y z ->
             ~ (z * slice_pitch + y * row_pitch + x * bytes_per_pixel <= i
                < z * slice_pitch + y * row_pitch + x * bytes_per_pixel
                  + bytes_per_pixel)) ->
          byte_at L1 i = byte_at L0 i)
    /\ unswizzle_box fuel S1 width height depth B
                     row_pitch slice_pitch bytes_per_pixel = Ret B.
Proof.
  intros Hfuel Hw Hh Hd Hbpp Hsize Hrow Hrows Hslice HB HL0 HS0.
  destruct (box_masks_fit fuel width height depth bytes_per_pixel
              Hfuel Hw Hh Hd Hbpp Hsize) as (s & Hgen & Hpost).
  destruct (round_trip_contents width height depth bytes_per_pixel row_pitch
              slice_pitch Hw Hh Hd Hbpp Hsize Hrow Hrows Hslice s Hpost
              B S0 L0 HB HL0 HS0)
    as (S1 & L1 & Hin & Hout & Hlen & Hpix & Hframe).
  destruct (round_trip_restore width height depth bytes_per_pixel row_pitch
              slice_pitch Hw Hh Hd Hbpp Hsize Hrow Hrows Hslice s Hpost
              B S0 B HB eq_refl HS0 (fun i _ _ => eq_refl))
    as (S1' & Hin' & Hback).
  assert (S1' = S1) by congruence. subst S1'.
  assert (Hlin : forall x y z, in_box width height depth x y z ->
            lin_of row_pitch slice_pitch bytes_per_pixel (x, y, z)
            = z * slice_pitch + y * row_pitch + x * bytes_per_pixel)
    by (intros x y z Hc; apply (lin_of_padded width height depth);
        try assumption; lia).
  exists S1, L1.
  rewrite swizzle_box_fold, !unswizzle_box_fold, Hgen. cbn [bind].
  split; [exact Hin | ]. split; [exact Hout | ]. split; [exact Hlen | ].
  split; [ | split; [ | exact Hback]].
  - intros x y z j Hc Hj. rewrite <- (Hlin x y z Hc).
    apply Hpix; [now apply in_box_coords | exact Hj].
  - intros i Hi Hfree. apply Hframe; [exact Hi | ].
    intros [[x y] z] Hc. apply in_box_coords in Hc.
    rewrite (Hlin x y z Hc). now apply Hfree.
Qed.

Lemma round_trip_padded_witness :
  exists S1 L1,
    swizzle_box 32 [x01; x02; x03; xff; x04; x05; x06; xff] 3 2 1
                [x00; x00; x00; x00; x00; x00; x00; x00] 4 0 1 = Ret S1
    /\ unswizzle_box 32 S1 3 2 1
                     [x00; x00; x00; x00; x00; x00; x00; x00] 4 0 1 = Ret L1
    /\ buf_len L1 = buf_len [x00; x00; x00; x00; x00; x00; x00; x00]
    /\ (forall x y z j, in_box 3 2 1 x y z -> 0 <= j < 1 ->
          byte_at L1 (z * 0 + y * 4 + x * 1 + j)
          = byte_at [x01; x02; x03; xff; x04; x05; x06; xff]
                    (z * 0 + y * 4 + x * 1 + j))
    /\ (forall i, 0 <= i ->
          (forall x y z, in_box 3 2 1 x y z ->
             ~ (z * 0 + y * 4 + x * 1 <= i < z * 0 + y * 4 + x * 1 + 1)) ->
          byte_at L1 i
          = byte_at [x00; x00; x00; x00; x00; x00; x00; x00] i)
    /\ unswizzle_box 32 S1 3 2 1 [x01; x02; x03; xff; x04; x05; x06; xff]
                     4 0 1
       = Ret [x01; x02; x03; xff; x04; x05; x06; xff].
Proof.
  apply (round_trip_padded 32 [x01; x02; x03; xff; x04; x05; x06; xff]
           [x00; x00; x00; x00; x00; x00; x00; x00]
           [x00; x00; x00; x00; x00; x00; x00; x00] 3 2 1 4 0 1);
    try lia.
  - change (Z.log2_up 3) with 2. change (Z.log2_up 2) with 1.
    change (Z.log2_up 1) with 0. lia.
  - change (buf_len _) with 8. lia.
  - change (buf_len _) with 8. lia.
  - change (Z.log2_up 3) with 2. change (Z.log2_up 2) with 1.
    change (Z.log2_up 1) with 0. change (buf_len _) with 8. lia.
Defined.

(** X12. Round trip of a 2D surface: [swizzle_rect] followed by
    [unswizzle_rect] with the same pitch, which may exceed
    [width * bytes_per_pixel], restores the original when it unswizzles over
    the original buffer; with a tight pitch it produces the original in any
    buffer of the same length. *)
Theorem rect_round_trip (fuel : nat) (B S0 L0 : buffer)
        (width height pitch bytes_per_pixel : Z) :
  (32 <= fuel)%nat ->
  1 <= width <= 2 ^ 31 -> 1 <= height <= 2 ^ 31 ->
  1 <= bytes_per_pixel ->
  bytes_per_pixel * 2 ^ (Z.log2_up width + Z.log2_up height) < 2 ^ 32 ->
  width * bytes_per_pixel <= pitch ->
  height * pitch <= 2 ^ 32 ->
  height * pitch <= buf_len B ->
  bytes_per_pixel * 2 ^ (Z.log2_up width + Z.log2_up height) <= buf_len S0 ->
  exists S1,
    swizzle_rect fuel B width height S0 pitch bytes_per_pixel = Ret S1
    /\ unswizzle_rect fuel S1 width height B pitch bytes_per_pixel = Ret B
    /\ (pitch = width * bytes_per_pixel ->
        buf_len B = height * pitch ->
        buf_len L0 = buf_len B ->
        unswizzle_rect fuel S1 width height L0 pitch bytes_per_pixel
        = Ret B).
Proof.
  intros Hfuel Hw Hh Hbpp Hsize Hrow Hrows HB HS0.
  assert (Hbits : Z.log2_up width + Z.log2_up height
                  = Z.log2_up width + Z.log2_up height + Z.log2_up 1)
    by (change (Z.log2_up 1) with 0; lia).
  rewrite Hbits in Hsize, HS0.
  assert (Hd : 1 <= 1 <= 2 ^ 31) by lia.
  destruct (box_masks_fit fuel width height 1 bytes_per_pixel
              Hfuel Hw Hh Hd Hbpp Hsize) as (s & Hgen & Hpost).
  assert (HB' : (1 - 1) * 0 + height * pitch <= buf_len B) by lia.
  destruct (round_trip_restore width height 1 bytes_per_pixel pitch 0
              Hw Hh Hd Hbpp Hsize Hrow Hrows (or_introl eq_refl) s Hpost
              B S0 B HB' eq_refl HS0 (fun i _ _ => eq_refl))
    as (S1 & Hin & Hback).
  exists S1. unfold swizzle_rect, unswizzle_rect.
  rewrite swizzle_box_fold, !unswizzle_box_fold, Hgen. cbn [bind].
  split; [exact Hin | ]. split; [exact Hback | ].
  intros Htight HlenB HlenL.
  destruct (round_trip_restore width height 1 bytes_per_pixel pitch 0
              Hw Hh Hd Hbpp Hsize Hrow Hrows (or_introl eq_refl) s Hpost
              B S0 L0 HB' HlenL HS0) as (S1' & Hin' & Hback').
  - intros i Hi Hfree. exfalso.
    assert (Hp : 0 <= i / bytes_per_pixel < width * height * 1).
    { split; [apply Z.div_pos; lia | ].
      apply Z.div_lt_upper_bound; [lia | ]. nia. }
    destruct (pixel_index_onto width height 1 ltac:(lia) ltac:(lia)
                ltac:(lia) _ Hp) as ([[x y] z] & Hc & Hidx).
    apply (Hfree _ Hc).
    rewrite (lin_of_padded width height 1 bytes_per_pixel pitch 0)
      by (try assumption; try lia; now apply in_box_coords).
    apply in_box_coords in Hc. destruct Hc as (Hx & Hy & Hz).
    assert (z = 0) by lia. subst z. unfold pixel_index in Hidx.
    pose proof (Z.div_mod i bytes_per_pixel ltac:(lia)) as Hdm.
    pose proof (Z.mod_pos_bound i bytes_per_pixel ltac:(lia)) as Hmod.
    rewrite <- Hidx in Hdm. subst pitch. nia.
  - assert (S1' = S1) by congruence. subst S1'. exact Hback'.
Qed.

Lemma rect_round_trip_witness :
  exists S1,
    swizzle_rect 32 [x01; x02; x03; x04] 2 2 [x00; x00; x00; x00] 2 1
    = Ret S1
    /\ unswizzle_rect 32 S1 2 2 [x01; x02; x03; x04] 2 1
       = Ret [x01; x02; x03; x04]
    /\ (2 = 2 * 1 ->
        buf_len [x01; x02; x03; x04] = 2 * 2 ->
        buf_len [xff; xff; xff; xff] = buf_len [x01; x02; x03; x04] ->
        unswizzle_rect 32 S1 2 2 [xff; xff; xff; xff] 2 1
        = Ret [x01; x02; x03; x04]).
Proof.
  apply (rect_round_trip 32 [x01; x02; x03; x04] [x00; x00; x00; x00]
           [xff; xff; xff; xff] 2 2 2 1);
    try lia.
  - change (Z.log2_up 2) with 1. lia.
  - change (buf_len _) with 4. lia.
  - change (Z.log2_up 2) with 1. change (buf_len _) with 4. lia.
Defined.

(** ** Destinations that are written completely *)

Section CopyOverwrite.

Context {A : Type}.
Variables (D S : A -> Z) (n : Z) (src : buffer).

Lemma copy_run_outcome (l : list A) :
  forall dst,
    (exists b,
       fold_result (fun c dst => memcpy dst (D c) src (S c) n) l dst = Ret b)
    \/ fold_result (fun c dst => memcpy dst (D c) src (S c) n) l dst = Fault.
Proof.
  induction l as [ | a l IH]; intros dst.
  - left. now exists dst.
  - cbn [fold_result].
    destruct (memcpy_outcome dst (D a) src (S a) n) as [[b1 ->] | ->].
    + cbn [bind]. apply IH.
    + now right.
Qed.

(* When the destination runs are disjoint and cover the destination, the
   outcome does not depend on what the destination held. *)
Lemma copy_run_overwrites (l : list A) (dst dst' : buffer) :
  0 <= n -> NoDup l ->
  (forall c c' j j', In c l -> In c' l -> 0 <= j < n -> 0 <= j' < n ->
     D c + j = D c' + j' -> c = c') ->
  buf_len dst' = buf_len dst ->
  (forall i, 0 <= i < buf_len dst ->
     exists c, In c l /\ D c <= i < D c + n) ->
  fold_result (fun c dst => memcpy dst (D c) src (S c) n) l dst
  = fold_result (fun c dst => memcpy dst (D c) src (S c) n) l dst'.
Proof.
  intros Hn Hnodup Hdisj Hlen Hcover.
  destruct (copy_run_outcome l dst) as [[b Hb] | Hb];
    destruct (copy_run_outcome l dst') as [[b' Hb'] | Hb'].
  - destruct (copy_run_inv D S n src l dst b Hb) as (Hlb & Hbounds & _).
    destruct (copy_run_inv D S n src l dst' b' Hb') as (Hlb' & Hbounds' & _).
    destruct (copy_run D S n src Hn l Hnodup dst) as (b0 & Hb0 & _ & Hpix & _);
      [intros c Hc; destruct (Hbounds c Hc); tauto | exact Hdisj | ].
    destruct (copy_run D S n src Hn l Hnodup dst')
      as (b0' & Hb0' & _ & Hpix' & _);
      [intros c Hc; destruct (Hbounds' c Hc); tauto | exact Hdisj | ].
    assert (b0 = b) by congruence. assert (b0' = b') by congruence.
    subst b0 b0'. rewrite Hb, Hb'. f_equal.
    apply byte_at_ext; [lia | ]. intros i Hi.
    destruct (Hcover i ltac:(lia)) as (c & Hc & Hrun).
    replace i with (D c + (i - D c)) by lia.
    rewrite Hpix, Hpix' by (assumption || lia). reflexivity.
  - exfalso.
    destruct (copy_run_inv D S n src l dst b Hb) as (_ & Hbounds & _).
    destruct (copy_run_ok D S n src l Hn dst') as [b' Hb''];
      [ | congruence].
    intros c Hc. rewrite Hlen. destruct (Hbounds c Hc). tauto.
  - exfalso.
    destruct (copy_run_inv D S n src l dst' b' Hb') as (_ & Hbounds & _).
    destruct (copy_run_ok D S n src l Hn dst) as [b Hb''];
      [ | congruence].
    intros c Hc. rewrite <- Hlen. destruct (Hbounds c Hc). tauto.
  - now rewrite Hb, Hb'.
Qed.

End CopyOverwrite.

Lemma pow2_dim (k : Z) : 0 <= k <= 31 -> 1 <= 2 ^ k <= 2 ^ 31.
Proof.
  intros Hk. split.
  - assert (0 < 2 ^ k) by (apply Z.pow_pos_nonneg; lia). lia.
  - apply Z.pow_le_mono_r; lia.
Qed.

Section PowerOfTwo.

Variables a b c bpp : Z.
Hypothesis Ha : 0 <= a <= 31.
Hypothesis Hb : 0 <= b <= 31.
Hypothesis Hc : 0 <= c <= 31.
Hypothesis Hbpp : 1 <= bpp.
Hypothesis Hsize : bpp * 2 ^ (a + b + c) < 2 ^ 32.

Lemma pow2_bits :
  Z.log2_up (2 ^ a) + Z.log2_up (2 ^ b) + Z.log2_up (2 ^ c) = a + b + c.
Proof using Ha Hb Hc. rewrite !Z.log2_up_pow2 by lia. reflexivity. Qed.

Variable s : masks_state.
Hypothesis Hpost : count_post (2 ^ a) (2 ^ b) (2 ^ c) s.

(* A box with power-of-two sides fills the interleaved index range. *)
Lemma interleave_onto (o : Z) :
  0 <= o < 2 ^ (a + b + c) ->
  exists p, In p (box_coords (2 ^ a) (2 ^ b) (2 ^ c))
            /\ (let '(x, y, z) := p in
                interleave (sx s) (sy s) (sz s) x y z) = o.
Proof using All.
  pose proof (pow2_dim a Ha) as Hwa. pose proof (pow2_dim b Hb) as Hwb.
  pose proof (pow2_dim c Hc) as Hwc.
  apply (injection_onto
           (fun p : Z * Z * Z =>
              let '(x, y, z) := p in interleave (sx s) (sy s) (sz s) x y z)).
  - apply NoDup_box_coords.
  - intros [[x y] z] [[x' y'] z'] Hp Hp' Heq.
    apply in_box_coords in Hp, Hp'.
    destruct (count_post_injective (2 ^ a) (2 ^ b) (2 ^ c) s ltac:(lia)
                ltac:(lia) ltac:(lia) Hpost x y z x' y' z' Hp Hp' Heq)
      as (-> & -> & ->).
    reflexivity.
  - intros [[x y] z] _.
    destruct Hpost as (_ & _ & _ & Hinv). rewrite pow2_bits in Hinv.
    exact (interleave_range _ _ _ _ _ Hinv x y z).
  - rewrite length_box_coords by lia. rewrite !Z.pow_add_r by lia. lia.
Qed.

Lemma swizzled_cover (i : Z) :
  0 <= i < bpp * 2 ^ (a + b + c) ->
  exists p, In p (box_coords (2 ^ a) (2 ^ b) (2 ^ c))
            /\ swz_of (sx s) (sy s) (sz s) bpp p <= i
               < swz_of (sx s) (sy s) (sz s) bpp p + bpp.
Proof using All.
  intros Hi.
  assert (Ho : 0 <= i / bpp < 2 ^ (a + b + c)).
  { split; [apply Z.div_pos; lia | ].
    apply Z.div_lt_upper_bound; lia. }
  destruct (interleave_onto _ Ho) as ([[x y] z] & Hp & Hidx).
  exists (x, y, z). split; [exact Hp | ].
  rewrite (swz_of_interleave (2 ^ a) (2 ^ b) (2 ^ c))
    by (try assumption; rewrite pow2_bits; exact Hsize).
  rewrite Hidx.
  pose proof (Z.div_mod i bpp ltac:(lia)).
  pose proof (Z.mod_pos_bound i bpp ltac:(lia)). lia.
Qed.

Lemma swizzle_overwrites (src dst dst' : buffer) (row_pitch slice_pitch : Z) :
  buf_len dst = bpp * 2 ^ (a + b + c) ->
  buf_len dst' = buf_len dst ->
  fold_result (copy_in src (sx s) (sy s) (sz s) row_pitch slice_pitch bpp)
              (box_coords (2 ^ a) (2 ^ b) (2 ^ c)) dst
  = fold_result (copy_in src (sx s) (sy s) (sz s) row_pitch slice_pitch bpp)
                (box_coords (2 ^ a) (2 ^ b) (2 ^ c)) dst'.
Proof using All.
  intros Hlen Hlen'. rewrite !fold_copy_in.
  apply copy_run_overwrites;
    [lia | apply NoDup_box_coords | | exact Hlen' | ].
  - intros p p' j j' Hp Hp' Hj Hj'.
    apply (swz_of_disjoint (2 ^ a) (2 ^ b) (2 ^ c) bpp);
      try assumption; try (apply pow2_dim; assumption).
    rewrite pow2_bits. exact Hsize.
  - intros i Hi. apply swizzled_cover. lia.
Qed.

End PowerOfTwo.

(* At any fuel the generator either is still running or returns masks with
   the bit counts of the three axes. *)
Lemma box_masks_outcome (fuel : nat) (width height depth bytes_per_pixel : Z) :
  1 <= width <= 2 ^ 31 -> 1 <= height <= 2 ^ 31 -> 1 <= depth <= 2 ^ 31 ->
  1 <= bytes_per_pixel ->
  bytes_per_pixel
  * 2 ^ (Z.log2_up width + Z.log2_up height + Z.log2_up depth) < 2 ^ 32 ->
  (exists s, generate_swizzle_masks fuel width height depth
             = Ret (sx s, sy s, sz s)
             /\ count_post width height depth s)
  \/ generate_swizzle_masks fuel width height depth = Timeout.
Proof.
  intros Hw Hh Hd Hbpp Hsize.
  assert (Hfit : Z.log2_up width + Z.log2_up height + Z.log2_up depth <= 32).
  { pose proof (Z.log2_up_nonneg width).
    pose proof (Z.log2_up_nonneg height).
    pose proof (Z.log2_up_nonneg depth).
    assert (Z.log2_up width + Z.log2_up height + Z.log2_up depth < 32)
      by (apply (fit_bits bytes_per_pixel);
          [exact Hbpp | lia | exact Hsize]).
    lia. }
  destruct (generate_swizzle_masks_outcome width height depth fuel)
    as [(s & Hrun & Hret) | Hout]; [left | now right].
  exists s. split; [exact Hret | ].
  apply (do_while_inv (masks_body width height depth)
           (count_inv width height depth) (count_post width height depth)
           (count_body width height depth ltac:(lia) ltac:(lia) ltac:(lia)
              Hfit)
           fuel masks_init s (count_inv_init width height depth) Hrun).
Qed.

(** X13. For a box with power-of-two sides, [unswizzle_box] followed by
    [swizzle_box] with the same pitches gives back the swizzled image it
    started from. *)
Theorem unswizzle_then_swizzle (fuel : nat) (S S0 L0 : buffer)
        (a b c row_pitch slice_pitch bytes_per_pixel : Z) :
  (32 <= fuel)%nat ->
  0 <= a <= 31 -> 0 <= b <= 31 -> 0 <= c <= 31 ->
  1 <= bytes_per_pixel ->
  bytes_per_pixel * 2 ^ (a + b + c) < 2 ^ 32 ->
  2 ^ a * bytes_per_pixel <= row_pitch ->
  2 ^ b * row_pitch <= 2 ^ 32 ->
  c = 0 \/ 2 ^ b * row_pitch <= slice_pitch ->
  buf_len S = bytes_per_pixel * 2 ^ (a + b + c) ->
  buf_len S0 = buf_len S ->
  (2 ^ c - 1) * slice_pitch + 2 ^ b * row_pitch <= buf_len L0 ->
  exists L1,
    unswizzle_box fuel S (2 ^ a) (2 ^ b) (2 ^ c) L0
                  row_pitch slice_pitch bytes_per_pixel = Ret L1
    /\ swizzle_box fuel L1 (2 ^ a) (2 ^ b) (2 ^ c) S0
                   row_pitch slice_pitch bytes_per_pixel = Ret S.
Proof.
  intros Hfuel Ha Hb Hc Hbpp Hsize Hrow Hrows Hslice HS HS0 HL0.
  pose proof (pow2_dim a Ha) as Hw. pose proof (pow2_dim b Hb) as Hh.
  pose proof (pow2_dim c Hc) as Hd.
  pose proof (pow2_bits a b c Ha Hb Hc) as Hbits.
  assert (Hsize' : bytes_per_pixel
                   * 2 ^ (Z.log2_up (2 ^ a) + Z.log2_up (2 ^ b)
                          + Z.log2_up (2 ^ c)) < 2 ^ 32)
    by (rewrite Hbits; exact Hsize).
  assert (Hslice' : 2 ^ c = 1 \/ 2 ^ b * row_pitch <= slice_pitch)
    by (destruct Hslice as [-> | Hs]; [now left | now right]).
  destruct (box_masks_fit fuel (2 ^ a) (2 ^ b) (2 ^ c) bytes_per_pixel
              Hfuel Hw Hh Hd Hbpp Hsize') as (s & Hgen & Hpost).
  destruct (unswizzle_contents (2 ^ a) (2 ^ b) (2 ^ c) bytes_per_pixel
              row_pitch slice_pitch Hw Hh Hd Hbpp Hsize' s Hpost Hrow Hrows
              Hslice' S L0)
    as (L1 & Hout & HlenL & HpixL & _); [rewrite Hbits; lia | exact HL0 | ].
  destruct (swizzle_contents (2 ^ a) (2 ^ b) (2 ^ c) bytes_per_pixel
              row_pitch slice_pitch Hw Hh Hd Hbpp Hsize' s Hpost L1 S0)
    as (S2 & Hin & HlenS & HpixS & _).
  { intros p Hp.
    assert (Hlin : 0 <= lin_of row_pitch slice_pitch bytes_per_pixel p
                   /\ lin_of row_pitch slice_pitch bytes_per_pixel p
                      + bytes_per_pixel
                      <= (2 ^ c - 1) * slice_pitch + 2 ^ b * row_pitch)
      by (apply (lin_of_padded_bounds (2 ^ a) (2 ^ b) (2 ^ c));
          try assumption; lia).
    lia. }
  { rewrite Hbits. lia. }
  exists L1. rewrite swizzle_box_fold, unswizzle_box_fold, Hgen. cbn [bind].
  split; [exact Hout | ]. rewrite Hin. f_equal.
  apply byte_at_ext; [lia | ]. intros i Hi.
  destruct (swizzled_cover a b c bytes_per_pixel Ha Hb Hc Hbpp Hsize s Hpost
              i ltac:(lia)) as (p & Hp & Hrun).
  replace i with (swz_of (sx s) (sy s) (sz s) bytes_per_pixel p
                  + (i - swz_of (sx s) (sy s) (sz s) bytes_per_pixel p))
    by lia.
  rewrite HpixS, HpixL by (assumption || lia). reflexivity.
Qed.

Lemma unswizzle_then_swizzle_witness :
  exists L1,
    unswizzle_box 32 [x01; x02; x03; x04] (2 ^ 1) (2 ^ 1) (2 ^ 0)
                  [x00; x00; x00; x00; x00; x00] 3 0 1 = Ret L1
    /\ swizzle_box 32 L1 (2 ^ 1) (2 ^ 1) (2 ^ 0) [xff; xff; xff; xff] 3 0 1
       = Ret [x01; x02; x03; x04].
Proof.
  apply (unswizzle_then_swizzle 32 [x01; x02; x03; x04] [xff; xff; xff; xff]
           [x00; x00; x00; x00; x00; x00] 1 1 0 3 0 1);
    try lia; reflexivity.
Defined.

(** X14. For a box with power-of-two sides and a destination of exactly
    [bytes_per_pixel * width * height * depth] bytes, the outcome of
    [swizzle_box] does not depend on what the destination held: every byte
    of it is overwritten (or the copy fails in both cases). *)
Theorem swizzle_box_overwrites (fuel : nat) (src_buf dst_buf dst_buf' : buffer)
        (a b c row_pitch slice_pitch bytes_per_pixel : Z) :
  0 <= a <= 31 -> 0 <= b <= 31 -> 0 <= c <= 31 ->
  1 <= bytes_per_pixel ->
  bytes_per_pixel * 2 ^ (a + b + c) < 2 ^ 32 ->
  buf_len dst_buf = bytes_per_pixel * 2 ^ (a + b + c) ->
  buf_len dst_buf' = buf_len dst_buf ->
  swizzle_box fuel src_buf (2 ^ a) (2 ^ b) (2 ^ c) dst_buf
              row_pitch slice_pitch bytes_per_pixel
  = swizzle_box fuel src_buf (2 ^ a) (2 ^ b) (2 ^ c) dst_buf'
                row_pitch slice_pitch bytes_per_pixel.
Proof.
  intros Ha Hb Hc Hbpp Hsize Hlen Hlen'.
  pose proof (pow2_dim a Ha) as Hw. pose proof (pow2_dim b Hb) as Hh.
  pose proof (pow2_dim c Hc) as Hd.
  assert (Hsize' : bytes_per_pixel
                   * 2 ^ (Z.log2_up (2 ^ a) + Z.log2_up (2 ^ b)
                          + Z.log2_up (2 ^ c)) < 2 ^ 32)
    by (rewrite (pow2_bits a b c Ha Hb Hc); exact Hsize).
  rewrite !swizzle_box_fold.
  destruct (box_masks_outcome fuel (2 ^ a) (2 ^ b) (2 ^ c) bytes_per_pixel
              Hw Hh Hd Hbpp Hsize') as [(s & -> & Hpost) | ->];
    [ | reflexivity].
  cbn [bind].
  now apply (swizzle_overwrites a b c bytes_per_pixel Ha Hb Hc Hbpp Hsize
               s Hpost).
Qed.

Lemma swizzle_box_overwrites_witness :
  swizzle_box 32 [x01; x02; x03; x04] (2 ^ 1) (2 ^ 1) (2 ^ 0)
              [x00; x00; x00; x00] 2 4 1
  = swizzle_box 32 [x01; x02; x03; x04] (2 ^ 1) (2 ^ 1) (2 ^ 0)
                [xff; xff; xff; xff] 2 4 1.
Proof.
  apply (swizzle_box_overwrites 32 [x01; x02; x03; x04] [x00; x00; x00; x00]
           [xff; xff; xff; xff] 1 1 0 2 4 1);
    try lia; reflexivity.
Defined.

(** X15. With tightly packed pitches and a destination of exactly
    [width * height * depth * bytes_per_pixel] bytes, the outcome of
    [unswizzle_box] does not depend on what the destination held, for any
    box whose swizzled image fits. *)
Theorem unswizzle_box_overwrites (fuel : nat)
        (src_buf dst_buf dst_buf' : buffer)
        (width height depth bytes_per_pixel : Z) :
  1 <= width <= 2 ^ 31 -> 1 <= height <= 2 ^ 31 -> 1 <= depth <= 2 ^ 31 ->
  1 <= bytes_per_pixel ->
  bytes_per_pixel
  * 2 ^ (Z.log2_up width + Z.log2_up height + Z.log2_up depth) < 2 ^ 32 ->
  buf_len dst_buf = width * height * depth * bytes_per_pixel ->
  buf_len dst_buf' = buf_len dst_buf ->
  unswizzle_box fuel src_buf width height depth dst_buf
                (width * bytes_per_pixel)
                (height * (width * bytes_per_pixel)) bytes_per_pixel
  = unswizzle_box fuel src_buf width height depth dst_buf'
                  (width * bytes_per_pixel)
                  (height * (width * bytes_per_pixel)) bytes_per_pixel.
Proof.
  intros Hw Hh Hd Hbpp Hsize Hlen Hlen'.
  rewrite !unswizzle_box_fold.
  destruct (box_masks_outcome fuel width height depth bytes_per_pixel
              Hw Hh Hd Hbpp Hsize) as [(s & -> & Hpost) | ->];
    [ | reflexivity].
  cbn [bind]. rewrite !fold_copy_out.
  apply copy_run_overwrites;
    [lia | apply NoDup_box_coords | | exact Hlen' | ].
  - intros p p' j j' Hp Hp' Hj Hj'.
    now apply (lin_of_disjoint width height depth bytes_per_pixel).
  - intros i Hi.
    assert (Hq : 0 <= i / bytes_per_pixel < width * height * depth).
    { split; [apply Z.div_pos; lia | ].
      apply Z.div_lt_upper_bound; lia. }
    destruct (pixel_index_onto width height depth ltac:(lia) ltac:(lia)
                ltac:(lia) _ Hq) as (p & Hp & Hidx).
    exists p. split; [exact Hp | ].
    rewrite (lin_of_tight width height depth bytes_per_pixel)
      by assumption.
    rewrite Hidx.
    pose proof (Z.div_mod i bytes_per_pixel ltac:(lia)).
    pose proof (Z.mod_pos_bound i bytes_per_pixel ltac:(lia)). lia.
Qed.

Lemma unswizzle_box_overwrites_witness :
  unswizzle_box 32 [x01; x02; x03; x04; x05; x06; x07; x08] 3 2 1
                [x00; x00; x00; x00; x00; x00] (3 * 1) (2 * (3 * 1)) 1
  = unswizzle_box 32 [x01; x02; x03; x04; x05; x06; x07; x08] 3 2 1
                  [xff; xff; xff; xff; xff; xff] (3 * 1) (2 * (3 * 1)) 1.
Proof.
  apply (unswizzle_box_overwrites 32
           [x01; x02; x03; x04; x05; x06; x07; x08]
           [x00; x00; x00; x00; x00; x00] [xff; xff; xff; xff; xff; xff]
           3 2 1 1);
    try lia; reflexivity.
Defined.

(** ** Nothing to copy *)

Lemma box_coords_empty (width height depth : Z) :
  width = 0 \/ height = 0 \/ depth = 0 ->
  box_coords width height depth = [].
Proof.
  intros Hzero.
  destruct (box_coords width height depth) as [ | [[x y] z] l] eqn:Hbox;
    [reflexivity | exfalso].
  assert (Hin : In (x, y, z) (box_coords width height depth))
    by (rewrite Hbox; now left).
  apply in_box_coords in Hin. unfold in_box in Hin. lia.
Qed.

(** X16. A box with a zero dimension: both box copies return, do no copy
    and leave the destination as it was, whatever the pitches, the pixel
    size and the buffers. *)
Theorem empty_box (fuel : nat) (src_buf dst_buf : buffer)
        (width height depth row_pitch slice_pitch bytes_per_pixel : Z) :
  (32 <= fuel)%nat ->
  0 <= width <= 2 ^ 31 -> 0 <= height <= 2 ^ 31 -> 0 <= depth <= 2 ^ 31 ->
  width = 0 \/ height = 0 \/ depth = 0 ->
  swizzle_box fuel src_buf width height depth dst_buf
              row_pitch slice_pitch bytes_per_pixel = Ret dst_buf
  /\ unswizzle_box fuel src_buf width height depth dst_buf
                   row_pitch slice_pitch bytes_per_pixel = Ret dst_buf.
Proof.
  intros Hfuel Hw Hh Hd Hzero.
  destruct (generate_swizzle_masks_returns width height depth fuel
              ltac:(lia) ltac:(lia) ltac:(lia) Hfuel) as (s & _ & _ & Hgen).
  rewrite swizzle_box_fold, unswizzle_box_fold, Hgen. cbn [bind].
  rewrite (box_coords_empty width height depth Hzero).
  split; reflexivity.
Qed.

Lemma empty_box_witness :
  swizzle_box 32 [x01; x02] 4 0 2 [x00; x00; x00] 4 0 1
  = Ret [x00; x00; x00]
  /\ unswizzle_box 32 [x01; x02] 4 0 2 [x00; x00; x00] 4 0 1
     = Ret [x00; x00; x00].
Proof.
  apply (empty_box 32 [x01; x02] [x00; x00; x00] 4 0 2 4 0 1); lia.
Defined.



(** ** A single row *)

Section SingleRow.

Lemma popcount_zero (m : Z) : 0 <= m < 2 ^ 32 -> popcount m = 0 -> m = 0.
Proof.
  intros Hm Hpop. apply Z.bits_inj'. intros p Hp. rewrite Z.testbit_0_l.
  destruct (Z.testbit m p) eqn:Hbit; [exfalso | reflexivity].
  pose proof (mask_bit_low m Hm p Hbit) as Hlow.
  pose proof (rank_lt_popcount m p Hlow Hbit). lia.
Qed.

Lemma expand_zero (m : Z) :
  0 <= m < 2 ^ 32 -> expand 0 (generate_expand_mask_moves m) = 0.
Proof.
  intros Hm. apply Z.bits_inj'. intros p Hp.
  rewrite expand_bits by assumption.
  rewrite !Z.testbit_0_l. apply andb_false_r.
Qed.

Lemma expand_low_mask (k v : Z) :
  0 <= k <= 32 -> 0 <= v < 2 ^ k ->
  expand v (generate_expand_mask_moves (Z.ones k)) = v.
Proof.
  intros Hk Hv.
  assert (Hm : 0 <= Z.ones k < 2 ^ 32).
  { rewrite <- ones_pow2.
    assert (0 < 2 ^ k <= 2 ^ 32)
      by (split; [apply Z.pow_pos_nonneg; lia | apply Z.pow_le_mono_r; lia]).
    lia. }
  apply Z.bits_inj'. intros p Hp. rewrite expand_bits by assumption.
  rewrite Z.testbit_ones_nonneg by lia.
  destruct (Z.ltb_spec p k) as [Hlt | Hge]; cbn [andb].
  - now rewrite rank_ones by lia.
  - symmetry. apply (testbit_above v k p); lia.
Qed.

Variables width bpp : Z.
Hypothesis Hwidth : 1 <= width <= 2 ^ 31.
Hypothesis Hbpp : 1 <= bpp.
Hypothesis Hsize : bpp * 2 ^ Z.log2_up width < 2 ^ 32.

Variable s : masks_state.
Hypothesis Hpost : count_post width 1 1 s.

(* With one row and one slice all the address bits belong to x. *)
Lemma row_masks : sx s = Z.ones (Z.log2_up width) /\ sy s = 0 /\ sz s = 0.
Proof using Hpost.
  destruct Hpost as (_ & Hy & Hz & Hinv).
  destruct (bits_inv_range _ _ _ _ _ Hinv) as (_ & Hry & Hrz).
  change (Z.log2_up 1) with 0 in Hy, Hz, Hinv.
  pose proof (popcount_zero _ Hry Hy) as Hy0.
  pose proof (popcount_zero _ Hrz Hz) as Hz0.
  destruct Hinv as (_ & _ & Hlor & _).
  rewrite Hy0, Hz0, !Z.lor_0_r, !Z.add_0_r, ones_pow2 in Hlor. auto.
Qed.

Lemma row_offsets (row_pitch slice_pitch : Z) (p : Z * Z * Z) :
  In p (box_coords width 1 1) ->
  swz_of (sx s) (sy s) (sz s) bpp p = fst (fst p) * bpp
  /\ lin_of row_pitch slice_pitch bpp p = fst (fst p) * bpp.
Proof using All.
  destruct p as [[x y] z]. rewrite in_box_coords. intros (Hx & Hy & Hz).
  assert (y = 0) by lia. assert (z = 0) by lia. subst y z. cbn [fst].
  pose proof (log2_up_dim width ltac:(lia)) as Hlw.
  pose proof (dim_le_pow2 width ltac:(lia)) as Hpow.
  assert (Hxb : 0 <= x * bpp < 2 ^ 32) by nia.
  split.
  - destruct row_masks as (Hmx & Hmy & Hmz).
    unfold swz_of, swizzled_offset, interleave. rewrite Hmx, Hmy, Hmz.
    rewrite (expand_zero 0) by lia.
    rewrite expand_low_mask by lia.
    rewrite !Z.lor_0_r, (Z.mul_comm bpp x). now apply u32_small.
  - unfold lin_of, linear_offset. rewrite !Z.mul_0_l.
    rewrite (u32_small 0) by lia. rewrite (u32_small (x * bpp)) by lia. lia.
Qed.

Lemma row_fold (src dst : buffer) :
  fold_result (fun (p : Z * Z * Z) dst0 =>
                 memcpy dst0 (fst (fst p) * bpp) src (fst (fst p) * bpp) bpp)
              (box_coords width 1 1) dst
  = memcpy dst 0 src 0 (width * bpp).
Proof using Hwidth Hbpp.
  destruct (Z_le_dec (width * bpp) (buf_len src)) as [Hsrc | Hsrc];
    [destruct (Z_le_dec (width * bpp) (buf_len dst)) as [Hdst | Hdst] | ].
  - destruct (copy_run (fun p : Z * Z * Z => fst (fst p) * bpp)
                (fun p : Z * Z * Z => fst (fst p) * bpp) bpp src
                ltac:(lia) (box_coords width 1 1)
                (NoDup_box_coords width 1 1) dst)
      as (b & Hrun & Hlen & Hpix & Hframe).
    + intros [[x y] z] Hp. apply in_box_coords in Hp.
      destruct Hp as (Hx & _ & _). cbn [fst]. nia.
    + intros [[x y] z] [[x' y'] z'] j j' Hp Hp' Hj Hj'. cbn [fst].
      apply in_box_coords in Hp, Hp'.
      destruct Hp as (Hx & Hy & Hz), Hp' as (Hx' & Hy' & Hz').
      intros Heq.
      rewrite (pixel_bytes_disjoint bpp x x' j j') by lia.
      f_equal; [f_equal | ]; lia.
    + destruct (memcpy_spec dst 0 src 0 (width * bpp))
        as (b' & Hcopy & Hlen' & Hbytes); try lia.
      rewrite Hrun, Hcopy. f_equal. apply byte_at_ext; [lia | ].
      intros i Hi. rewrite Hbytes by lia.
      destruct (Z.ltb_spec i (0 + width * bpp)) as [Hin | Hout].
      * replace (0 <=? i) with true by (symmetry; apply Z.leb_le; lia).
        cbn [andb].
        assert (Hx : 0 <= i / bpp < width).
        { split; [apply Z.div_pos; lia | ].
          apply Z.div_lt_upper_bound; lia. }
        pose proof (Z.div_mod i bpp ltac:(lia)) as Hdm.
        pose proof (Z.mod_pos_bound i bpp ltac:(lia)) as Hmod.
        assert (Hp : In (i / bpp, 0, 0) (box_coords width 1 1))
          by (apply in_box_coords; unfold in_box; lia).
        specialize (Hpix _ (i mod bpp) Hp Hmod). cbn [fst] in Hpix.
        replace (i / bpp * bpp + i mod bpp) with i in Hpix by lia.
        rewrite Hpix. f_equal. lia.
      * rewrite andb_false_r. apply Hframe; [lia | ].
        intros [[x y] z] Hp. apply in_box_coords in Hp.
        destruct Hp as (Hx & _ & _). cbn [fst]. nia.
  - replace (memcpy dst 0 src 0 (width * bpp)) with (@Fault buffer).
    + destruct (copy_run_outcome
                  (fun p : Z * Z * Z => fst (fst p) * bpp)
                  (fun p : Z * Z * Z => fst (fst p) * bpp) bpp src
                  (box_coords width 1 1) dst) as [[b Hrun] | Hrun];
        [exfalso | exact Hrun].
      destruct (copy_run_inv _ _ _ _ _ _ _ Hrun) as (_ & Hbounds & _).
      assert (Hp : In (width - 1, 0, 0) (box_coords width 1 1))
        by (apply in_box_coords; unfold in_box; lia).
      specialize (Hbounds _ Hp). cbn [fst] in Hbounds. nia.
    + unfold memcpy.
      replace (0 + width * bpp <=? buf_len dst) with false
        by (symmetry; apply Z.leb_gt; lia).
      now rewrite andb_false_r.
  - replace (memcpy dst 0 src 0 (width * bpp)) with (@Fault buffer).
    + destruct (copy_run_outcome
                  (fun p : Z * Z * Z => fst (fst p) * bpp)
                  (fun p : Z * Z * Z => fst (fst p) * bpp) bpp src
                  (box_coords width 1 1) dst) as [[b Hrun] | Hrun];
        [exfalso | exact Hrun].
      destruct (copy_run_inv _ _ _ _ _ _ _ Hrun) as (_ & Hbounds & _).
      assert (Hp : In (width - 1, 0, 0) (box_coords width 1 1))
        by (apply in_box_coords; unfold in_box; lia).
      specialize (Hbounds _ Hp). cbn [fst] in Hbounds. nia.
    + unfold memcpy.
      replace (0 + width * bpp <=? buf_len src) with false
        by (symmetry; apply Z.leb_gt; lia).
      now rewrite andb_false_r.
Qed.

End SingleRow.

(** X18. A box of one row and one slice is not rearranged: [swizzle_box]
    and [unswizzle_box] both behave as one [memcpy] of
    [width * bytes_per_pixel] bytes from the start of the source to the
    start of the destination, whatever the pitches, failing exactly when
    that [memcpy] would leave a buffer. *)
Theorem single_row_is_memcpy (fuel : nat) (src_buf dst_buf : buffer)
        (width row_pitch slice_pitch bytes_per_pixel : Z) :
  (32 <= fuel)%nat ->
  1 <= width <= 2 ^ 31 ->
  1 <= bytes_per_pixel ->
  bytes_per_pixel * 2 ^ Z.log2_up width < 2 ^ 32 ->
  swizzle_box fuel src_buf width 1 1 dst_buf
              row_pitch slice_pitch bytes_per_pixel
  = memcpy dst_buf 0 src_buf 0 (width * bytes_per_pixel)
  /\ unswizzle_box fuel src_buf width 1 1 dst_buf
                   row_pitch slice_pitch bytes_per_pixel
     = memcpy dst_buf 0 src_buf 0 (width * bytes_per_pixel).
Proof.
  intros Hfuel Hw Hbpp Hsize.
  assert (Hsize' : bytes_per_pixel
                   * 2 ^ (Z.log2_up width + Z.log2_up 1 + Z.log2_up 1)
                   < 2 ^ 32)
    by (change (Z.log2_up 1) with 0; rewrite !Z.add_0_r; exact Hsize).
  destruct (box_masks_fit fuel width 1 1 bytes_per_pixel Hfuel Hw
              ltac:(lia) ltac:(lia) Hbpp Hsize') as (s & Hgen & Hpost).
  rewrite swizzle_box_fold, unswizzle_box_fold, Hgen. cbn [bind].
  rewrite fold_copy_in, fold_copy_out.
  rewrite <- (row_fold width bytes_per_pixel Hw Hbpp src_buf dst_buf).
  split; apply fold_result_ext; intros p dst0 Hp;
    destruct (row_offsets width bytes_per_pixel Hw Hbpp Hsize s Hpost
                row_pitch slice_pitch p Hp) as [-> ->];
    reflexivity.
Qed.

Lemma single_row_is_memcpy_witness :
  swizzle_box 32 [x01; x02; x03; x04; x05; x06] 3 1 1
              [x00; x00; x00; x00; x00; x00; x00] 0 0 2
  = memcpy [x00; x00; x00; x00; x00; x00; x00] 0
           [x01; x02; x03; x04; x05; x06] 0 (3 * 2)
  /\ unswizzle_box 32 [x01; x02; x03; x04; x05; x06] 3 1 1
                   [x00; x00; x00; x00; x00; x00; x00] 0 0 2
     = memcpy [x00; x00; x00; x00; x00; x00; x00] 0
              [x01; x02; x03; x04; x05; x06] 0 (3 * 2).
Proof.
  apply (single_row_is_memcpy 32 [x01; x02; x03; x04; x05; x06]
           [x00; x00; x00; x00; x00; x00; x00] 3 0 0 2);
    try lia; reflexivity.
Defined.

(** ** Order *)

Section BitOrder.

Lemma bit_split (x i : Z) :
  0 <= i -> x mod 2 ^ (i + 1) = x mod 2 ^ i + 2 ^ i * Z.b2z (Z.testbit x i).
Proof.
  intros Hi. assert (Hpow : 0 < 2 ^ i) by (apply Z.pow_pos_nonneg; lia).
  rewrite Z.pow_add_r, Z.pow_1_r by lia.
  rewrite Z.rem_mul_r by lia. f_equal. f_equal.
  destruct (Z.testbit x i) eqn:Hbit.
  - now apply Z.testbit_true.
  - now apply Z.testbit_false.
Qed.

(* The highest bit in which two numbers differ decides their order. *)
Lemma lt_by_bits (a b i : Z) :
  0 <= i ->
  Z.testbit a i = false -> Z.testbit b i = true ->
  (forall j, i < j -> Z.testbit a j = Z.testbit b j) ->
  a < b.
Proof.
  intros Hi Ha Hb Hhigh.
  assert (Hpow : 0 < 2 ^ i) by (apply Z.pow_pos_nonneg; lia).
  assert (Hpow' : 0 < 2 ^ (i + 1)) by (apply Z.pow_pos_nonneg; lia).
  assert (Hq : a / 2 ^ (i + 1) = b / 2 ^ (i + 1)).
  { apply Z.bits_inj'. intros j Hj. rewrite !Z.div_pow2_bits by lia.
    apply Hhigh. lia. }
  pose proof (Z.div_mod a (2 ^ (i + 1)) ltac:(lia)) as Hda.
  pose proof (Z.div_mod b (2 ^ (i + 1)) ltac:(lia)) as Hdb.
  rewrite bit_split in Hda, Hdb by exact Hi.
  rewrite Ha in Hda. rewrite Hb in Hdb. rewrite Hq in Hda.
  cbn [Z.b2z] in Hda, Hdb.
  pose proof (Z.mod_pos_bound a (2 ^ i) Hpow).
  pose proof (Z.mod_pos_bound b (2 ^ i) Hpow). lia.
Qed.

Lemma bits_by_lt (n : Z) :
  0 <= n ->
  forall a b, 0 <= a < b -> b < 2 ^ n ->
    exists i, 0 <= i < n
              /\ Z.testbit a i = false /\ Z.testbit b i = true
              /\ forall j, i < j -> Z.testbit a j = Z.testbit b j.
Proof.
  intros Hn. pattern n. apply natlike_ind; [ | | exact Hn].
  - intros a b Hab Hb. change (2 ^ 0) with 1 in Hb. lia.
  - clear n Hn. intros n Hn IH a b Hab Hb. unfold Z.succ in *.
    assert (Hpow : 0 < 2 ^ n) by (apply Z.pow_pos_nonneg; lia).
    pose proof (bit_split a n Hn) as Hsa. pose proof (bit_split b n Hn) as Hsb.
    rewrite Z.mod_small in Hsa by lia. rewrite Z.mod_small in Hsb by lia.
    pose proof (Z.mod_pos_bound a (2 ^ n) Hpow) as Hma.
    pose proof (Z.mod_pos_bound b (2 ^ n) Hpow) as Hmb.
    assert (Habove : forall j, n + 1 <= j ->
              Z.testbit a j = Z.testbit b j).
    { intros j Hj. rewrite (testbit_above a (n + 1) j) by lia.
      rewrite (testbit_above b (n + 1) j) by lia. reflexivity. }
    destruct (Z.testbit a n) eqn:Hta, (Z.testbit b n) eqn:Htb;
      cbn [Z.b2z] in Hsa, Hsb.
    + destruct (IH (a mod 2 ^ n) (b mod 2 ^ n) ltac:(lia) ltac:(lia))
        as (i & Hi & Hai & Hbi & Hhigh).
      rewrite Z.mod_pow2_bits_low in Hai, Hbi by lia.
      exists i. split; [lia | ]. split; [exact Hai | ].
      split; [exact Hbi | ]. intros j Hj.
      destruct (Z.lt_trichotomy j n) as [Hlt | [-> | Hgt]].
      * rewrite <- (Z.mod_pow2_bits_low a n j) by exact Hlt.
        rewrite <- (Z.mod_pow2_bits_low b n j) by exact Hlt.
        now apply Hhigh.
      * now rewrite Hta, Htb.
      * apply Habove. lia.
    + lia.
    + exists n. split; [lia | ]. split; [exact Hta | ].
      split; [exact Htb | ]. intros j Hj. apply Habove. lia.
    + destruct (IH (a mod 2 ^ n) (b mod 2 ^ n) ltac:(lia) ltac:(lia))
        as (i & Hi & Hai & Hbi & Hhigh).
      rewrite Z.mod_pow2_bits_low in Hai, Hbi by lia.
      exists i. split; [lia | ]. split; [exact Hai | ].
      split; [exact Hbi | ]. intros j Hj.
      destruct (Z.lt_trichotomy j n) as [Hlt | [-> | Hgt]].
      * rewrite <- (Z.mod_pow2_bits_low a n j) by exact Hlt.
        rewrite <- (Z.mod_pow2_bits_low b n j) by exact Hlt.
        now apply Hhigh.
      * now rewrite Hta, Htb.
      * apply Habove. lia.
Qed.

Lemma expand_lt (m a b : Z) :
  0 <= m < 2 ^ 32 ->
  0 <= a < b -> b < 2 ^ popcount m ->
  expand a (generate_expand_mask_moves m)
  < expand b (generate_expand_mask_moves m).
Proof.
  intros Hm Hab Hb. pose proof (popcount_nonneg m) as Hpop.
  destruct (bits_by_lt (popcount m) ltac:(lia) a b Hab Hb)
    as (i & Hi & Hai & Hbi & Hhigh).
  destruct (nth_set_bit_complete m (Z.to_nat i)) as [q Hq];
    [rewrite Z2Nat.id by lia; lia | ].
  destruct (nth_set_bit_sound m _ q Hq) as (Hq32 & Hmq & Hrq).
  rewrite Z2Nat.id in Hrq by lia.
  apply (lt_by_bits _ _ q); [lia | | | ].
  - rewrite expand_bits by lia. now rewrite Hmq, Hrq, Hai.
  - rewrite expand_bits by lia. now rewrite Hmq, Hrq, Hbi.
  - intros j Hj. rewrite !expand_bits by lia.
    destruct (Z.testbit m j) eqn:Hmj; [cbn [andb] | reflexivity].
    apply Hhigh. rewrite <- Hrq. apply rank_lt; [lia | exact Hmq].
Qed.

End BitOrder.

(** X19. [expand] preserves order: on values that fit in popcount(mask)
    bits, a smaller value gives a smaller result, and only then. *)
Theorem expand_monotone (m a b : Z) :
  0 <= m < 2 ^ 32 ->
  0 <= a < 2 ^ popcount m -> 0 <= b < 2 ^ popcount m ->
  (a < b <-> expand a (generate_expand_mask_moves m)
             < expand b (generate_expand_mask_moves m)).
Proof.
  intros Hm Ha Hb. split; [intros Hlt; apply expand_lt; lia | ].
  intros Hlt. destruct (Z.lt_trichotomy a b) as [Hab | [-> | Hba]].
  - exact Hab.
  - lia.
  - pose proof (expand_lt m b a Hm ltac:(lia) ltac:(lia)). lia.
Qed.

Lemma expand_monotone_witness :
  5 < 6 <-> expand 5 (generate_expand_mask_moves 0x9A)
            < expand 6 (generate_expand_mask_moves 0x9A).
Proof.
  apply (expand_monotone 0x9A 5 6);
    (split; [lia | reflexivity]).
Defined.

(** X20. Byte runs in the swizzled image: for a box whose swizzled image
    fits, [get_swizzled_offset] of a pixel is [bytes_per_pixel] times its
    interleaved index without wrap-around, the run of [bytes_per_pixel]
    bytes that starts there lies inside the first [bytes_per_pixel *
    2^(bits of the three axes)] bytes, and two pixels never share a
    byte. *)
Theorem swizzled_runs (fuel : nat)
        (width height depth bytes_per_pixel mx my mz : Z) :
  generate_swizzle_masks fuel width height depth = Ret (mx, my, mz) ->
  1 <= width <= 2 ^ 31 -> 1 <= height <= 2 ^ 31 -> 1 <= depth <= 2 ^ 31 ->
  1 <= bytes_per_pixel ->
  bytes_per_pixel
  * 2 ^ (Z.log2_up width + Z.log2_up height + Z.log2_up depth) < 2 ^ 32 ->
  (forall x y z,
     get_swizzled_offset x y z (generate_expand_mask_moves mx)
       (generate_expand_mask_moves my) (generate_expand_mask_moves mz)
       bytes_per_pixel
     = bytes_per_pixel * interleave mx my mz x y z
     /\ 0 <= bytes_per_pixel * interleave mx my mz x y z
     /\ bytes_per_pixel * interleave mx my mz x y z + bytes_per_pixel
        <= bytes_per_pixel
           * 2 ^ (Z.log2_up width + Z.log2_up height + Z.log2_up depth))
  /\ (forall x y z x' y' z' j j',
        in_box width height depth x y z ->
        in_box width height depth x' y' z' ->
        0 <= j < bytes_per_pixel -> 0 <= j' < bytes_per_pixel ->
        get_swizzled_offset x y z (generate_expand_mask_moves mx)
          (generate_expand_mask_moves my) (generate_expand_mask_moves mz)
          bytes_per_pixel + j
        = get_swizzled_offset x' y' z' (generate_expand_mask_moves mx)
            (generate_expand_mask_moves my) (generate_expand_mask_moves mz)
            bytes_per_pixel + j' ->
        (x, y, z) = (x', y', z') /\ j = j').
Proof.
  intros Hgen Hw Hh Hd Hbpp Hsize.
  destruct (box_masks_outcome fuel width height depth bytes_per_pixel
              Hw Hh Hd Hbpp Hsize) as [(s & Hret & Hpost) | Hout];
    [ | congruence].
  assert (mx = sx s /\ my = sy s /\ mz = sz s) as (-> & -> & ->)
    by (rewrite Hgen in Hret; injection Hret; auto).
  assert (Hoff : forall x y z,
            get_swizzled_offset x y z (generate_expand_mask_moves (sx s))
              (generate_expand_mask_moves (sy s))
              (generate_expand_mask_moves (sz s)) bytes_per_pixel
            = swz_of (sx s) (sy s) (sz s) bytes_per_pixel (x, y, z))
    by reflexivity.
  split.
  - intros x y z. rewrite Hoff.
    pose proof (swz_of_bounds width height depth bytes_per_pixel Hbpp Hsize
                  s Hpost (x, y, z)) as Hbounds.
    rewrite (swz_of_interleave width height depth) in * by assumption.
    split; [reflexivity | exact Hbounds].
  - intros x y z x' y' z' j j' Hp Hp' Hj Hj'. rewrite !Hoff. intros Heq.
    apply in_box_coords in Hp, Hp'.
    pose proof (swz_of_disjoint width height depth bytes_per_pixel
                  Hw Hh Hd Hbpp Hsize s Hpost _ _ j j' Hp Hp' Hj Hj' Heq)
      as Hsame.
    split; [exact Hsame | ]. rewrite Hsame in Heq. lia.
Qed.

Lemma swizzled_runs_witness :
  get_swizzled_offset 2 1 0 (generate_expand_mask_moves 5)
    (generate_expand_mask_moves 2) (generate_expand_mask_moves 0) 4
  = 4 * interleave 5 2 0 2 1 0
  /\ 0 <= 4 * interleave 5 2 0 2 1 0
  /\ 4 * interleave 5 2 0 2 1 0 + 4
     <= 4 * 2 ^ (Z.log2_up 3 + Z.log2_up 2 + Z.log2_up 1).
Proof.
  exact (proj1 (swizzled_runs 32 3 2 1 4 5 2 0 eq_refl ltac:(lia)
                  ltac:(lia) ltac:(lia) ltac:(lia) eq_refl) 2 1 0).
Defined.
